(** * The vcl lexer (src/main.cpp): a shallow embedding and its properties

    The lexer reads its source through a [std::ifstream].  The model keeps
    the stream as the code uses it: the bytes of the file, a get position
    and the [eofbit] and [failbit] state bits, with the member functions
    [good], [peek], [get], [tellg], [seekg] and [get(buf, n, delim)] as
    the C++ standard library defines them (each of them constructs a
    sentry, which sets [failbit] on a stream that is not good).  The
    member functions of [Lexer] run in a state and error monad over the
    [Lexer] object.

    Machine integers: [int] is 32 bits wide.  The narrowing
    [static_cast<int>] wraps around (modulo 2^32); arithmetic on [int]
    whose result leaves the range of [int] is undefined behaviour and ends
    the run with the fault [UndefinedBehaviour], as does the read of a
    buffer that was never written.  (A second version of the token
    branches, [next_token_in], takes what such a read finds as a
    parameter.)  Stream offsets ([std::streampos]) are
    64 bits wide and are kept in [Z].  An exception that nothing catches
    and a failed [assert] (NDEBUG is not defined) end the run as well.

    Character classification is that of the "C" locale (the program never
    calls [setlocale]).

    The file has five parts: the model, the notions used in the
    statements, the lemmas, the claims C1 to C10, and what single calls
    of [next_token], whole scans and main do, branch by branch (X1 to
    X17). *)

From Stdlib Require Import ZArith List Ascii String Bool Lia DecimalString.
Import ListNotations.
Open Scope Z_scope.

(** ** Machine integers and characters *)

Definition INT_MIN : Z := - 2 ^ 31.
Definition INT_MAX : Z := 2 ^ 31 - 1.

(** [static_cast<int>(z)] for a 64-bit offset [z]. *)
Definition static_cast_int (z : Z) : Z := (z + 2 ^ 31) mod 2 ^ 32 - 2 ^ 31.

(** [char c = i] for an [int] [i] ([char] is signed). *)
Definition static_cast_char (z : Z) : Z := (z + 128) mod 256 - 128.

Definition in_int (z : Z) : bool := (INT_MIN <=? z) && (z <=? INT_MAX).

(** [traits_type::eof()] *)
Definition EOF : Z := -1.

Definition int_of_char (c : ascii) : Z := Z.of_nat (nat_of_ascii c).

Definition in_range (lo hi z : Z) : bool := (lo <=? z) && (z <=? hi).

(** <cctype>, "C" locale. *)
Definition isspace (c : Z) : bool := (c =? 32) || in_range 9 13 c.
Definition isdigit (c : Z) : bool := in_range 48 57 c.
Definition isalpha (c : Z) : bool := in_range 65 90 c || in_range 97 122 c.
Definition isalnum (c : Z) : bool := isalpha c || isdigit c.

(** ** Tokens (lines 8-46) *)

Record Location := mkLocation {
  file_path : string;
  row : Z;
  col : Z
}.

Inductive TokenType :=
| IDENTITY
| OPEN_PAREN
| CLOSE_PAREN
| OPEN_CURLY
| CLOSE_CURLY
| SEMICOLON
| NUMBER
| STRING
| RETURN.

(** [token_type_map], an [unordered_map<char, TokenType>] with five keys:
    ( ) { } and ; *)
Definition token_type_map : list (Z * TokenType) :=
  [ (40, OPEN_PAREN); (41, CLOSE_PAREN);
    (123, OPEN_CURLY); (125, CLOSE_CURLY);
    (59, SEMICOLON) ].

Fixpoint map_find (key : Z) (m : list (Z * TokenType)) : option TokenType :=
  match m with
  | [] => None
  | (k, v) :: m' => if k =? key then Some v else map_find key m'
  end.

Definition is_in_token_map (key : Z) : bool :=
  match map_find key token_type_map with Some _ => true | None => false end.

Record Token := mkToken {
  type : TokenType;
  text : option string;
  number : option Z;
  location : Location
}.

(** ** std::ifstream *)

Record ifstream := mkStream {
  bytes : list ascii;   (* the contents of the opened file *)
  gptr : nat;           (* the get position *)
  eofbit : bool;
  failbit : bool
}.

Definition good (s : ifstream) : bool := negb (eofbit s) && negb (failbit s).

Definition setstate (eof fail : bool) (s : ifstream) : ifstream :=
  mkStream (bytes s) (gptr s) (eofbit s || eof) (failbit s || fail).

(** The sentry every input function constructs (noskipws): it reports
    whether the stream is good, and sets [failbit] when it is not. *)
Definition sentry (s : ifstream) : bool * ifstream :=
  if good s then (true, s) else (false, setstate false true s).

(** [rdbuf()->sgetc()]: the byte at the get position, or [EOF]. *)
Definition sgetc (s : ifstream) : Z :=
  match nth_error (bytes s) (gptr s) with
  | Some c => int_of_char c
  | None => EOF
  end.

Definition gbump (s : ifstream) : ifstream :=
  mkStream (bytes s) (S (gptr s)) (eofbit s) (failbit s).

(** [peek()]: reads without extracting; [eofbit] at the end of the file. *)
Definition peek (s : ifstream) : Z * ifstream :=
  let (ok, s1) := sentry s in
  if ok then
    let c := sgetc s1 in
    if c =? EOF then (EOF, setstate true false s1) else (c, s1)
  else (EOF, s1).

(** [get()]: extracts one byte; [eofbit | failbit] when there is none. *)
Definition get (s : ifstream) : Z * ifstream :=
  let (ok, s1) := sentry s in
  if ok then
    let c := sgetc s1 in
    if c =? EOF then (EOF, setstate true true s1) else (c, gbump s1)
  else (EOF, setstate false true s1).

(** [tellg()]: the get position, or -1 when the sentry fails. *)
Definition tellg (s : ifstream) : Z * ifstream :=
  let (ok, s1) := sentry s in
  if ok then (Z.of_nat (gptr s1), s1) else (-1, s1).

(** [seekg(pos)]: clears [eofbit] first, then seeks if the sentry
    succeeds; seeking to a negative offset fails. *)
Definition seekg (pos : Z) (s : ifstream) : ifstream :=
  let s0 := mkStream (bytes s) (gptr s) false (failbit s) in
  let (ok, s1) := sentry s0 in
  if ok then
    if pos <? 0 then setstate false true s1
    else mkStream (bytes s1) (Z.to_nat pos) (eofbit s1) (failbit s1)
  else s1.

(** The extraction loop of [get(buf, n, delim)]: at most [k] bytes are
    stored, stopping before [delim] and at the end of the file. *)
Fixpoint extract (k : nat) (delim : Z) (s : ifstream) : list ascii * ifstream :=
  match k with
  | O => ([], s)
  | S k' =>
      match nth_error (bytes s) (gptr s) with
      | Some c =>
          if int_of_char c =? delim then ([], s)
          else let (cs, s') := extract k' delim (gbump s) in (c :: cs, s')
      | None => ([], s)
      end
  end.

(** [get(buf, n, delim)].  The result is what was stored in [buf] and
    whether a terminating NUL was written after it (only when [n > 0]);
    [failbit] is set when nothing was stored. *)
Definition get_buf (n : Z) (delim : Z) (s : ifstream)
  : (list ascii * bool) * ifstream :=
  let (ok, s1) := sentry s in
  if ok then
    let (cs, s2) := extract (Z.to_nat (n - 1)) delim s1 in
    let s3 := if sgetc s2 =? EOF then setstate true false s2 else s2 in
    let s4 := match cs with [] => setstate false true s3 | _ => s3 end in
    ((cs, 0 <? n), s4)
  else (([], 0 <? n), setstate false true s1).

(** ** The Lexer object and the monad its member functions run in *)

Record Lexer := mkLexer {
  source_path : string;
  source : ifstream;
  line_begin : Z;
  lrow : Z              (* the member [row]; [row] is Location's here *)
}.

(** How a run can end other than by returning. *)
Inductive Fault :=
| AssertNotImplemented   (* assert(false && "Not implemented"), line 155 *)
| BadArrayNewLength      (* new char[k] with k < 0 throws; nothing catches *)
| OutOfRange             (* token_type_map.at on a missing key *)
| UndefinedBehaviour     (* int overflow, or a buffer read before it was
                            written or written past its end *)
| LoopFuel.              (* the model's loop bound was reached *)

Inductive Result (A : Type) :=
| Ok (a : A)
| Err (f : Fault).
Arguments Ok {A} a.
Arguments Err {A} f.

Definition M (A : Type) : Type := Lexer -> Result (A * Lexer).

Definition ret {A} (a : A) : M A := fun lx => Ok (a, lx).

Definition bind {A B} (m : M A) (k : A -> M B) : M B :=
  fun lx => match m lx with
            | Ok (a, lx') => k a lx'
            | Err f => Err f
            end.

Definition fault {A} (f : Fault) : M A := fun _ => Err f.

Notation "x <- m ;; k" := (bind m (fun x => k))
  (at level 61, m at next level, right associativity).
Notation "m ;; k" := (bind m (fun _ => k))
  (at level 61, right associativity).

(** A member function of the stream, run on the [source] field. *)
Definition io {A} (f : ifstream -> A * ifstream) : M A :=
  fun lx => let (a, s) := f (source lx) in
            Ok (a, mkLexer (source_path lx) s (line_begin lx) (lrow lx)).

Definition io_ (f : ifstream -> ifstream) : M unit :=
  io (fun s => (tt, f s)).

Definition source_good : M bool := fun lx => Ok (good (source lx), lx).
Definition get_row : M Z := fun lx => Ok (lrow lx, lx).
Definition get_line_begin : M Z := fun lx => Ok (line_begin lx, lx).
Definition get_source_path : M string := fun lx => Ok (source_path lx, lx).
Definition set_line_begin (z : Z) : M unit :=
  fun lx => Ok (tt, mkLexer (source_path lx) (source lx) z (lrow lx)).
Definition set_row (z : Z) : M unit :=
  fun lx => Ok (tt, mkLexer (source_path lx) (source lx) (line_begin lx) z).

(** The result of an [int] operation. *)
Definition int_arith (z : Z) : M Z :=
  if in_int z then ret z else fault UndefinedBehaviour.

(** [a && b] with its short circuit. *)
Definition and_then (a b : M bool) : M bool :=
  x <- a ;; if x then b else ret false.

(** [while (cond) body], bounded by [fuel] iterations. *)
Fixpoint while_loop (fuel : nat) (cond : M bool) (body : M unit) : M unit :=
  match fuel with
  | O => fault LoopFuel
  | S fuel' =>
      b <- cond ;;
      if b then body ;; while_loop fuel' cond body else ret tt
  end.

(** Every loop of the lexer stops within two iterations of the end of the
    file, so this bound is never reached (see [next_token_fuel]). *)
Definition while_ (cond : M bool) (body : M unit) : M unit :=
  fun lx => while_loop (List.length (bytes (source lx)) + 2) cond body lx.

(** ** Lexer's private member functions (lines 54-71) *)

Definition NL : Z := 10.

Definition chop_char : M unit :=
  b <- and_then source_good (c <- io get ;; ret (c =? NL)) ;;
  if b then
    p <- io tellg ;;
    lb <- int_arith (static_cast_int p + 1) ;;
    set_line_begin lb ;;
    r <- get_row ;;
    r' <- int_arith (r + 1) ;;
    set_row r'
  else ret tt.

Definition trim_left : M unit :=
  while_ (and_then source_good (c <- io peek ;; ret (isspace c))) chop_char.

Definition drop_line : M unit :=
  while_ (and_then source_good (c <- io peek ;; ret (negb (c =? NL))))
         chop_char ;;
  g <- source_good ;;
  if g then chop_char else ret tt.

(** ** Materialising a token's text (lines 101-110, 123-132, 141-150) *)

(** [std::string(buf)] and [std::atoi(buf)] read [buf], an array of
    [size] bytes, up to its terminating NUL.  When [get(buf, n, 0)] wrote
    nothing into the fresh array there is none, and the read is undefined
    behaviour; so is a write past the end of the array. *)
Definition c_str (size : Z) (b : list ascii * bool) : M (list ascii) :=
  let (cs, terminated) := b in
  if terminated then
    if Z.of_nat (List.length cs) <? size then ret cs
    else fault UndefinedBehaviour
  else fault UndefinedBehaviour.

(** [new char[static_cast<int>(n) + 1]] followed by
    [source.get(buf, n, 0)]: the bytes of [buf] as a C string. *)
Definition read_back (n : Z) : M (list ascii) :=
  size <- int_arith (static_cast_int n + 1) ;;
  if size <? 0 then fault BadArrayNewLength
  else b <- io (get_buf n 0) ;; c_str size b.

Fixpoint skip_spaces (s : list ascii) : list ascii :=
  match s with
  | c :: s' => if isspace (int_of_char c) then skip_spaces s' else s
  | [] => []
  end.

Fixpoint digits_value (acc : Z) (s : list ascii) : Z :=
  match s with
  | c :: s' =>
      if isdigit (int_of_char c)
      then digits_value (10 * acc + (int_of_char c - 48)) s'
      else acc
  | [] => acc
  end.

(** [std::atoi]: optional white space, optional sign, decimal digits; a
    value that does not fit [int] is undefined behaviour. *)
Definition atoi (s : list ascii) : M Z :=
  let s1 := skip_spaces s in
  let v := match s1 with
           | c :: s2 =>
               if int_of_char c =? 45 then - digits_value 0 s2
               else if int_of_char c =? 43 then digits_value 0 s2
               else digits_value 0 s1
           | [] => 0
           end in
  int_arith v.

(** ** Lexer::next_token (lines 81-156) *)

Definition QUOTE : Z := 34.
Definition HASH : Z := 35.

(** Lines 97-112. *)
Definition lex_identity (loc : Location) : M Token :=
  start <- io tellg ;;
  while_ (and_then source_good (c <- io peek ;; ret (isalnum c))) chop_char ;;
  e <- io tellg ;;
  let n := e - start + 1 in
  io_ (seekg start) ;;
  buf <- read_back n ;;
  ret (mkToken IDENTITY (Some (string_of_list_ascii buf)) None loc).

(** Lines 114-117. *)
Definition lex_punct (c : Z) (loc : Location) : M Token :=
  chop_char ;;
  match map_find c token_type_map with
  | Some ty => ret (mkToken ty None None loc)
  | None => fault OutOfRange
  end.

(** Lines 119-134. *)
Definition lex_number (loc : Location) : M Token :=
  start <- io tellg ;;
  while_ (and_then source_good (c <- io peek ;; ret (isdigit c))) chop_char ;;
  e <- io tellg ;;
  let n := e - start + 1 in
  io_ (seekg start) ;;
  buf <- read_back n ;;
  v <- atoi buf ;;
  ret (mkToken NUMBER None (Some v) loc).

(** Lines 136-153. *)
Definition lex_string (loc : Location) : M Token :=
  chop_char ;;
  start <- io tellg ;;
  while_ (and_then source_good (c <- io peek ;; ret (negb (c =? QUOTE))))
         chop_char ;;
  e <- io tellg ;;
  let n := e - start + 1 in
  io_ (seekg start) ;;
  buf <- read_back n ;;
  chop_char ;;
  ret (mkToken STRING (Some (string_of_list_ascii buf)) None loc).

(** Lines 82-87: white space and comments before a token. *)
Definition skip_blank : M unit :=
  trim_left ;;
  while_ (and_then source_good (c <- io peek ;; ret (c =? HASH)))
         (drop_line ;; trim_left).

(** Lines 92-93. *)
Definition current_location : M Location :=
  path <- get_source_path ;;
  r <- get_row ;;
  p <- io tellg ;;
  lb <- get_line_begin ;;
  c <- int_arith (static_cast_int p - lb) ;;
  ret (mkLocation path r c).

(** [None] is the empty [std::optional<Token>]. *)
Definition next_token : M (option Token) :=
  skip_blank ;;
  g <- source_good ;;
  if negb g then ret None
  else
    loc <- current_location ;;
    i <- io peek ;;
    let c := static_cast_char i in
    if isalpha c then t <- lex_identity loc ;; ret (Some t)
    else if is_in_token_map c then t <- lex_punct c loc ;; ret (Some t)
    else if isdigit c then t <- lex_number loc ;; ret (Some t)
    else if c =? QUOTE then t <- lex_string loc ;; ret (Some t)
    else fault AssertNotImplemented.

(** ** The constructor and the driver loop of main (lines 74-77, 183-197) *)

(** [file] is what [source.open(source_path)] finds: the contents of the
    file, or [None] when it cannot be opened, which sets [failbit]. *)
Definition Lexer_new (path : string) (file : option (list ascii)) : Lexer :=
  match file with
  | Some contents => mkLexer path (mkStream contents 0 false false) 0 0
  | None => mkLexer path (mkStream [] 0 false true) 0 0
  end.

Definition Lexer_good (lx : Lexer) : bool := good (source lx).

Inductive Ending :=
| Finished            (* next_token returned the empty optional *)
| Faulted (f : Fault) (* the process was terminated *)
| MoreCalls.          (* the bound on the number of calls was reached *)

(** The loop of main: the tokens handed to [output_token], in order, and
    how the loop ended. *)
Fixpoint scan (calls : nat) (lx : Lexer) : list Token * Ending :=
  match calls with
  | O => ([], MoreCalls)
  | S calls' =>
      match next_token lx with
      | Ok (Some t, lx') =>
          let (ts, e) := scan calls' lx' in (t :: ts, e)
      | Ok (None, _) => ([], Finished)
      | Err f => ([], Faulted f)
      end
  end.

(** One call per byte and two more always suffice (see [scan_finishes]). *)
Definition scan_all (lx : Lexer) : list Token * Ending :=
  scan (List.length (bytes (source lx)) + 2) lx.

(** main, after the check of argc: [None] is the exit with the usage
    message when the file could not be opened. *)
Definition run (path : string) (file : option (list ascii))
  : option (list Token * Ending) :=
  let lexer := Lexer_new path file in
  if Lexer_good lexer then Some (scan_all lexer) else None.

(** ** Notions used in the statements *)

(** The facts about one stream operation that the lexer relies on: the
    file is never changed, [failbit] is never cleared, the get position
    stays inside the file. *)
Record stream_step (s s' : ifstream) : Prop := {
  ss_bytes : bytes s' = bytes s;
  ss_fail : failbit s = true -> failbit s' = true;
  ss_wf : (gptr s <= List.length (bytes s))%nat ->
          (gptr s' <= List.length (bytes s'))%nat
}.

Definition pos (lx : Lexer) : nat := gptr (source lx).

Definition wf (lx : Lexer) : Prop :=
  (gptr (source lx) <= List.length (bytes (source lx)))%nat.

(** [keeps a b]: [b] comes after [a] in a run.  The file and its path are
    the same, [failbit] has not been cleared, the row has not decreased,
    and on the same row the line begins at the same offset. *)
Record keeps (a b : Lexer) : Prop := {
  k_bytes : bytes (source b) = bytes (source a);
  k_path : source_path b = source_path a;
  k_fail : failbit (source a) = true -> failbit (source b) = true;
  k_row : lrow a <= lrow b;
  k_lb : lrow a = lrow b -> line_begin a = line_begin b
}.

(** [fwd a b]: moreover the get position has not moved back. *)
Record fwd (a b : Lexer) : Prop := {
  f_keeps : keeps a b;
  f_pos : (pos a <= pos b)%nat;
  f_wf : wf a -> wf b
}.

(** What every branch guarantees: it [keeps] the lexer, and when the
    stream is still good afterwards the get position has moved on. *)
Definition branch_post (lx lx' : Lexer) : Prop :=
  keeps lx lx' /\ wf lx' /\
  (Lexer_good lx' = true -> (pos lx < pos lx')%nat).

Definition is_punct (ty : TokenType) : bool :=
  match ty with
  | OPEN_PAREN | CLOSE_PAREN | OPEN_CURLY | CLOSE_CURLY | SEMICOLON => true
  | _ => false
  end.

(** What a returned token looks like. *)
Definition token_shape (loc : Location) (t : Token) : Prop :=
  (exists s, t = mkToken IDENTITY (Some s) None loc) \/
  (exists s, t = mkToken STRING (Some s) None loc) \/
  (exists v, t = mkToken NUMBER None (Some v) loc) \/
  (exists ty, is_punct ty = true /\ t = mkToken ty None None loc).




Definition DQ : ascii := "034"%char.
Definition LF : ascii := "010"%char.

(** The bytes of a file, from a string literal. *)
Definition file (s : string) : list ascii := list_ascii_of_string s.

Definition token_at (ty : TokenType) (tx : option string) (nm : option Z)
           (path : string) (r c : Z) : Token :=
  mkToken ty tx nm (mkLocation path r c).

(** [n] further calls of [next_token]: what each returned, and the lexer
    after the last one. *)
Fixpoint call_again (n : nat) (lx : Lexer)
  : Result (list (option Token) * Lexer) :=
  match n with
  | O => Ok ([], lx)
  | S n' =>
      match next_token lx with
      | Ok (r, lx') =>
          match call_again n' lx' with
          | Ok (rs, lx'') => Ok (r :: rs, lx'')
          | Err f => Err f
          end
      | Err f => Err f
      end
  end.



(** The number of iterations a loop of the lexer can still make: one
    per remaining byte and two more on a good stream, one on a stream
    that is not good. *)
Definition stream_left (s : ifstream) : nat :=
  if good s then (List.length (bytes s) - gptr s + 2)%nat else 1%nat.

Definition left (lx : Lexer) : nat := stream_left (source lx).

(** [m] never stops on the loop bound. *)
Definition bounded {A} (m : M A) : Prop := forall lx, m lx <> Err LoopFuel.

(** The same lexer and the same token, under another path. *)
Definition with_path (q : string) (lx : Lexer) : Lexer :=
  mkLexer q (source lx) (line_begin lx) (lrow lx).

Definition relocate (q : string) (loc : Location) : Location :=
  mkLocation q (row loc) (col loc).

Definition retarget (q : string) (t : Token) : Token :=
  mkToken (type t) (text t) (number t) (relocate q (location t)).

(** [m2] under the path [q] does what [m1] does, with the result seen
    through [f]. *)
Definition follows {A B} (q : string) (f : A -> B) (m1 : M A) (m2 : M B)
  : Prop :=
  forall lx,
    m2 (with_path q lx)
    = match m1 lx with
      | Ok (a, lx') => Ok (f a, with_path q lx')
      | Err e => Err e
      end.

(** A lexer on a good stream, at offset [k] of the bytes [bs]. *)
Definition lexer_at (path : string) (bs : list ascii) (k : nat) (lb r : Z)
  : Lexer :=
  mkLexer path (mkStream bs k false false) lb r.

(** ** Printing the tokens (lines 26-29, 161-174) and main (lines 176-198) *)

Definition token_type_names : list string :=
  [ "IDENTITY"; "OPEN_PAREN"; "CLOSE_PAREN"; "OPEN_CURLY"; "CLOSE_CURLY";
    "SEMICOLON"; "NUMBER"; "STRING"; "RETURN" ]%string.

(** [static_cast<int>(type)]: the enumerators count from 0. *)
Definition TokenType_to_int (ty : TokenType) : Z :=
  match ty with
  | IDENTITY => 0
  | OPEN_PAREN => 1
  | CLOSE_PAREN => 2
  | OPEN_CURLY => 3
  | CLOSE_CURLY => 4
  | SEMICOLON => 5
  | NUMBER => 6
  | STRING => 7
  | RETURN => 8
  end.

(** [token_type_names[i]]; an index outside the array is undefined
    behaviour. *)
Definition token_type_name (i : Z) : option string :=
  if i <? 0 then None else nth_error token_type_names (Z.to_nat i).

(** [std::cout << i] for an [int]: its decimal digits, after a minus sign
    when it is negative. *)
Definition print_int (i : Z) : string := NilZero.string_of_int (Z.to_int i).

Definition quoted (s : string) : string :=
  (String DQ EmptyString ++ s ++ String DQ EmptyString)%string.

(** What one call of [output_token] writes to [std::cout], up to and
    including the [std::endl]. *)
Definition output_token (token : Token) : Result string :=
  if in_int (row (location token) + 1) then
    if in_int (col (location token) + 1) then
      match token_type_name (TokenType_to_int (type token)) with
      | Some name =>
          Ok (file_path (location token) ++ ":"
              ++ print_int (row (location token) + 1) ++ ":"
              ++ print_int (col (location token) + 1) ++ " ("
              ++ name
              ++ match text token with
                 | Some s =>
                     match type token with
                     | STRING => ", " ++ quoted s
                     | _ => ", " ++ s
                     end
                 | None => EmptyString
                 end
              ++ match number token with
                 | Some n => ", " ++ print_int n
                 | None => EmptyString
                 end
              ++ ")" ++ String LF EmptyString)%string
      | None => Err UndefinedBehaviour
      end
    else Err UndefinedBehaviour
  else Err UndefinedBehaviour.

(** How the process ends. *)
Inductive Exit :=
| Returned (code : Z)     (* main returned *)
| Terminated (f : Fault). (* the process was terminated *)

(** The loop of lines 192-195, entered with the result of a call of
    [next_token]; [out] is what was written to [std::cout] so far, one
    element for each [std::endl].  [calls] bounds the further calls of
    [next_token]. *)
Fixpoint main_loop (calls : nat) (token : option Token) (lexer : Lexer)
         (out : list string) : list string * Exit :=
  match token with
  | None => (out, Returned 0)
  | Some t =>
      match output_token t with
      | Err f => (out, Terminated f)
      | Ok line =>
          match calls with
          | O => (out ++ [line], Terminated LoopFuel)
          | S calls' =>
              match next_token lexer with
              | Ok (token', lexer') =>
                  main_loop calls' token' lexer' (out ++ [line])
              | Err f => (out ++ [line], Terminated f)
              end
          end
      end
  end.

Definition usage (argv0 : string) : string :=
  ("Usage: " ++ argv0 ++ " <source.vcl>" ++ String LF EmptyString)%string.

(** main, for [argv[0]] and the further arguments (so [argc] is one more
    than the length of [args]); [file] is what opening [argv[1]] finds. *)
Definition main (argv0 : string) (args : list string)
           (file : option (list ascii)) : list string * Exit :=
  match args with
  | [] =>
      ([usage argv0;
        ("No source file is provided." ++ String LF EmptyString)%string],
       Returned 1)
  | argv1 :: _ =>
      let lexer := Lexer_new argv1 file in
      if negb (Lexer_good lexer) then
        ([usage argv0;
          ("Source file " ++ argv1 ++ " may not exist."
           ++ String LF EmptyString)%string],
         Returned 1)
      else
        match next_token lexer with
        | Ok (token, lexer') =>
            main_loop (List.length (bytes (source lexer)) + 1) token lexer' []
        | Err f => ([], Terminated f)
        end
  end.

(** ** Notions used in the statements about single calls and whole scans *)

(** The lexer's [line_begin] and [row] after [chop_char] has consumed the
    bytes [w], the first of them at offset [k]. *)
Fixpoint line_begin_after (w : list ascii) (k : nat) (lb : Z) : Z :=
  match w with
  | [] => lb
  | c :: w' =>
      line_begin_after w' (S k)
        (if int_of_char c =? NL then Z.of_nat k + 2 else lb)
  end.

Fixpoint row_after (w : list ascii) (r : Z) : Z :=
  match w with
  | [] => r
  | c :: w' => row_after w' (if int_of_char c =? NL then r + 1 else r)
  end.

(** The lexer at the end of the file, after a [peek()] there. *)
Definition lexer_at_eof (path : string) (bs : list ascii) (lb r : Z) : Lexer :=
  mkLexer path (mkStream bs (List.length bs) true false) lb r.

(** The lexer when the loops have reached offset [k]: on a byte, or at
    the end of the file. *)
Definition lexer_after (path : string) (bs : list ascii) (k : nat) (lb r : Z)
  : Lexer :=
  if (k <? List.length bs)%nat then lexer_at path bs k lb r
  else lexer_at_eof path bs lb r.

(** The longest prefix of [l] whose bytes satisfy [P]. *)
Fixpoint span (P : Z -> bool) (l : list ascii) : list ascii :=
  match l with
  | c :: l' => if P (int_of_char c) then c :: span P l' else []
  | [] => []
  end.

(** The length of the white space and comments that [l] starts with;
    [in_comment] tells whether [l] starts inside a comment. *)
Fixpoint blank_len (in_comment : bool) (l : list ascii) : nat :=
  match l with
  | [] => O
  | c :: l' =>
      if in_comment then S (blank_len (negb (int_of_char c =? NL)) l')
      else if isspace (int_of_char c) then S (blank_len false l')
      else if int_of_char c =? HASH then S (blank_len true l')
      else O
  end.

(** The bytes of [l] up to its first newline, which is included. *)
Fixpoint line_of (l : list ascii) : list ascii :=
  match l with
  | c :: l' => if int_of_char c =? NL then [c] else c :: line_of l'
  | [] => []
  end.

(** Files whose offsets, and the offsets plus 2, fit [int]. *)
Definition fits_int (bs : list ascii) : Prop :=
  Z.of_nat (List.length bs) < 2 ^ 31 - 1.

(** The lexer on a stream in which [get(buf, n, 0)] stored nothing. *)
Definition lexer_failed (path : string) (bs : list ascii) (k : nat) (lb r : Z)
  : Lexer :=
  mkLexer path (mkStream bs k false true) lb r.

Definition not_byte (d : Z) (x : Z) : bool := negb (x =? d).

(** The row and the line begin that the newlines among the first [j]
    bytes of a file give. *)
Definition row_at (bs : list ascii) (j : nat) : Z :=
  row_after (firstn j bs) 0.

Definition line_begin_at (bs : list ascii) (j : nat) : Z :=
  line_begin_after (firstn j bs) 0 0.

(** The lexer at offset [j] when it has consumed every byte before it
    once. *)
Definition tracked (path : string) (bs : list ascii) (j : nat) : Lexer :=
  lexer_at path bs j (line_begin_at bs j) (row_at bs j).

(** The token that starts with the byte [c] at offset [j], if one does. *)
Definition token_of (path : string) (bs : list ascii) (j : nat) (c : ascii)
  : option Token :=
  let x := static_cast_char (int_of_char c) in
  let loc := mkLocation path (row_at bs j) (Z.of_nat j - line_begin_at bs j) in
  if isalpha x then
    Some (mkToken IDENTITY
            (Some (string_of_list_ascii (span isalnum (skipn j bs)))) None loc)
  else
    match map_find x token_type_map with
    | Some ty => Some (mkToken ty None None loc)
    | None =>
        if isdigit x then
          Some (mkToken NUMBER None
                  (Some (digits_value 0 (span isdigit (skipn j bs)))) loc)
        else if x =? QUOTE then
          Some (mkToken STRING
                  (Some (string_of_list_ascii
                           (span (not_byte QUOTE) (skipn (S j) bs))))
                  None loc)
        else None
    end.

(** Offsets in increasing order, none below [lo]. *)
Fixpoint ascending (lo : nat) (js : list nat) : Prop :=
  match js with
  | [] => True
  | j :: js' => (lo <= j)%nat /\ ascending (S j) js'
  end.

Definition nul_free (bs : list ascii) : Prop :=
  Forall (fun a => not_byte 0 (int_of_char a) = true) bs.

(** [t] is the token that starts at offset [j] of the file. *)
Definition starts_at (path : string) (bs : list ascii) (j : nat) (t : Token)
  : Prop :=
  exists c, nth_error bs j = Some c /\ token_of path bs j c = Some t.

(** How main ends after a scan. *)
Definition exit_of (e : Ending) : Exit :=
  match e with
  | Finished => Returned 0
  | Faulted f => Terminated f
  | MoreCalls => Terminated LoopFuel
  end.

(** ** The text of a token when the array was never written
       (lines 105-108, 127-130, 145-148)

    [std::string(buf)] and [std::atoi(buf)] on an array into which
    [get] stored nothing are undefined behaviour, which the member
    functions above take as the end of the run.  A compiled program
    reads on: it finds the bytes that the fresh array and the memory
    behind it happen to hold, up to the first NUL.  The definitions
    below are the same lines with these bytes, [mem], as a parameter;
    nothing in the source file determines them. *)

Definition c_str_in (mem : list ascii) (size : Z) (b : list ascii * bool)
  : M (list ascii) :=
  let (cs, terminated) := b in
  if terminated then
    if Z.of_nat (List.length cs) <? size then ret cs
    else fault UndefinedBehaviour
  else ret (cs ++ span (not_byte 0) mem).

Definition read_back_in (mem : list ascii) (n : Z) : M (list ascii) :=
  size <- int_arith (static_cast_int n + 1) ;;
  if size <? 0 then fault BadArrayNewLength
  else b <- io (get_buf n 0) ;; c_str_in mem size b.

(** Lines 97-112. *)
Definition lex_identity_in (mem : list ascii) (loc : Location) : M Token :=
  start <- io tellg ;;
  while_ (and_then source_good (c <- io peek ;; ret (isalnum c))) chop_char ;;
  e <- io tellg ;;
  let n := e - start + 1 in
  io_ (seekg start) ;;
  buf <- read_back_in mem n ;;
  ret (mkToken IDENTITY (Some (string_of_list_ascii buf)) None loc).

(** Lines 119-134. *)
Definition lex_number_in (mem : list ascii) (loc : Location) : M Token :=
  start <- io tellg ;;
  while_ (and_then source_good (c <- io peek ;; ret (isdigit c))) chop_char ;;
  e <- io tellg ;;
  let n := e - start + 1 in
  io_ (seekg start) ;;
  buf <- read_back_in mem n ;;
  v <- atoi buf ;;
  ret (mkToken NUMBER None (Some v) loc).

(** Lines 136-153. *)
Definition lex_string_in (mem : list ascii) (loc : Location) : M Token :=
  chop_char ;;
  start <- io tellg ;;
  while_ (and_then source_good (c <- io peek ;; ret (negb (c =? QUOTE))))
         chop_char ;;
  e <- io tellg ;;
  let n := e - start + 1 in
  io_ (seekg start) ;;
  buf <- read_back_in mem n ;;
  chop_char ;;
  ret (mkToken STRING (Some (string_of_list_ascii buf)) None loc).

(** Lines 81-156. *)
Definition next_token_in (mem : list ascii) : M (option Token) :=
  skip_blank ;;
  g <- source_good ;;
  if negb g then ret None
  else
    loc <- current_location ;;
    i <- io peek ;;
    let c := static_cast_char i in
    if isalpha c then t <- lex_identity_in mem loc ;; ret (Some t)
    else if is_in_token_map c then t <- lex_punct c loc ;; ret (Some t)
    else if isdigit c then t <- lex_number_in mem loc ;; ret (Some t)
    else if c =? QUOTE then t <- lex_string_in mem loc ;; ret (Some t)
    else fault AssertNotImplemented.

(** The loop of main, as [scan]. *)
Fixpoint scan_in (mem : list ascii) (calls : nat) (lx : Lexer)
  : list Token * Ending :=
  match calls with
  | O => ([], MoreCalls)
  | S calls' =>
      match next_token_in mem lx with
      | Ok (Some t, lx') =>
          let (ts, e) := scan_in mem calls' lx' in (t :: ts, e)
      | Ok (None, _) => ([], Finished)
      | Err f => ([], Faulted f)
      end
  end.

Definition scan_all_in (mem : list ascii) (lx : Lexer) : list Token * Ending :=
  scan_in mem (List.length (bytes (source lx)) + 2) lx.

(** [m'] does what [m] does, wherever [m] does not end in undefined
    behaviour. *)
Definition agrees {A} (m m' : M A) : Prop :=
  forall lx,
    match m lx with
    | Ok r => m' lx = Ok r
    | Err UndefinedBehaviour => True
    | Err f => m' lx = Err f
    end.

(** ** Reasoning about the monad *)

Lemma bind_Ok {A B} (m : M A) (k : A -> M B) lx r :
  bind m k lx = Ok r ->
  exists a lx1, m lx = Ok (a, lx1) /\ k a lx1 = Ok r.
Proof.
  unfold bind. destruct (m lx) as [[a lx1]|f]; [eauto | discriminate].
Qed.

Lemma ret_Ok {A} (a b : A) lx lx' : ret a lx = Ok (b, lx') -> b = a /\ lx' = lx.
Proof. unfold ret. intros H. inversion H. auto. Qed.

Lemma int_arith_Ok z v lx lx' :
  int_arith z lx = Ok (v, lx') -> v = z /\ lx' = lx /\ INT_MIN <= z <= INT_MAX.
Proof.
  unfold int_arith, in_int. intros H.
  destruct (INT_MIN <=? z) eqn:E1; destruct (z <=? INT_MAX) eqn:E2;
    simpl in H; try discriminate.
  apply ret_Ok in H. apply Z.leb_le in E1, E2. tauto.
Qed.

(** [mstep H] splits a run [bind m k lx = Ok r] into the run of [m] and
    the run of [k]; [mret H] ends a run of [ret]. *)
Tactic Notation "mstep" hyp(H) :=
  let a := fresh "a" in let lx1 := fresh "lx" in let H1 := fresh "H" in
  apply bind_Ok in H; destruct H as (a & lx1 & H1 & H).

Tactic Notation "mstep" hyp(H) "as" ident(a) ident(l) ident(H1) :=
  apply bind_Ok in H; destruct H as (a & l & H1 & H).

Ltac mret H :=
  apply ret_Ok in H; destruct H; subst.

(** An invariant of a loop holds when the loop returns. *)
Lemma while_loop_inv (I : Lexer -> Prop) (cond : M bool) (body : M unit) :
  (forall lx b lx1, I lx -> cond lx = Ok (b, lx1) -> I lx1) ->
  (forall lx u lx1, I lx -> body lx = Ok (u, lx1) -> I lx1) ->
  forall fuel lx u lx',
    I lx -> while_loop fuel cond body lx = Ok (u, lx') -> I lx'.
Proof.
  intros Hc Hb. induction fuel as [|fuel IH]; intros lx u lx' HI H; simpl in H.
  - discriminate.
  - mstep H. destruct a.
    + mstep H. eapply IH; [|exact H]. eauto.
    + mret H. eauto.
Qed.

Lemma while_inv (I : Lexer -> Prop) (cond : M bool) (body : M unit) :
  (forall lx b lx1, I lx -> cond lx = Ok (b, lx1) -> I lx1) ->
  (forall lx u lx1, I lx -> body lx = Ok (u, lx1) -> I lx1) ->
  forall lx u lx', I lx -> while_ cond body lx = Ok (u, lx') -> I lx'.
Proof.
  intros Hc Hb lx u lx' HI H. unfold while_ in H.
  eapply while_loop_inv; eauto.
Qed.

(** ** A stream that is not good *)

Lemma while_loop_not_good fuel (c : M bool) body lx :
  Lexer_good lx = false ->
  while_loop (S fuel) (and_then source_good c) body lx = Ok (tt, lx).
Proof.
  intros Hg. unfold Lexer_good in Hg. simpl.
  unfold and_then, bind, source_good. rewrite Hg. reflexivity.
Qed.

Lemma while_not_good (c : M bool) body lx :
  Lexer_good lx = false ->
  while_ (and_then source_good c) body lx = Ok (tt, lx).
Proof.
  intros Hg. unfold while_. rewrite Nat.add_comm.
  apply (while_loop_not_good _ c body lx Hg).
Qed.

(** On a stream that is not good, [next_token] touches nothing and
    returns the empty optional. *)
Lemma next_token_not_good lx :
  Lexer_good lx = false -> next_token lx = Ok (None, lx).
Proof.
  intros Hg. unfold next_token, skip_blank, trim_left.
  unfold bind at 1. unfold bind at 1.
  rewrite (while_not_good _ _ lx Hg).
  rewrite (while_not_good _ _ lx Hg).
  unfold bind, source_good. unfold Lexer_good in Hg. rewrite Hg. reflexivity.
Qed.

(** The empty optional is returned only from line 90, where the stream
    is not good. *)
Lemma next_token_None lx lx' :
  next_token lx = Ok (None, lx') -> Lexer_good lx' = false.
Proof.
  unfold next_token. intros H.
  mstep H as u1 l1 Hs. mstep H as g lg Hgood.
  unfold source_good in Hgood. inversion Hgood; subst. clear Hgood.
  destruct (good (source lg)) eqn:Hg; simpl in H.
  - mstep H as loc l2 Hloc. mstep H as i l3 Hpeek.
    repeat match type of H with
           | (if ?b then _ else _) _ = _ => destruct b
           end;
      try (mstep H; mret H; discriminate).
    discriminate.
  - apply ret_Ok in H. destruct H as [_ ->]. exact Hg.
Qed.

(** ** What the stream functions change *)

Lemma int_of_char_nonneg c : 0 <= int_of_char c.
Proof. unfold int_of_char. lia. Qed.

Lemma sgetc_EOF s :
  (sgetc s =? EOF) = true <-> nth_error (bytes s) (gptr s) = None.
Proof.
  unfold sgetc, EOF. destruct (nth_error (bytes s) (gptr s)) as [c|].
  - pose proof (int_of_char_nonneg c).
    split; [intros E; apply Z.eqb_eq in E; lia | discriminate].
  - split; reflexivity.
Qed.

Lemma sentry_inv s ok s1 :
  sentry s = (ok, s1) ->
  (ok = true /\ s1 = s /\ good s = true) \/
  (ok = false /\ good s = false /\ bytes s1 = bytes s /\ gptr s1 = gptr s /\
   failbit s1 = true).
Proof.
  unfold sentry. destruct (good s) eqn:G; intros H; inversion H; subst.
  - left. auto.
  - right. simpl. rewrite orb_true_r. auto.
Qed.

(** Closes the side conditions on the state bits. *)
Ltac bits :=
  simpl in *; intros; subst; unfold good in *; simpl in *;
  try match goal with
      | Hf : failbit ?s = true, H0 : context [failbit ?s] |- _ =>
          rewrite Hf in H0; rewrite ?andb_false_r in H0; simpl in H0;
          discriminate
      end;
  repeat match goal with
         | H : bytes _ = _ |- _ => rewrite H
         | H : gptr _ = _ |- _ => rewrite H
         | H : ?x = true |- context [?x] => rewrite H
         | H : ?x = false |- context [?x] => rewrite H
         end;
  rewrite ?orb_true_r, ?orb_true_l, ?orb_false_r, ?andb_false_r;
  simpl; auto; try discriminate; try congruence; try lia.

Lemma peek_inv s c s' :
  peek s = (c, s') ->
  stream_step s s' /\ gptr s' = gptr s /\ (good s' = true -> s' = s).
Proof.
  unfold peek. destruct (sentry s) as [ok s1] eqn:E.
  apply sentry_inv in E.
  destruct E as [(-> & -> & G) | (-> & G & Hb & Hp & Hf)].
  - destruct (sgetc s =? EOF); intros H; inversion H; subst;
      (split; [constructor|split]); bits.
  - intros H; inversion H; subst.
    (split; [constructor|split]); bits.
Qed.

Lemma get_inv s c s' :
  get s = (c, s') ->
  stream_step s s' /\ (gptr s <= gptr s')%nat /\
  (good s' = true -> gptr s' = S (gptr s)).
Proof.
  unfold get. destruct (sentry s) as [ok s1] eqn:E.
  apply sentry_inv in E.
  destruct E as [(-> & -> & G) | (-> & G & Hb & Hp & Hf)].
  - destruct (sgetc s =? EOF) eqn:Ec; intros H; inversion H; subst;
      (split; [constructor|split]); bits.
    apply Nat.lt_nge. intros Hle.
    apply nth_error_None in Hle. apply sgetc_EOF in Hle. congruence.
  - intros H; inversion H; subst.
    (split; [constructor|split]); bits.
Qed.

Lemma tellg_inv s p s' :
  tellg s = (p, s') ->
  stream_step s s' /\ gptr s' = gptr s /\
  (p = -1 \/ p = Z.of_nat (gptr s)) /\
  (failbit s' = false -> p = Z.of_nat (gptr s)) /\
  (good s' = true -> s' = s).
Proof.
  unfold tellg. destruct (sentry s) as [ok s1] eqn:E.
  apply sentry_inv in E.
  destruct E as [(-> & -> & G) | (-> & G & Hb & Hp & Hf)];
    intros H; inversion H; subst;
    (split; [constructor|repeat split]); bits.
Qed.

Lemma seekg_inv p s :
  let s' := seekg p s in
  bytes s' = bytes s /\
  (failbit s = true -> failbit s' = true) /\
  (gptr s' = gptr s \/ (0 <= p /\ gptr s' = Z.to_nat p)) /\
  (failbit s' = false -> 0 <= p /\ gptr s' = Z.to_nat p).
Proof.
  unfold seekg.
  destruct (sentry (mkStream (bytes s) (gptr s) false (failbit s)))
    as [ok s1] eqn:E.
  apply sentry_inv in E. simpl in E.
  destruct E as [(-> & -> & G) | (-> & G & Hb & Hp & Hf)].
  - destruct (p <? 0) eqn:Ep; simpl.
    + repeat split; bits.
    + apply Z.ltb_ge in Ep. repeat split; bits.
  - repeat split; bits.
Qed.

Lemma extract_inv k d : forall s cs s',
  extract k d s = (cs, s') ->
  bytes s' = bytes s /\ eofbit s' = eofbit s /\ failbit s' = failbit s /\
  gptr s' = (gptr s + List.length cs)%nat /\
  ((gptr s <= List.length (bytes s))%nat ->
   (gptr s' <= List.length (bytes s))%nat).
Proof.
  induction k as [|k IH]; intros s cs s' H; simpl in H.
  - inversion H; subst. simpl. repeat split; auto; lia.
  - destruct (nth_error (bytes s) (gptr s)) as [c|] eqn:En.
    + destruct (int_of_char c =? d).
      * inversion H; subst. simpl. repeat split; auto; lia.
      * destruct (extract k d (gbump s)) as [cs0 s0] eqn:E0.
        inversion H; subst. apply IH in E0. simpl in E0.
        destruct E0 as (Hb & He & Hf & Hp & Hw).
        repeat split; auto.
        -- simpl. lia.
        -- intros _. apply Hw. apply Nat.le_succ_l.
           apply nth_error_Some. congruence.
    + inversion H; subst. simpl. repeat split; auto; lia.
Qed.

Lemma get_buf_inv n d s b s' :
  get_buf n d s = (b, s') ->
  stream_step s s' /\ (gptr s <= gptr s')%nat /\
  (failbit s' = false -> (gptr s < gptr s')%nat).
Proof.
  unfold get_buf. destruct (sentry s) as [ok s1] eqn:E.
  apply sentry_inv in E.
  destruct E as [(-> & -> & G) | (-> & G & Hb & Hp & Hf)].
  - destruct (extract (Z.to_nat (n - 1)) d s) as [cs s2] eqn:Ex.
    apply extract_inv in Ex. destruct Ex as (Hb & He & Hf & Hp & Hw).
    intros H. inversion H; subst. clear H.
    assert (Hs3 : forall s3, s3 = (if sgetc s2 =? EOF
                                   then setstate true false s2 else s2) ->
                  bytes s3 = bytes s /\ gptr s3 = gptr s2 /\
                  failbit s3 = failbit s).
    { intros s3 ->. destruct (sgetc s2 =? EOF); simpl;
        rewrite ?orb_false_r; auto. }
    specialize (Hs3 _ eq_refl).
    destruct Hs3 as (Hb3 & Hp3 & Hf3).
    destruct cs as [|c cs]; (split; [constructor|split]); simpl;
      rewrite ?Hb3, ?Hp3, ?Hf3; simpl; intros;
      rewrite ?orb_true_r in *; auto; try discriminate;
      try (simpl in Hp; lia).
  - intros H. inversion H; subst.
    (split; [constructor|split]); bits.
Qed.

(** ** What the lexer's steps change *)

Lemma keeps_refl a : keeps a a.
Proof. constructor; auto; lia. Qed.

Lemma keeps_trans a b c : keeps a b -> keeps b c -> keeps a c.
Proof.
  intros [] []. constructor; try congruence; auto; lia.
Qed.

Lemma fwd_refl a : fwd a a.
Proof. constructor; auto using keeps_refl. Qed.

Lemma fwd_trans a b c : fwd a b -> fwd b c -> fwd a c.
Proof.
  intros [] []. constructor; eauto using keeps_trans. lia.
Qed.

Lemma io_Ok {A} (f : ifstream -> A * ifstream) lx a lx' :
  io f lx = Ok (a, lx') ->
  exists s', f (source lx) = (a, s') /\
             lx' = mkLexer (source_path lx) s' (line_begin lx) (lrow lx).
Proof.
  unfold io. destruct (f (source lx)) as [a0 s0]. intros H.
  inversion H; subst. eauto.
Qed.

Lemma stream_step_fwd lx s' :
  stream_step (source lx) s' -> (gptr (source lx) <= gptr s')%nat ->
  fwd lx (mkLexer (source_path lx) s' (line_begin lx) (lrow lx)).
Proof.
  intros [Hb Hf Hw] Hp. constructor; [constructor| |]; simpl; auto; lia.
Qed.

Lemma io_peek_fwd lx c lx' : io peek lx = Ok (c, lx') -> fwd lx lx'.
Proof.
  intros H. apply io_Ok in H. destruct H as (s' & H & ->).
  apply peek_inv in H. destruct H as (Hs & Hp & _).
  apply stream_step_fwd; auto. lia.
Qed.

Lemma io_tellg_fwd lx p lx' : io tellg lx = Ok (p, lx') -> fwd lx lx'.
Proof.
  intros H. apply io_Ok in H. destruct H as (s' & H & ->).
  apply tellg_inv in H. destruct H as (Hs & Hp & _).
  apply stream_step_fwd; auto. lia.
Qed.

Lemma io_get_fwd lx c lx' : io get lx = Ok (c, lx') -> fwd lx lx'.
Proof.
  intros H. apply io_Ok in H. destruct H as (s' & H & ->).
  apply get_inv in H. destruct H as (Hs & Hp & _).
  apply stream_step_fwd; auto.
Qed.

Lemma io_get_buf_fwd n d lx b lx' :
  io (get_buf n d) lx = Ok (b, lx') -> fwd lx lx'.
Proof.
  intros H. apply io_Ok in H. destruct H as (s' & H & ->).
  apply get_buf_inv in H. destruct H as (Hs & Hp & _).
  apply stream_step_fwd; auto.
Qed.

(** The condition of the lexer's inner loops: [source.good() && P(peek())]. *)
Lemma peek_cond_fwd (P : Z -> bool) lx b lx' :
  and_then source_good (c <- io peek ;; ret (P c)) lx = Ok (b, lx') ->
  fwd lx lx'.
Proof.
  unfold and_then. intros H. mstep H as g lg Hg.
  unfold source_good in Hg. inversion Hg; subst. clear Hg.
  destruct (good (source lg)).
  - mstep H as c l1 Hp. mret H. eapply io_peek_fwd; eauto.
  - mret H. apply fwd_refl.
Qed.

(** What [chop_char] does, case by case. *)
Lemma chop_char_cases lx u lx' :
  chop_char lx = Ok (u, lx') ->
  (Lexer_good lx = false /\ lx' = lx) \/
  (exists c s1,
      Lexer_good lx = true /\ get (source lx) = (c, s1) /\
      (((c =? NL) = false /\
        lx' = mkLexer (source_path lx) s1 (line_begin lx) (lrow lx)) \/
       ((c =? NL) = true /\
        exists p s2,
          tellg s1 = (p, s2) /\
          lx' = mkLexer (source_path lx) s2
                        (static_cast_int p + 1) (lrow lx + 1)))).
Proof.
  unfold chop_char, and_then. intros H.
  mstep H as b la Hc. mstep Hc as g lg Hg.
  unfold source_good in Hg. inversion Hg; subst. clear Hg.
  unfold Lexer_good.
  destruct (good (source lg)) eqn:G.
  - right. mstep Hc as c l1 Hget. mret Hc.
    apply io_Ok in Hget. destruct Hget as (s1 & Hget & ->).
    exists c, s1. split; [reflexivity|]. split; [exact Hget|].
    destruct (c =? NL) eqn:Ec.
    + right. split; [reflexivity|].
      mstep H as p l2 Htell.
      apply io_Ok in Htell. destruct Htell as (s2 & Htell & ->).
      mstep H as lb l3 Hlb.
      apply int_arith_Ok in Hlb. destruct Hlb as (-> & -> & _).
      mstep H as u1 l4 Hset.
      unfold set_line_begin in Hset. inversion Hset; subst. clear Hset.
      mstep H as r l5 Hr.
      unfold get_row in Hr. inversion Hr; subst. clear Hr.
      mstep H as r' l6 Hr'.
      apply int_arith_Ok in Hr'. destruct Hr' as (-> & -> & _).
      unfold set_row in H. inversion H; subst. simpl.
      eauto.
    + left. mret H. auto.
  - left. mret Hc. mret H. auto.
Qed.

Lemma chop_char_fwd lx u lx' : chop_char lx = Ok (u, lx') -> fwd lx lx'.
Proof.
  intros H. apply chop_char_cases in H.
  destruct H as [(_ & ->) | (c & s1 & _ & Hget & H)]; [apply fwd_refl|].
  apply get_inv in Hget. destruct Hget as ([Hb Hf Hw] & Hp & _).
  destruct H as [(_ & ->) | (_ & p & s2 & Htell & ->)].
  - apply stream_step_fwd; [constructor|]; auto.
  - apply tellg_inv in Htell. destruct Htell as ([Hb2 Hf2 Hw2] & Hp2 & _).
    constructor; [constructor| |]; unfold pos, wf; simpl; auto;
      try congruence; try lia.
Qed.

(** When the stream is good after [chop_char], exactly one byte was
    consumed. *)
Lemma chop_char_good lx u lx' :
  chop_char lx = Ok (u, lx') -> Lexer_good lx' = true ->
  pos lx' = S (pos lx).
Proof.
  intros H G. apply chop_char_cases in H.
  destruct H as [(G0 & ->) | (c & s1 & _ & Hget & H)]; [congruence|].
  apply get_inv in Hget. destruct Hget as (_ & _ & Hg).
  destruct H as [(_ & ->) | (_ & p & s2 & Htell & ->)];
    unfold Lexer_good, pos in *; simpl in *.
  - auto.
  - apply tellg_inv in Htell. destruct Htell as (_ & _ & _ & _ & Hs).
    rewrite (Hs G) in *. auto.
    apply Hg. rewrite <- (Hs G). exact G.
Qed.

(** The inner loops only move forward. *)
Lemma chop_while_fwd (P : Z -> bool) lx u lx' :
  while_ (and_then source_good (c <- io peek ;; ret (P c))) chop_char lx
    = Ok (u, lx') ->
  fwd lx lx'.
Proof.
  intros H. eapply (while_inv (fwd lx)); [| |apply fwd_refl|exact H].
  - intros. eapply fwd_trans; eauto using peek_cond_fwd.
  - intros. eapply fwd_trans; eauto using chop_char_fwd.
Qed.

Lemma trim_left_fwd lx u lx' : trim_left lx = Ok (u, lx') -> fwd lx lx'.
Proof. apply (chop_while_fwd isspace). Qed.

Lemma drop_line_fwd lx u lx' : drop_line lx = Ok (u, lx') -> fwd lx lx'.
Proof.
  unfold drop_line. intros H. mstep H as u1 l1 Hw.
  apply (chop_while_fwd (fun c => negb (c =? NL))) in Hw.
  mstep H as g lg Hg. unfold source_good in Hg. inversion Hg; subst. clear Hg.
  destruct (good (source lg)).
  - eapply fwd_trans; eauto using chop_char_fwd.
  - mret H. auto.
Qed.

Lemma skip_blank_fwd lx u lx' : skip_blank lx = Ok (u, lx') -> fwd lx lx'.
Proof.
  unfold skip_blank. intros H. mstep H as u1 l1 Ht.
  apply trim_left_fwd in Ht. eapply fwd_trans; [exact Ht|].
  eapply (while_inv (fwd l1)); [| |apply fwd_refl|exact H].
  - intros la b lb Ha Hb. eapply fwd_trans; [exact Ha|].
    exact (peek_cond_fwd (fun c => c =? HASH) _ _ _ Hb).
  - intros la ? lb Ha Hb. mstep Hb as u2 l2 Hd.
    eapply fwd_trans; [exact Ha|].
    eapply fwd_trans; eauto using drop_line_fwd, trim_left_fwd.
Qed.

(** ** The token branches *)

Lemma good_failbit lx : Lexer_good lx = true -> failbit (source lx) = false.
Proof.
  unfold Lexer_good, good. destruct (failbit (source lx)); auto.
  rewrite andb_false_r. discriminate.
Qed.

Lemma fwd_failbit a b : fwd a b -> failbit (source b) = false ->
  failbit (source a) = false.
Proof.
  intros [[_ _ Hf _ _] _ _] Hb. destruct (failbit (source a)); auto.
  rewrite Hf in Hb; auto.
Qed.

Lemma keeps_failbit a b : keeps a b -> failbit (source b) = false ->
  failbit (source a) = false.
Proof.
  intros [_ _ Hf _ _] Hb. destruct (failbit (source a)); auto.
  rewrite Hf in Hb; auto.
Qed.

Lemma read_back_inv n lx buf lx' :
  read_back n lx = Ok (buf, lx') ->
  fwd lx lx' /\ (failbit (source lx') = false -> (pos lx < pos lx')%nat).
Proof.
  unfold read_back. intros H. mstep H as size l1 Hsz.
  apply int_arith_Ok in Hsz. destruct Hsz as (-> & -> & _).
  destruct (static_cast_int n + 1 <? 0); [discriminate|].
  mstep H as b l2 Hget.
  assert (lx' = l2) as ->.
  { unfold c_str in H. destruct b as [cs []]; [|discriminate].
    destruct (Z.of_nat (List.length cs) <? static_cast_int n + 1);
      [|discriminate].
    apply ret_Ok in H. tauto. }
  split; [eapply io_get_buf_fwd; eauto|].
  apply io_Ok in Hget. destruct Hget as (s' & Hget & ->).
  apply get_buf_inv in Hget. unfold pos. simpl. tauto.
Qed.

(** Lines 98-106 and their two copies: remember the offset, chop the
    run, seek back, read the run again.  [l1 .. l5] are the states in
    between. *)
Lemma rescan_facts lx start l1 l2 e l3 u l4 n buf l5 :
  wf lx ->
  io tellg lx = Ok (start, l1) ->
  fwd l1 l2 ->
  io tellg l2 = Ok (e, l3) ->
  io_ (seekg start) l3 = Ok (u, l4) ->
  read_back n l4 = Ok (buf, l5) ->
  keeps lx l5 /\ wf l5 /\
  (failbit (source l5) = false -> (pos lx < pos l5)%nat).
Proof.
  intros Hwf Ht1 F12 Ht2 Hseek Hrb.
  pose proof (io_tellg_fwd _ _ _ Ht1) as F01.
  pose proof (io_tellg_fwd _ _ _ Ht2) as F23.
  apply read_back_inv in Hrb. destruct Hrb as (F45 & Hadv).
  apply io_Ok in Ht1. destruct Ht1 as (s1 & Ht1 & E1).
  apply tellg_inv in Ht1. destruct Ht1 as (_ & _ & Hstart & Hstart' & _).
  unfold io_ in Hseek.
  apply io_Ok in Hseek. destruct Hseek as (s4 & Hseek & E4).
  injection Hseek as _ Hs4.
  pose proof (seekg_inv start (source l3)) as Hsk. simpl in Hsk.
  rewrite Hs4 in Hsk. destruct Hsk as (Hb4 & Hf4 & Hp4 & Hp4').
  assert (F03 : fwd lx l3) by eauto using fwd_trans.
  assert (K34 : keeps l3 l4).
  { subst l4. constructor; simpl; auto; lia. }
  assert (W4 : wf l4).
  { pose proof (f_wf _ _ F03 Hwf) as W3.
    unfold wf in *. subst l4. simpl. rewrite Hb4.
    destruct Hp4 as [-> | (Hnn & ->)]; [exact W3|].
    destruct Hstart as [-> | ->]; [lia|].
    rewrite Nat2Z.id. rewrite (k_bytes _ _ (f_keeps _ _ F03)). exact Hwf. }
  split; [|split].
  - eapply keeps_trans; [apply F03|].
    eapply keeps_trans; [exact K34|apply F45].
  - apply F45. exact W4.
  - intros Hf5.
    pose proof (fwd_failbit _ _ F45 Hf5) as Hf4'.
    pose proof (keeps_failbit _ _ K34 Hf4') as Hf3.
    pose proof (fwd_failbit _ _ (fwd_trans _ _ _ F12 F23) Hf3) as Hf1.
    specialize (Hadv Hf5).
    assert (pos l4 = pos lx); [|lia].
    subst l4 l1. simpl in *. unfold pos. simpl.
    destruct (Hp4' Hf4') as (_ & ->).
    rewrite (Hstart' Hf1). apply Nat2Z.id.
Qed.

Lemma lex_identity_inv loc lx t lx' :
  lex_identity loc lx = Ok (t, lx') ->
  (exists s, t = mkToken IDENTITY (Some s) None loc) /\
  (wf lx -> branch_post lx lx').
Proof.
  unfold lex_identity. intros H.
  mstep H as start l1 Ht1. mstep H as u2 l2 Hloop.
  mstep H as e l3 Ht2. mstep H as u4 l4 Hseek.
  mstep H as buf l5 Hrb. mret H.
  split; [eauto|]. intros Hwf.
  apply (chop_while_fwd isalnum) in Hloop.
  destruct (rescan_facts _ _ _ _ _ _ _ _ _ _ _ Hwf Ht1 Hloop Ht2 Hseek Hrb)
    as (K & W & A).
  split; [exact K|]. split; [exact W|].
  intros G. apply A, good_failbit, G.
Qed.

Lemma lex_number_inv loc lx t lx' :
  lex_number loc lx = Ok (t, lx') ->
  (exists v, t = mkToken NUMBER None (Some v) loc) /\
  (wf lx -> branch_post lx lx').
Proof.
  unfold lex_number. intros H.
  mstep H as start l1 Ht1. mstep H as u2 l2 Hloop.
  mstep H as e l3 Ht2. mstep H as u4 l4 Hseek.
  mstep H as buf l5 Hrb. mstep H as v l6 Hv.
  unfold atoi in Hv. apply int_arith_Ok in Hv. destruct Hv as (_ & -> & _).
  mret H.
  split; [eauto|]. intros Hwf.
  apply (chop_while_fwd isdigit) in Hloop.
  destruct (rescan_facts _ _ _ _ _ _ _ _ _ _ _ Hwf Ht1 Hloop Ht2 Hseek Hrb)
    as (K & W & A).
  split; [exact K|]. split; [exact W|].
  intros G. apply A, good_failbit, G.
Qed.

Lemma lex_string_inv loc lx t lx' :
  lex_string loc lx = Ok (t, lx') ->
  (exists s, t = mkToken STRING (Some s) None loc) /\
  (wf lx -> branch_post lx lx').
Proof.
  unfold lex_string. intros H.
  mstep H as u0 l0 Hc0.
  mstep H as start l1 Ht1. mstep H as u2 l2 Hloop.
  mstep H as e l3 Ht2. mstep H as u4 l4 Hseek.
  mstep H as buf l5 Hrb. mstep H as u6 l6 Hc6. mret H.
  split; [eauto|]. intros Hwf.
  apply chop_char_fwd in Hc0, Hc6.
  apply (chop_while_fwd (fun c => negb (c =? QUOTE))) in Hloop.
  destruct (rescan_facts _ _ _ _ _ _ _ _ _ _ _
              (f_wf _ _ Hc0 Hwf) Ht1 Hloop Ht2 Hseek Hrb)
    as (K & W & A).
  split; [|split].
  - eapply keeps_trans; [apply Hc0|]. eapply keeps_trans; [exact K|apply Hc6].
  - apply Hc6. exact W.
  - intros G. apply good_failbit in G.
    pose proof (fwd_failbit _ _ Hc6 G) as G5. specialize (A G5).
    pose proof (f_pos _ _ Hc0). pose proof (f_pos _ _ Hc6). lia.
Qed.

Lemma map_find_punct c ty :
  map_find c token_type_map = Some ty -> is_punct ty = true.
Proof.
  unfold token_type_map. simpl.
  repeat match goal with
         | |- context [if ?b then _ else _] => destruct b
         end; intros H; inversion H; reflexivity.
Qed.

Lemma lex_punct_inv c loc lx t lx' :
  lex_punct c loc lx = Ok (t, lx') ->
  (exists ty, is_punct ty = true /\ t = mkToken ty None None loc) /\
  (wf lx -> branch_post lx lx').
Proof.
  unfold lex_punct. intros H. mstep H as u0 l0 Hc.
  destruct (map_find c token_type_map) as [ty|] eqn:Em; [|discriminate].
  mret H. split; [eauto using map_find_punct|]. intros Hwf.
  pose proof (chop_char_fwd _ _ _ Hc) as F.
  split; [apply F|]. split; [apply F; exact Hwf|].
  intros G. rewrite (chop_char_good _ _ _ Hc G). lia.
Qed.

(** ** One call of next_token *)

Lemma tellg_good s : good s = true -> tellg s = (Z.of_nat (gptr s), s).
Proof. intros G. unfold tellg, sentry. rewrite G. reflexivity. Qed.

Lemma current_location_good lx loc lx' :
  Lexer_good lx = true ->
  current_location lx = Ok (loc, lx') ->
  fwd lx lx' /\ pos lx' = pos lx /\
  loc = mkLocation (source_path lx) (lrow lx)
                   (static_cast_int (Z.of_nat (pos lx)) - line_begin lx).
Proof.
  unfold current_location, Lexer_good. intros G H.
  mstep H as path l1 Hpath.
  unfold get_source_path in Hpath. inversion Hpath; subst. clear Hpath.
  mstep H as r l2 Hr. unfold get_row in Hr. inversion Hr; subst. clear Hr.
  mstep H as p l3 Ht.
  pose proof (io_tellg_fwd _ _ _ Ht) as F.
  apply io_Ok in Ht. destruct Ht as (s' & Ht & ->).
  rewrite (tellg_good _ G) in Ht. inversion Ht; subst. clear Ht.
  mstep H as lb l4 Hlb.
  unfold get_line_begin in Hlb. inversion Hlb; subst. clear Hlb.
  mstep H as c l5 Hc. apply int_arith_Ok in Hc. destruct Hc as (-> & -> & _).
  mret H. simpl. auto.
Qed.

Lemma branch_post_fwd a b c :
  fwd a b -> wf a -> (wf b -> branch_post b c) -> branch_post a c.
Proof.
  intros F W H. destruct (H (f_wf _ _ F W)) as (K & W' & A).
  split; [|split]; auto.
  - eapply keeps_trans; [apply F|exact K].
  - intros G. specialize (A G). pose proof (f_pos _ _ F). lia.
Qed.

(** A call that returns a token: [mid] is the lexer after the white
    space and the comments in front of the token (line 92). *)
Lemma next_token_Some lx t lx' :
  next_token lx = Ok (Some t, lx') ->
  exists mid,
    fwd lx mid /\ Lexer_good mid = true /\
    token_shape
      (mkLocation (source_path mid) (lrow mid)
                  (static_cast_int (Z.of_nat (pos mid)) - line_begin mid)) t /\
    (wf mid -> branch_post mid lx').
Proof.
  unfold next_token. intros H.
  mstep H as u1 mid Hs. apply skip_blank_fwd in Hs.
  mstep H as g lg Hgood.
  unfold source_good in Hgood. inversion Hgood; subst. clear Hgood.
  destruct (good (source lg)) eqn:G; simpl in H; [|mret H; discriminate].
  exists lg. split; [exact Hs|]. split; [exact G|].
  mstep H as loc l2 Hloc.
  apply (current_location_good _ _ _ G) in Hloc.
  destruct Hloc as (F2 & P2 & ->).
  mstep H as i l3 Hpeek. apply io_peek_fwd in Hpeek.
  assert (F3 : fwd lg l3) by eauto using fwd_trans.
  unfold token_shape.
  repeat match type of H with
         | (if ?b then _ else _) _ = _ => destruct b
         end; try discriminate;
    mstep H as t0 l4 Hb; apply ret_Ok in H; destruct H as (H & ->);
    inversion H; subst; clear H.
  - apply lex_identity_inv in Hb. destruct Hb as (Hsh & Hp).
    split; [tauto|]. intros W. eapply branch_post_fwd; eauto.
  - apply lex_punct_inv in Hb. destruct Hb as (Hsh & Hp).
    split; [tauto|]. intros W. eapply branch_post_fwd; eauto.
  - apply lex_number_inv in Hb. destruct Hb as (Hsh & Hp).
    split; [tauto|]. intros W. eapply branch_post_fwd; eauto.
  - apply lex_string_inv in Hb. destruct Hb as (Hsh & Hp).
    split; [tauto|]. intros W. eapply branch_post_fwd; eauto.
Qed.

(** ** The sequence of tokens of a scan *)


Lemma static_cast_int_small z :
  0 <= z < 2 ^ 31 -> static_cast_int z = z.
Proof.
  intros H. unfold static_cast_int. rewrite Z.mod_small; lia.
Qed.




Lemma call_again_exhausted lx :
  Lexer_good lx = false ->
  forall n, call_again n lx = Ok (repeat None n, lx).
Proof.
  intros G. induction n as [|n IH]; simpl.
  - reflexivity.
  - rewrite (next_token_not_good _ G), IH. reflexivity.
Qed.

(** X16.  No token of type RETURN is ever returned: no branch of
    [next_token] builds one, and the type is not a value of
    [token_type_map]. *)
Lemma next_token_never_RETURN lx t lx' :
  next_token lx = Ok (Some t, lx') -> type t <> RETURN.
Proof.
  intros H. apply next_token_Some in H.
  destruct H as (mid & _ & _ & Sh & _).
  destruct Sh as [(s & ->) | [(s & ->) | [(v & ->) | (ty & P & ->)]]];
    simpl; try discriminate.
  destruct ty; simpl in *; discriminate.
Qed.

Lemma next_token_never_RETURN_witness :
  let lx := Lexer_new "a.vcl" (Some (file "ab1 42;")) in
  let lx' := lexer_at "a.vcl" (file "ab1 42;") 3 0 0 in
  let t := token_at IDENTITY (Some "ab1"%string) None "a.vcl" 0 0 in
  next_token lx = Ok (Some t, lx') /\ type t <> RETURN.
Proof.
  intros lx lx' t.
  assert (H : next_token lx = Ok (Some t, lx')) by (vm_compute; reflexivity).
  split; [exact H|].
  exact (next_token_never_RETURN lx t lx' H).
Defined.

(** ** A punctuation token, for any lexer *)

Lemma int_of_char_not_EOF c : (int_of_char c =? EOF) = false.
Proof.
  apply Z.eqb_neq. pose proof (int_of_char_nonneg c). unfold EOF. lia.
Qed.

Lemma bind_run {A B} (m : M A) (k : A -> M B) lx a lx' :
  m lx = Ok (a, lx') -> bind m k lx = k a lx'.
Proof. intros H. unfold bind. rewrite H. reflexivity. Qed.

Lemma while_loop_S fuel cond body :
  while_loop (S fuel) cond body
  = (b <- cond ;; if b then body ;; while_loop fuel cond body else ret tt).
Proof. reflexivity. Qed.

Section AtByte.
Variables (path : string) (bs : list ascii) (k : nat) (lb r : Z) (c : ascii).
Hypothesis Hbyte : nth_error bs k = Some c.

Lemma peek_cond_at (P : Z -> bool) :
  and_then source_good (x <- io peek ;; ret (P x)) (lexer_at path bs k lb r)
  = Ok (P (int_of_char c), lexer_at path bs k lb r).
Proof.
  unfold and_then, bind, source_good, io, peek, sentry, good, sgetc, lexer_at.
  simpl. rewrite Hbyte, int_of_char_not_EOF. reflexivity.
Qed.

Lemma while_stops_at (P : Z -> bool) body :
  P (int_of_char c) = false ->
  while_ (and_then source_good (x <- io peek ;; ret (P x))) body
         (lexer_at path bs k lb r)
  = Ok (tt, lexer_at path bs k lb r).
Proof.
  intros HP. unfold while_. rewrite Nat.add_comm.
  change (2 + ?n)%nat with (S (S n)). rewrite while_loop_S.
  unfold bind at 1. rewrite peek_cond_at, HP. reflexivity.
Qed.

Lemma chop_char_at :
  (int_of_char c =? NL) = false ->
  chop_char (lexer_at path bs k lb r) = Ok (tt, lexer_at path bs (S k) lb r).
Proof.
  intros HN.
  unfold chop_char, and_then, bind, source_good, io, get, sentry, good,
    sgetc, lexer_at.
  simpl. rewrite Hbyte, int_of_char_not_EOF. simpl. rewrite HN. reflexivity.
Qed.

(** Line 56 for any newline: when the byte at offset [k] is a newline,
    [line_begin] becomes [k + 2] (narrowed to [int]), although the next
    line begins at offset [k + 1]. *)
Lemma chop_char_at_newline :
  (int_of_char c =? NL) = true ->
  in_int (static_cast_int (Z.of_nat (S k)) + 1) = true ->
  in_int (r + 1) = true ->
  chop_char (lexer_at path bs k lb r)
  = Ok (tt, lexer_at path bs (S k)
                     (static_cast_int (Z.of_nat (S k)) + 1) (r + 1)).
Proof.
  intros HN H1 H2.
  assert (Hget : and_then source_good (x <- io get ;; ret (x =? NL))
                          (lexer_at path bs k lb r)
                 = Ok (true, lexer_at path bs (S k) lb r)).
  { unfold and_then, bind, source_good, io, get, sentry, good, sgetc, lexer_at.
    simpl. rewrite Hbyte, int_of_char_not_EOF. simpl. rewrite HN.
    reflexivity. }
  assert (Htell : io tellg (lexer_at path bs (S k) lb r)
                  = Ok (Z.of_nat (S k), lexer_at path bs (S k) lb r))
    by reflexivity.
  unfold chop_char.
  rewrite (bind_run _ _ _ _ _ Hget).
  rewrite (bind_run _ _ _ _ _ Htell).
  unfold bind, int_arith, set_line_begin, get_row, set_row, lexer_at.
  rewrite H1. simpl. rewrite H2. reflexivity.
Qed.

Lemma io_peek_at :
  io peek (lexer_at path bs k lb r)
  = Ok (int_of_char c, lexer_at path bs k lb r).
Proof.
  unfold io, peek, sentry, good, sgetc, lexer_at. simpl.
  rewrite Hbyte, int_of_char_not_EOF. reflexivity.
Qed.

Lemma skip_blank_at :
  isspace (int_of_char c) = false ->
  (int_of_char c =? HASH) = false ->
  skip_blank (lexer_at path bs k lb r) = Ok (tt, lexer_at path bs k lb r).
Proof.
  intros Hsp Hh. unfold skip_blank, trim_left.
  rewrite (bind_run _ _ _ _ _ (while_stops_at isspace _ Hsp)).
  apply (while_stops_at (fun x => x =? HASH) _ Hh).
Qed.

Lemma current_location_at :
  in_int (static_cast_int (Z.of_nat k) - lb) = true ->
  current_location (lexer_at path bs k lb r)
  = Ok (mkLocation path r (static_cast_int (Z.of_nat k) - lb),
        lexer_at path bs k lb r).
Proof.
  intros Hin.
  unfold current_location, bind, get_source_path, get_row, get_line_begin,
    io, tellg, sentry, good, int_arith, lexer_at.
  simpl. rewrite Hin. reflexivity.
Qed.

(** Lines 82-93 and 114-117 when the next byte is a key of
    [token_type_map]. *)
Lemma next_token_punct_at (ty : TokenType) :
  isspace (int_of_char c) = false ->
  (int_of_char c =? HASH) = false ->
  (int_of_char c =? NL) = false ->
  isalpha (static_cast_char (int_of_char c)) = false ->
  map_find (static_cast_char (int_of_char c)) token_type_map = Some ty ->
  in_int (static_cast_int (Z.of_nat k) - lb) = true ->
  next_token (lexer_at path bs k lb r)
  = Ok (Some (mkToken ty None None
                (mkLocation path r (static_cast_int (Z.of_nat k) - lb))),
        lexer_at path bs (S k) lb r).
Proof.
  intros Hsp Hh Hnl Hal Hmap Hin.
  unfold next_token.
  rewrite (bind_run _ _ _ _ _ (skip_blank_at Hsp Hh)).
  rewrite (bind_run source_good _ (lexer_at path bs k lb r) true
                    (lexer_at path bs k lb r) eq_refl).
  cbn [negb].
  rewrite (bind_run _ _ _ _ _ (current_location_at Hin)).
  rewrite (bind_run _ _ _ _ _ io_peek_at).
  rewrite Hal. unfold is_in_token_map. rewrite Hmap.
  unfold lex_punct.
  unfold bind at 1.
  rewrite (bind_run _ _ _ _ _ (chop_char_at Hnl)).
  rewrite Hmap. reflexivity.
Qed.

End AtByte.

(** ** The end of the file *)


(** ** A file of semicolons *)


Lemma scan_S calls lx :
  scan (S calls) lx
  = match next_token lx with
    | Ok (Some t, lx') => let (ts, e) := scan calls lx' in (t :: ts, e)
    | Ok (None, _) => ([], Finished)
    | Err f => ([], Faulted f)
    end.
Proof. reflexivity. Qed.





(** ** The bounds of the model are never reached *)

Lemma bounded_ret {A} (a : A) : bounded (ret a).
Proof. intros lx. discriminate. Qed.

Lemma bounded_bind {A B} (m : M A) (k : A -> M B) :
  bounded m -> (forall a, bounded (k a)) -> bounded (bind m k).
Proof.
  intros Hm Hk lx. unfold bind. specialize (Hm lx).
  destruct (m lx) as [[a l1]|f]; [apply Hk|].
  intros E. apply Hm. inversion E. reflexivity.
Qed.

Lemma bounded_io {A} (f : ifstream -> A * ifstream) : bounded (io f).
Proof. intros lx. unfold io. destruct (f (source lx)). discriminate. Qed.

Lemma bounded_int_arith z : bounded (int_arith z).
Proof. intros lx. unfold int_arith. destruct (in_int z); discriminate. Qed.

Lemma bounded_and_then a b : bounded a -> bounded b -> bounded (and_then a b).
Proof.
  intros Ha Hb. apply bounded_bind; [exact Ha|].
  intros []; [exact Hb|apply bounded_ret].
Qed.

Lemma bounded_source_good : bounded source_good.
Proof. intros lx. discriminate. Qed.

Lemma bounded_peek_cond (P : Z -> bool) :
  bounded (and_then source_good (c <- io peek ;; ret (P c))).
Proof.
  apply bounded_and_then; [apply bounded_source_good|].
  apply bounded_bind; [apply bounded_io|]. intros c. apply bounded_ret.
Qed.

Lemma bounded_chop_char : bounded chop_char.
Proof.
  unfold chop_char.
  apply bounded_bind.
  { apply bounded_and_then; [apply bounded_source_good|].
    apply bounded_bind; [apply bounded_io|]. intros c. apply bounded_ret. }
  intros []; [|apply bounded_ret].
  apply bounded_bind; [apply bounded_io|]. intros p.
  apply bounded_bind; [apply bounded_int_arith|]. intros lb.
  apply bounded_bind; [intros lx; discriminate|]. intros _.
  apply bounded_bind; [intros lx; discriminate|]. intros r.
  apply bounded_bind; [apply bounded_int_arith|]. intros r'.
  intros lx. discriminate.
Qed.

Lemma stream_left_pos s : (1 <= stream_left s)%nat.
Proof. unfold stream_left. destruct (good s); lia. Qed.

Lemma stream_left_good s : good s = true -> (2 <= stream_left s)%nat.
Proof. unfold stream_left. intros ->. lia. Qed.

Lemma stream_left_not_good s : good s = false -> stream_left s = 1%nat.
Proof. unfold stream_left. intros ->. reflexivity. Qed.

Lemma peek_left s c s' :
  peek s = (c, s') -> (stream_left s' <= stream_left s)%nat.
Proof.
  intros H. apply peek_inv in H. destruct H as (_ & _ & Hg).
  destruct (good s') eqn:G.
  - rewrite (Hg eq_refl). lia.
  - rewrite (stream_left_not_good _ G). apply stream_left_pos.
Qed.

Lemma tellg_left s p s' :
  tellg s = (p, s') -> (stream_left s' <= stream_left s)%nat.
Proof.
  intros H. apply tellg_inv in H. destruct H as (_ & _ & _ & _ & Hg).
  destruct (good s') eqn:G.
  - rewrite (Hg eq_refl). lia.
  - rewrite (stream_left_not_good _ G). apply stream_left_pos.
Qed.

Lemma get_left s c s' :
  good s = true -> get s = (c, s') -> (stream_left s' < stream_left s)%nat.
Proof.
  intros G. unfold get, sentry. rewrite G.
  destruct (sgetc s =? EOF) eqn:E; intros H; inversion H; subst.
  - rewrite stream_left_not_good.
    + apply stream_left_good. exact G.
    + unfold good. simpl. rewrite !orb_true_r. reflexivity.
  - assert (Hlt : (gptr s < List.length (bytes s))%nat).
    { apply nth_error_Some. intros Hn. apply sgetc_EOF in Hn. congruence. }
    unfold stream_left. rewrite G.
    replace (good (gbump s)) with true by (symmetry; exact G).
    simpl. lia.
Qed.

(** [chop_char] uses up one iteration on a good stream and changes
    nothing otherwise. *)
Lemma chop_char_left lx u lx' :
  chop_char lx = Ok (u, lx') ->
  (left lx' <= left lx)%nat /\
  (Lexer_good lx = true -> (left lx' < left lx)%nat).
Proof.
  intros H. apply chop_char_cases in H.
  destruct H as [(G & ->) | (c & s1 & G & Hget & H)].
  - split; [lia|congruence].
  - apply (get_left _ _ _ G) in Hget.
    assert ((left lx' < left lx)%nat); [|split; [lia|auto]].
    destruct H as [(_ & ->) | (_ & p & s2 & Htell & ->)]; unfold left; simpl.
    + exact Hget.
    + apply tellg_left in Htell. lia.
Qed.

Lemma peek_cond_left (P : Z -> bool) lx b lx' :
  and_then source_good (c <- io peek ;; ret (P c)) lx = Ok (b, lx') ->
  (left lx' <= left lx)%nat /\
  (b = true -> Lexer_good lx = true) /\
  (Lexer_good lx' = false -> (left lx' = 1)%nat).
Proof.
  unfold and_then. intros H. mstep H as g lg Hg.
  unfold source_good in Hg. inversion Hg; subst. clear Hg.
  unfold Lexer_good.
  assert (Hng : forall l, good (source l) = false -> left l = 1%nat)
    by (intros l; apply stream_left_not_good).
  destruct (good (source lg)) eqn:G.
  - mstep H as c l1 Hp. mret H.
    apply io_Ok in Hp. destruct Hp as (s' & Hp & ->).
    apply peek_left in Hp. unfold left. simpl.
    split; [exact Hp|]. split; [reflexivity|apply stream_left_not_good].
  - mret H. split; [lia|]. split; [discriminate|auto].
Qed.

(** A loop whose body uses up an iteration stays within its bound. *)
Lemma while_loop_bounded (cond : M bool) (body : M unit) :
  bounded cond -> bounded body ->
  (forall lx l1 u l2,
      cond lx = Ok (true, l1) -> body l1 = Ok (u, l2) ->
      (left l2 < left lx)%nat) ->
  forall fuel lx, (left lx <= fuel)%nat ->
                  while_loop fuel cond body lx <> Err LoopFuel.
Proof.
  intros Hc Hb Hdec. induction fuel as [|fuel IH]; intros lx Hle.
  - pose proof (stream_left_pos (source lx)). unfold left in Hle. lia.
  - rewrite while_loop_S. unfold bind at 1.
    specialize (Hc lx). destruct (cond lx) as [[[] l1]|f] eqn:Ec;
      [|discriminate|intros E; apply Hc; inversion E; reflexivity].
    unfold bind. specialize (Hb l1).
    destruct (body l1) as [[u l2]|f] eqn:Eb;
      [|intros E; apply Hb; inversion E; reflexivity].
    apply IH. specialize (Hdec _ _ _ _ Ec Eb). lia.
Qed.

Lemma while_bounded (cond : M bool) (body : M unit) :
  bounded cond -> bounded body ->
  (forall lx l1 u l2,
      cond lx = Ok (true, l1) -> body l1 = Ok (u, l2) ->
      (left l2 < left lx)%nat) ->
  bounded (while_ cond body).
Proof.
  intros Hc Hb Hdec lx. unfold while_.
  apply while_loop_bounded; auto.
  unfold left, stream_left. destruct (good (source lx)); lia.
Qed.

Lemma chop_iteration_left (P : Z -> bool) lx l1 u l2 :
  and_then source_good (c <- io peek ;; ret (P c)) lx = Ok (true, l1) ->
  chop_char l1 = Ok (u, l2) ->
  (left l2 < left lx)%nat.
Proof.
  intros Hc Hb. apply peek_cond_left in Hc.
  destruct Hc as (Hle & Hg & Hng). specialize (Hg eq_refl).
  apply chop_char_left in Hb. destruct Hb as (Hle2 & Hlt).
  destruct (Lexer_good l1) eqn:G1.
  - specialize (Hlt eq_refl). lia.
  - rewrite Hng in Hle2 by reflexivity.
    pose proof (stream_left_good _ Hg). unfold left in *. lia.
Qed.

Lemma chop_while_bounded (P : Z -> bool) :
  bounded (while_ (and_then source_good (c <- io peek ;; ret (P c))) chop_char).
Proof.
  apply while_bounded.
  - apply bounded_peek_cond.
  - apply bounded_chop_char.
  - apply chop_iteration_left.
Qed.

Lemma chop_while_left (P : Z -> bool) lx u lx' :
  while_ (and_then source_good (c <- io peek ;; ret (P c))) chop_char lx
    = Ok (u, lx') ->
  (left lx' <= left lx)%nat.
Proof.
  intros H.
  eapply (while_inv (fun l => (left l <= left lx)%nat)); [| | |exact H].
  - intros la b lb Ha Hb. apply peek_cond_left in Hb. lia.
  - intros la ub lb Ha Hb. apply chop_char_left in Hb. lia.
  - lia.
Qed.

Lemma drop_line_left lx u lx' :
  drop_line lx = Ok (u, lx') ->
  (left lx' <= left lx)%nat /\
  (Lexer_good lx = true -> (left lx' < left lx)%nat).
Proof.
  unfold drop_line. intros H. mstep H as u1 l1 Hw.
  apply (chop_while_left (fun c => negb (c =? NL))) in Hw.
  mstep H as g lg Hg. unfold source_good in Hg. inversion Hg; subst. clear Hg.
  destruct (good (source lg)) eqn:G1.
  - apply chop_char_left in H. destruct H as (_ & H).
    specialize (H G1). split; intros; lia.
  - mret H. split; [exact Hw|]. intros G.
    unfold left. rewrite (stream_left_not_good _ G1).
    pose proof (stream_left_good _ G). lia.
Qed.

Lemma bounded_trim_left : bounded trim_left.
Proof. apply (chop_while_bounded isspace). Qed.

Lemma bounded_drop_line : bounded drop_line.
Proof.
  unfold drop_line. apply bounded_bind.
  - apply (chop_while_bounded (fun c => negb (c =? NL))).
  - intros _. apply bounded_bind; [apply bounded_source_good|].
    intros []; [apply bounded_chop_char|apply bounded_ret].
Qed.

Lemma bounded_skip_blank : bounded skip_blank.
Proof.
  unfold skip_blank. apply bounded_bind; [apply bounded_trim_left|].
  intros _. apply while_bounded.
  - apply bounded_peek_cond.
  - apply bounded_bind; [apply bounded_drop_line|].
    intros _. apply bounded_trim_left.
  - intros lx l1 u l2 Hc Hb.
    apply (peek_cond_left (fun c => c =? HASH)) in Hc.
    destruct Hc as (Hle & Hg & Hng). specialize (Hg eq_refl).
    mstep Hb as u1 l3 Hd.
    apply (chop_while_left isspace) in Hb.
    apply drop_line_left in Hd. destruct Hd as (Hd & Hd').
    destruct (Lexer_good l1) eqn:G1.
    + specialize (Hd' eq_refl). lia.
    + rewrite (Hng eq_refl) in Hd.
      pose proof (stream_left_good _ Hg). unfold left in *. lia.
Qed.

Lemma bounded_fault {A} (f : Fault) : f <> LoopFuel -> bounded (@fault A f).
Proof. intros Hf lx E. inversion E. contradiction. Qed.

Lemma bounded_read_back n : bounded (read_back n).
Proof.
  unfold read_back. apply bounded_bind; [apply bounded_int_arith|].
  intros size. destruct (size <? 0); [apply bounded_fault; discriminate|].
  apply bounded_bind; [apply bounded_io|].
  intros [cs []]; simpl; [|apply bounded_fault; discriminate].
  destruct (Z.of_nat (List.length cs) <? size);
    [apply bounded_ret|apply bounded_fault; discriminate].
Qed.

Lemma bounded_lex_identity loc : bounded (lex_identity loc).
Proof.
  unfold lex_identity.
  apply bounded_bind; [apply bounded_io|]. intros start.
  apply bounded_bind; [apply (chop_while_bounded isalnum)|]. intros _.
  apply bounded_bind; [apply bounded_io|]. intros e.
  apply bounded_bind; [apply bounded_io|]. intros _.
  apply bounded_bind; [apply bounded_read_back|]. intros buf.
  apply bounded_ret.
Qed.

Lemma bounded_lex_number loc : bounded (lex_number loc).
Proof.
  unfold lex_number.
  apply bounded_bind; [apply bounded_io|]. intros start.
  apply bounded_bind; [apply (chop_while_bounded isdigit)|]. intros _.
  apply bounded_bind; [apply bounded_io|]. intros e.
  apply bounded_bind; [apply bounded_io|]. intros _.
  apply bounded_bind; [apply bounded_read_back|]. intros buf.
  apply bounded_bind; [apply bounded_int_arith|]. intros v.
  apply bounded_ret.
Qed.

Lemma bounded_lex_string loc : bounded (lex_string loc).
Proof.
  unfold lex_string.
  apply bounded_bind; [apply bounded_chop_char|]. intros _.
  apply bounded_bind; [apply bounded_io|]. intros start.
  apply bounded_bind;
    [apply (chop_while_bounded (fun c => negb (c =? QUOTE)))|]. intros _.
  apply bounded_bind; [apply bounded_io|]. intros e.
  apply bounded_bind; [apply bounded_io|]. intros _.
  apply bounded_bind; [apply bounded_read_back|]. intros buf.
  apply bounded_bind; [apply bounded_chop_char|]. intros _.
  apply bounded_ret.
Qed.

Lemma bounded_lex_punct c loc : bounded (lex_punct c loc).
Proof.
  unfold lex_punct. apply bounded_bind; [apply bounded_chop_char|].
  intros _. destruct (map_find c token_type_map);
    [apply bounded_ret|apply bounded_fault; discriminate].
Qed.

Lemma bounded_current_location : bounded current_location.
Proof.
  unfold current_location.
  apply bounded_bind; [intros lx; discriminate|]. intros path.
  apply bounded_bind; [intros lx; discriminate|]. intros r.
  apply bounded_bind; [apply bounded_io|]. intros p.
  apply bounded_bind; [intros lx; discriminate|]. intros lb.
  apply bounded_bind; [apply bounded_int_arith|]. intros c.
  apply bounded_ret.
Qed.

(** No call of [next_token] stops on the bound of a loop: the loops of
    the model run as long as those of the code. *)
Lemma next_token_fuel lx : next_token lx <> Err LoopFuel.
Proof.
  revert lx. change (bounded next_token). unfold next_token.
  apply bounded_bind; [apply bounded_skip_blank|]. intros _.
  apply bounded_bind; [apply bounded_source_good|]. intros g.
  destruct (negb g); [apply bounded_ret|].
  apply bounded_bind; [apply bounded_current_location|]. intros loc.
  apply bounded_bind; [apply bounded_io|]. intros i.
  repeat match goal with
         | |- bounded (if ?b then _ else _) => destruct b
         end.
  - apply bounded_bind; [apply bounded_lex_identity|].
    intros t. apply bounded_ret.
  - apply bounded_bind; [apply bounded_lex_punct|].
    intros t. apply bounded_ret.
  - apply bounded_bind; [apply bounded_lex_number|].
    intros t. apply bounded_ret.
  - apply bounded_bind; [apply bounded_lex_string|].
    intros t. apply bounded_ret.
  - apply bounded_fault. discriminate.
Qed.

(** A call that returns a token uses up at least one of the calls that
    are left. *)
Lemma next_token_left lx t lx' :
  wf lx -> next_token lx = Ok (Some t, lx') ->
  wf lx' /\ (left lx' < left lx)%nat.
Proof.
  intros W H.
  assert (G : Lexer_good lx = true).
  { destruct (Lexer_good lx) eqn:G; [reflexivity|].
    rewrite (next_token_not_good _ G) in H. discriminate. }
  apply next_token_Some in H. destruct H as (mid & F & Gm & _ & BP).
  destruct (BP (f_wf _ _ F W)) as (K & W' & A).
  split; [exact W'|].
  assert (Eb : bytes (source lx') = bytes (source lx)).
  { rewrite (k_bytes _ _ K). apply F. }
  pose proof (f_pos _ _ F) as P.
  unfold left, stream_left, Lexer_good, wf, pos in *.
  rewrite G. destruct (good (source lx')).
  - specialize (A eq_refl). rewrite Eb in *. lia.
  - lia.
Qed.

Lemma scan_bounded : forall calls lx,
  wf lx -> (left lx <= calls)%nat -> snd (scan calls lx) <> MoreCalls.
Proof.
  induction calls as [|calls IH]; intros lx W Hle.
  - pose proof (stream_left_pos (source lx)). unfold left in Hle. lia.
  - rewrite scan_S.
    destruct (next_token lx) as [[[t|] lx']|f] eqn:En; simpl;
      try discriminate.
    destruct (next_token_left _ _ _ W En) as (W' & Hlt).
    specialize (IH lx' W' ltac:(lia)).
    destruct (scan calls lx') as [ts e]. exact IH.
Qed.

(** The scan of a file always comes to an end within the calls that
    [scan_all] allows: it finishes, or the process is terminated, and
    never on a bound of the model. *)
Lemma scan_finishes path contents :
  let lx := Lexer_new path (Some contents) in
  snd (scan_all lx) = Finished \/
  exists f, snd (scan_all lx) = Faulted f /\ f <> LoopFuel.
Proof.
  intros lx.
  assert (W : wf lx) by (unfold wf; simpl; lia).
  assert (Hb : snd (scan_all lx) <> MoreCalls).
  { apply scan_bounded; [exact W|]. unfold left, stream_left. simpl. lia. }
  assert (Hf : forall calls l, snd (scan calls l) <> Faulted LoopFuel).
  { induction calls as [|calls IH]; intros l; [discriminate|].
    rewrite scan_S. pose proof (next_token_fuel l) as Hn.
    destruct (next_token l) as [[[t|] l']|f]; simpl; try discriminate.
    - specialize (IH l'). destruct (scan calls l'). exact IH.
    - intros E. apply Hn. inversion E. reflexivity. }
  specialize (Hf (List.length (bytes (source lx)) + 2)%nat lx).
  fold (scan_all lx) in Hf.
  destruct (snd (scan_all lx)) as [|f|]; [left; reflexivity| |contradiction].
  right. exists f. split; [reflexivity|]. intros ->. apply Hf. reflexivity.
Qed.

(** ** The path is only copied into the locations *)

Section Path.
Variable q : string.

Lemma follows_ret {A B} (f : A -> B) (a : A) : follows q f (ret a) (ret (f a)).
Proof. intros lx. reflexivity. Qed.

Lemma follows_bind {A B A' B'} (f : A -> A') (g : B -> B')
      (m1 : M A) (m2 : M A') (k1 : A -> M B) (k2 : A' -> M B') :
  follows q f m1 m2 ->
  (forall a, follows q g (k1 a) (k2 (f a))) ->
  follows q g (bind m1 k1) (bind m2 k2).
Proof.
  intros Hm Hk lx. unfold bind. rewrite (Hm lx).
  destruct (m1 lx) as [[a l1]|e]; [apply Hk|reflexivity].
Qed.

Lemma follows_io {A} (f : ifstream -> A * ifstream) :
  follows q (fun a => a) (io f) (io f).
Proof.
  intros lx. unfold io, with_path. simpl.
  destruct (f (source lx)). reflexivity.
Qed.

Lemma follows_int_arith z : follows q (fun a => a) (int_arith z) (int_arith z).
Proof. intros lx. unfold int_arith. destruct (in_int z); reflexivity. Qed.

Lemma follows_fault {A B} (f : A -> B) e : follows q f (fault e) (fault e).
Proof. intros lx. reflexivity. Qed.

Lemma follows_source_good : follows q (fun a => a) source_good source_good.
Proof. intros lx. reflexivity. Qed.

Lemma follows_peek_cond (P : Z -> bool) :
  follows q (fun a => a)
          (and_then source_good (c <- io peek ;; ret (P c)))
          (and_then source_good (c <- io peek ;; ret (P c))).
Proof.
  unfold and_then.
  apply (follows_bind (fun a => a)); [apply follows_source_good|].
  intros []; [|apply (follows_ret (fun a => a))].
  apply (follows_bind (fun a => a)); [apply follows_io|].
  intros c. apply (follows_ret (fun a => a)).
Qed.

Lemma follows_chop_char : follows q (fun a => a) chop_char chop_char.
Proof.
  unfold chop_char.
  apply (follows_bind (fun a => a)).
  { unfold and_then.
    apply (follows_bind (fun a => a)); [apply follows_source_good|].
    intros []; [|apply (follows_ret (fun a => a))].
    apply (follows_bind (fun a => a)); [apply follows_io|].
    intros c. apply (follows_ret (fun a => a)). }
  intros []; [|apply (follows_ret (fun a => a))].
  apply (follows_bind (fun a => a)); [apply follows_io|]. intros p.
  apply (follows_bind (fun a => a)); [apply follows_int_arith|]. intros lb.
  apply (follows_bind (fun a => a)); [intros lx; reflexivity|]. intros _.
  apply (follows_bind (fun a => a)); [intros lx; reflexivity|]. intros r.
  apply (follows_bind (fun a => a)); [apply follows_int_arith|]. intros r'.
  intros lx. reflexivity.
Qed.

Lemma follows_while_loop (cond : M bool) (body : M unit) :
  follows q (fun a => a) cond cond ->
  follows q (fun a => a) body body ->
  forall fuel,
    follows q (fun a => a) (while_loop fuel cond body)
            (while_loop fuel cond body).
Proof.
  intros Hc Hb. induction fuel as [|fuel IH].
  - intros lx. reflexivity.
  - rewrite while_loop_S.
    apply (follows_bind (fun a => a)); [exact Hc|].
    intros []; [|apply (follows_ret (fun a => a))].
    apply (follows_bind (fun a => a)); [exact Hb|]. intros _. exact IH.
Qed.

Lemma follows_while (cond : M bool) (body : M unit) :
  follows q (fun a => a) cond cond ->
  follows q (fun a => a) body body ->
  follows q (fun a => a) (while_ cond body) (while_ cond body).
Proof.
  intros Hc Hb lx. unfold while_.
  apply (follows_while_loop cond body Hc Hb).
Qed.

Lemma follows_chop_while (P : Z -> bool) :
  follows q (fun a => a)
    (while_ (and_then source_good (c <- io peek ;; ret (P c))) chop_char)
    (while_ (and_then source_good (c <- io peek ;; ret (P c))) chop_char).
Proof.
  apply follows_while; [apply follows_peek_cond|apply follows_chop_char].
Qed.

Lemma follows_drop_line : follows q (fun a => a) drop_line drop_line.
Proof.
  unfold drop_line.
  apply (follows_bind (fun a => a));
    [apply (follows_chop_while (fun c => negb (c =? NL)))|]. intros _.
  apply (follows_bind (fun a => a)); [apply follows_source_good|].
  intros []; [apply follows_chop_char|apply (follows_ret (fun a => a))].
Qed.

Lemma follows_skip_blank : follows q (fun a => a) skip_blank skip_blank.
Proof.
  unfold skip_blank, trim_left.
  apply (follows_bind (fun a => a)); [apply (follows_chop_while isspace)|].
  intros _. apply follows_while.
  - apply (follows_peek_cond (fun c => c =? HASH)).
  - apply (follows_bind (fun a => a)); [apply follows_drop_line|].
    intros _. apply (follows_chop_while isspace).
Qed.

Lemma follows_read_back n : follows q (fun a => a) (read_back n) (read_back n).
Proof.
  unfold read_back.
  apply (follows_bind (fun a => a)); [apply follows_int_arith|]. intros size.
  destruct (size <? 0); [apply follows_fault|].
  apply (follows_bind (fun a => a)); [apply follows_io|].
  intros [cs []]; simpl; [|apply follows_fault].
  destruct (Z.of_nat (List.length cs) <? size);
    [apply (follows_ret (fun a => a))|apply follows_fault].
Qed.

Lemma follows_current_location :
  follows q (relocate q) current_location current_location.
Proof.
  unfold current_location.
  apply (follows_bind (fun _ => q)); [intros lx; reflexivity|]. intros path.
  apply (follows_bind (fun a => a)); [intros lx; reflexivity|]. intros r.
  apply (follows_bind (fun a => a)); [apply follows_io|]. intros p.
  apply (follows_bind (fun a => a)); [intros lx; reflexivity|]. intros lb.
  apply (follows_bind (fun a => a)); [apply follows_int_arith|]. intros c.
  apply (follows_ret (relocate q)).
Qed.

Lemma follows_lex_identity loc :
  follows q (retarget q) (lex_identity loc) (lex_identity (relocate q loc)).
Proof.
  unfold lex_identity.
  apply (follows_bind (fun a => a)); [apply follows_io|]. intros start.
  apply (follows_bind (fun a => a)); [apply (follows_chop_while isalnum)|].
  intros _.
  apply (follows_bind (fun a => a)); [apply follows_io|]. intros e.
  apply (follows_bind (fun a => a)); [apply follows_io|]. intros _.
  apply (follows_bind (fun a => a)); [apply follows_read_back|]. intros buf.
  apply (follows_ret (retarget q)).
Qed.

Lemma follows_lex_number loc :
  follows q (retarget q) (lex_number loc) (lex_number (relocate q loc)).
Proof.
  unfold lex_number.
  apply (follows_bind (fun a => a)); [apply follows_io|]. intros start.
  apply (follows_bind (fun a => a)); [apply (follows_chop_while isdigit)|].
  intros _.
  apply (follows_bind (fun a => a)); [apply follows_io|]. intros e.
  apply (follows_bind (fun a => a)); [apply follows_io|]. intros _.
  apply (follows_bind (fun a => a)); [apply follows_read_back|]. intros buf.
  apply (follows_bind (fun a => a)); [apply follows_int_arith|]. intros v.
  apply (follows_ret (retarget q)).
Qed.

Lemma follows_lex_string loc :
  follows q (retarget q) (lex_string loc) (lex_string (relocate q loc)).
Proof.
  unfold lex_string.
  apply (follows_bind (fun a => a)); [apply follows_chop_char|]. intros _.
  apply (follows_bind (fun a => a)); [apply follows_io|]. intros start.
  apply (follows_bind (fun a => a));
    [apply (follows_chop_while (fun c => negb (c =? QUOTE)))|].
  intros _.
  apply (follows_bind (fun a => a)); [apply follows_io|]. intros e.
  apply (follows_bind (fun a => a)); [apply follows_io|]. intros _.
  apply (follows_bind (fun a => a)); [apply follows_read_back|]. intros buf.
  apply (follows_bind (fun a => a)); [apply follows_chop_char|]. intros _.
  apply (follows_ret (retarget q)).
Qed.

Lemma follows_lex_punct c loc :
  follows q (retarget q) (lex_punct c loc) (lex_punct c (relocate q loc)).
Proof.
  unfold lex_punct.
  apply (follows_bind (fun a => a)); [apply follows_chop_char|]. intros _.
  destruct (map_find c token_type_map);
    [apply (follows_ret (retarget q))|apply follows_fault].
Qed.

Lemma follows_next_token :
  follows q (option_map (retarget q)) next_token next_token.
Proof.
  unfold next_token.
  apply (follows_bind (fun a => a)); [apply follows_skip_blank|]. intros _.
  apply (follows_bind (fun a => a)); [apply follows_source_good|]. intros g.
  destruct (negb g); [apply (follows_ret (option_map (retarget q)))|].
  apply (follows_bind (relocate q)); [apply follows_current_location|].
  intros loc.
  apply (follows_bind (fun a => a)); [apply follows_io|]. intros i.
  repeat match goal with
         | |- follows _ _ (if ?b then _ else _) _ => destruct b
         end.
  - apply (follows_bind (retarget q)); [apply follows_lex_identity|].
    intros t. apply (follows_ret (option_map (retarget q))).
  - apply (follows_bind (retarget q)); [apply follows_lex_punct|].
    intros t. apply (follows_ret (option_map (retarget q))).
  - apply (follows_bind (retarget q)); [apply follows_lex_number|].
    intros t. apply (follows_ret (option_map (retarget q))).
  - apply (follows_bind (retarget q)); [apply follows_lex_string|].
    intros t. apply (follows_ret (option_map (retarget q))).
  - apply follows_fault.
Qed.

Lemma scan_with_path : forall calls lx,
  scan calls (with_path q lx)
  = (map (retarget q) (fst (scan calls lx)), snd (scan calls lx)).
Proof.
  induction calls as [|calls IH]; intros lx.
  - reflexivity.
  - rewrite !scan_S, (follows_next_token lx).
    destruct (next_token lx) as [[[t|] lx']|e]; simpl; try reflexivity.
    rewrite IH. destruct (scan calls lx'). reflexivity.
Qed.

End Path.

(** Two scans of the same bytes differ in nothing but the path written
    into the locations. *)
Lemma scan_all_path_independent (p q : string) (contents : list ascii) :
  scan_all (Lexer_new q (Some contents))
  = (map (retarget q) (fst (scan_all (Lexer_new p (Some contents)))),
     snd (scan_all (Lexer_new p (Some contents)))).
Proof.
  unfold scan_all.
  exact (scan_with_path q _ (Lexer_new p (Some contents))).
Qed.

(** ** Runs that end in a fault *)

(** A name or a number that ends the file: the loop of line 99 or 121
    stops on [eofbit], [tellg()] returns -1, and [n] is not positive. *)
Example name_at_end_of_file (path : string) :
  run path (Some (file "x")) = Some ([], Faulted UndefinedBehaviour) /\
  run path (Some (file "42 x"))
  = Some ([token_at NUMBER None (Some 42) path 0 0],
          Faulted BadArrayNewLength).
Proof. split; vm_compute; reflexivity. Qed.

(** An unterminated string that does not start the file: the length of
    the array is negative. *)
Example unterminated_string_later (path : string) :
  run path (Some (file "; " ++ DQ :: file "abc"))
  = Some ([token_at SEMICOLON None None path 0 0], Faulted BadArrayNewLength).
Proof. vm_compute. reflexivity. Qed.

(** A byte that starts no token: the assertion of line 155. *)
Example unknown_byte (path : string) :
  run path (Some (file "a = 1;"))
  = Some ([token_at IDENTITY (Some "a"%string) None path 0 0],
          Faulted AssertNotImplemented).
Proof. vm_compute. reflexivity. Qed.

(** ** The array that was never written *)

Lemma agrees_refl {A} (m : M A) : agrees m m.
Proof.
  intros lx. destruct (m lx) as [r|f]; [reflexivity|].
  destruct f; reflexivity.
Qed.

Lemma agrees_bind {A B} (m m' : M A) (k k' : A -> M B) :
  agrees m m' -> (forall a, agrees (k a) (k' a)) ->
  agrees (bind m k) (bind m' k').
Proof.
  intros Hm Hk lx. specialize (Hm lx). unfold bind.
  destruct (m lx) as [[a l]|f].
  - rewrite Hm. apply Hk.
  - destruct f; try exact I; rewrite Hm; reflexivity.
Qed.

Lemma agrees_c_str mem size b : agrees (c_str size b) (c_str_in mem size b).
Proof.
  destruct b as [cs terminated]. unfold c_str, c_str_in.
  destruct terminated; [apply agrees_refl|].
  intros lx. exact I.
Qed.

Lemma agrees_read_back mem n : agrees (read_back n) (read_back_in mem n).
Proof.
  unfold read_back, read_back_in.
  apply agrees_bind; [apply agrees_refl|]. intros size.
  destruct (size <? 0); [apply agrees_refl|].
  apply agrees_bind; [apply agrees_refl|]. intros b.
  apply agrees_c_str.
Qed.

Lemma agrees_lex_identity mem loc :
  agrees (lex_identity loc) (lex_identity_in mem loc).
Proof.
  unfold lex_identity, lex_identity_in.
  apply agrees_bind; [apply agrees_refl|]. intros start.
  apply agrees_bind; [apply agrees_refl|]. intros _.
  apply agrees_bind; [apply agrees_refl|]. intros e. cbv zeta.
  apply agrees_bind; [apply agrees_refl|]. intros _.
  apply agrees_bind; [apply agrees_read_back|]. intros buf.
  apply agrees_refl.
Qed.

Lemma agrees_lex_number mem loc :
  agrees (lex_number loc) (lex_number_in mem loc).
Proof.
  unfold lex_number, lex_number_in.
  apply agrees_bind; [apply agrees_refl|]. intros start.
  apply agrees_bind; [apply agrees_refl|]. intros _.
  apply agrees_bind; [apply agrees_refl|]. intros e. cbv zeta.
  apply agrees_bind; [apply agrees_refl|]. intros _.
  apply agrees_bind; [apply agrees_read_back|]. intros buf.
  apply agrees_refl.
Qed.

Lemma agrees_lex_string mem loc :
  agrees (lex_string loc) (lex_string_in mem loc).
Proof.
  unfold lex_string, lex_string_in.
  apply agrees_bind; [apply agrees_refl|]. intros _.
  apply agrees_bind; [apply agrees_refl|]. intros start.
  apply agrees_bind; [apply agrees_refl|]. intros _.
  apply agrees_bind; [apply agrees_refl|]. intros e. cbv zeta.
  apply agrees_bind; [apply agrees_refl|]. intros _.
  apply agrees_bind; [apply agrees_read_back|]. intros buf.
  apply agrees_refl.
Qed.

Lemma agrees_next_token mem : agrees next_token (next_token_in mem).
Proof.
  unfold next_token, next_token_in.
  apply agrees_bind; [apply agrees_refl|]. intros _.
  apply agrees_bind; [apply agrees_refl|]. intros g.
  destruct (negb g); [apply agrees_refl|].
  apply agrees_bind; [apply agrees_refl|]. intros loc.
  apply agrees_bind; [apply agrees_refl|]. intros i. cbv zeta.
  destruct (isalpha (static_cast_char i)).
  { apply agrees_bind; [apply agrees_lex_identity|]. intros t.
    apply agrees_refl. }
  destruct (is_in_token_map (static_cast_char i)); [apply agrees_refl|].
  destruct (isdigit (static_cast_char i)).
  { apply agrees_bind; [apply agrees_lex_number|]. intros t.
    apply agrees_refl. }
  destruct (static_cast_char i =? QUOTE); [|apply agrees_refl].
  apply agrees_bind; [apply agrees_lex_string|]. intros t.
  apply agrees_refl.
Qed.

(** A scan that does not end in undefined behaviour is the same whatever
    the fresh arrays hold. *)
Lemma scan_in_agrees mem : forall calls lx,
  snd (scan calls lx) <> Faulted UndefinedBehaviour ->
  scan_in mem calls lx = scan calls lx.
Proof.
  induction calls as [|calls IH]; intros lx H; [reflexivity|].
  rewrite scan_S in *. cbn [scan_in].
  pose proof (agrees_next_token mem lx) as Hn.
  destruct (next_token lx) as [[[t|] lx']|f].
  - rewrite Hn. specialize (IH lx').
    destruct (scan calls lx') as [ts e]. simpl in H.
    rewrite (IH H). reflexivity.
  - rewrite Hn. reflexivity.
  - simpl in H. destruct f; try (rewrite Hn; reflexivity).
    contradiction H. reflexivity.
Qed.

(** Two lexers constructed separately on the same bytes, whatever their
    paths and whatever the arrays they allocate hold, yield the same
    tokens, up to the path in the locations, and end the same way, as
    long as the scan does not read an array that was never written (nor
    overflows an [int]). *)
Lemma rescan_same_without_undefined_behaviour
      (path1 path2 : string) (contents mem1 mem2 : list ascii) :
  snd (scan_all (Lexer_new path1 (Some contents)))
    <> Faulted UndefinedBehaviour ->
  scan_all_in mem2 (Lexer_new path2 (Some contents))
  = (map (retarget path2)
         (fst (scan_all_in mem1 (Lexer_new path1 (Some contents)))),
     snd (scan_all_in mem1 (Lexer_new path1 (Some contents)))).
Proof.
  intros H.
  pose proof (scan_all_path_independent path1 path2 contents) as Hp.
  assert (H1 : scan_all_in mem1 (Lexer_new path1 (Some contents))
               = scan_all (Lexer_new path1 (Some contents)))
    by (apply scan_in_agrees; exact H).
  assert (H2 : scan_all_in mem2 (Lexer_new path2 (Some contents))
               = scan_all (Lexer_new path2 (Some contents))).
  { apply scan_in_agrees. fold (scan_all (Lexer_new path2 (Some contents))).
    rewrite Hp. exact H. }
  rewrite H1, H2. exact Hp.
Qed.

(** ** The claims *)

(** C1.  The source is a comment line followed by [x;].  The scan yields
    the two tokens IDENTITY "x" and SEMICOLON, both on row 1, but the
    column of [x] is -1, not 0: [chop_char] sets [line_begin] one byte
    too far (line 56), so every column after the first line is one too
    small. *)
Theorem comment_line_then_x :
  run "a.vcl" (Some (file "# comment" ++ LF :: file "x;"))
  = Some ([ token_at IDENTITY (Some "x"%string) None "a.vcl" 1 (-1);
            token_at SEMICOLON None None "a.vcl" 1 0 ],
          Finished).
Proof. vm_compute. reflexivity. Qed.

(** C2.  The newline of the source "\nx;" is the byte at offset 0, and
    the next line starts at offset 1.  After [chop_char] has consumed the
    newline the get position is 1 and the row is 1, but [line_begin] is
    2: [tellg()] is taken after the byte was extracted and 1 is added
    again.  The token [x], at offset 1, gets column 1 - 2 = -1. *)
Theorem newline_sets_line_begin_two_past :
  let contents := LF :: file "x;" in
  let lx := Lexer_new "a.vcl" (Some contents) in
  chop_char lx
    = Ok (tt, mkLexer "a.vcl" (mkStream contents 1 false false) 2 1) /\
  next_token lx
    = Ok (Some (token_at IDENTITY (Some "x"%string) None "a.vcl" 1 (-1)),
          mkLexer "a.vcl" (mkStream contents 2 false false) 2 1).
Proof. split; vm_compute; reflexivity. Qed.

(** C3.  The source is a double quote followed by [abc], with no closing
    quote.  The loop of line 139 stops at the end of the file with
    [eofbit] set, so [tellg()] returns -1 and [n] is -1; the array has
    length 0, [get(buf, n, 0)] stores nothing, and [std::string(buf)]
    reads a buffer that was never written.  No error is reported. *)
Theorem unterminated_string_reads_unwritten_buffer :
  next_token (Lexer_new "a.vcl" (Some (DQ :: file "abc")))
  = Err UndefinedBehaviour.
Proof. vm_compute. reflexivity. Qed.

(** C4.  The source is two double quotes followed by [x;].  The first
    call returns a STRING token with the empty text; the get position is
    left at offset 1, on the closing quote, with [failbit] set; every
    later call returns the empty optional and leaves the lexer as it is,
    so the scan consists of that one token. *)
Theorem empty_string_literal_ends_scan :
  let contents := DQ :: DQ :: file "x;" in
  let lx := Lexer_new "a.vcl" (Some contents) in
  let lx' := mkLexer "a.vcl" (mkStream contents 1 false true) 0 0 in
  next_token lx
    = Ok (Some (token_at STRING (Some ""%string) None "a.vcl" 0 0), lx') /\
  nth_error (bytes (source lx')) (pos lx') = Some DQ /\
  Lexer_good lx' = false /\
  (forall n, call_again n lx' = Ok (repeat None n, lx')) /\
  scan_all lx
    = ([token_at STRING (Some ""%string) None "a.vcl" 0 0], Finished).
Proof.
  intros contents lx lx'.
  split; [vm_compute; reflexivity|].
  split; [reflexivity|]. split; [reflexivity|].
  split; [|vm_compute; reflexivity].
  apply call_again_exhausted. reflexivity.
Qed.




(** C6.  Once [next_token] has returned the empty optional, every
    further call returns it again, without a fault, and leaves the lexer
    (get position, state bits, row, line begin) exactly as it was. *)
Theorem exhausted_stays_exhausted lx lx' :
  next_token lx = Ok (None, lx') ->
  forall n, call_again n lx' = Ok (repeat None n, lx').
Proof.
  intros H. apply call_again_exhausted. eapply next_token_None. exact H.
Qed.

Lemma exhausted_stays_exhausted_witness :
  let lx := mkLexer "a.vcl" (mkStream (file ";") 1 false false) 0 0 in
  let lx' := mkLexer "a.vcl" (mkStream (file ";") 1 true false) 0 0 in
  next_token lx = Ok (None, lx') /\
  call_again 3 lx' = Ok ([None; None; None], lx').
Proof.
  intros lx lx'.
  assert (H : next_token lx = Ok (None, lx')) by (vm_compute; reflexivity).
  split; [exact H|].
  exact (exhausted_stays_exhausted lx lx' H 3%nat).
Defined.

(** C7.  A token returned by [next_token] carries a text and no number
    when its type is IDENTITY or STRING, a number and no text when its
    type is NUMBER, and neither when its type is one of the five
    punctuation types. *)
Theorem token_payload lx t lx' :
  next_token lx = Ok (Some t, lx') ->
  match type t with
  | IDENTITY | STRING => (exists s, text t = Some s) /\ number t = None
  | NUMBER => text t = None /\ (exists v, number t = Some v)
  | OPEN_PAREN | CLOSE_PAREN | OPEN_CURLY | CLOSE_CURLY | SEMICOLON =>
      text t = None /\ number t = None
  | RETURN => True
  end.
Proof.
  intros H. apply next_token_Some in H.
  destruct H as (mid & _ & _ & Sh & _).
  destruct Sh as [(s & ->) | [(s & ->) | [(v & ->) | (ty & P & ->)]]];
    simpl; eauto.
  destruct ty; simpl in *; auto; discriminate.
Qed.

Lemma token_payload_witness :
  let lx := Lexer_new "a.vcl" (Some (file "ab1 42;")) in
  let lx' := mkLexer "a.vcl" (mkStream (file "ab1 42;") 3 false false) 0 0 in
  let t := token_at IDENTITY (Some "ab1"%string) None "a.vcl" 0 0 in
  next_token lx = Ok (Some t, lx') /\
  ((exists s, text t = Some s) /\ number t = None).
Proof.
  intros lx lx' t.
  assert (H : next_token lx = Ok (Some t, lx')) by (vm_compute; reflexivity).
  split; [exact H|].
  exact (token_payload lx t lx' H).
Defined.

(** C8.  The source [(){};] yields five tokens, OPEN_PAREN, CLOSE_PAREN,
    OPEN_CURLY, CLOSE_CURLY and SEMICOLON, on row 0 at columns 0 to 4. *)
Theorem punctuation_round_trip (path : string) :
  run path (Some (file "(){};"))
  = Some ([ token_at OPEN_PAREN None None path 0 0;
            token_at CLOSE_PAREN None None path 0 1;
            token_at OPEN_CURLY None None path 0 2;
            token_at CLOSE_CURLY None None path 0 3;
            token_at SEMICOLON None None path 0 4 ],
          Finished).
Proof. vm_compute. reflexivity. Qed.

(** C9.  The source is [hello world] between double quotes.  The scan
    yields the one token STRING with the text [hello world]: the quotes
    are not part of it, and the bytes between them are copied as they
    are. *)
Theorem string_verbatim (path : string) :
  run path (Some (DQ :: file "hello world" ++ [DQ]))
  = Some ([token_at STRING (Some "hello world"%string) None path 0 0],
          Finished).
Proof. vm_compute. reflexivity. Qed.

(** A backslash in a string is a byte like any other: no escape is
    processed. *)
Example string_backslash (path : string) :
  run path (Some (DQ :: file "a\nb\" ++ [DQ]))
  = Some ([token_at STRING (Some "a\nb\"%string) None path 0 0], Finished).
Proof. vm_compute. reflexivity. Qed.

(** C10.  The source is the single byte [x].  The name runs into the end
    of the file, so [tellg()] returns -1, [n] is 0, [get(buf, 0, 0)]
    stores nothing in the fresh [char[1]], and [std::string(buf)] reads
    an array that was never written (undefined behaviour, the fault of
    the last line).  The text of the token is what the array happens to
    hold: two lexers constructed separately on these same bytes, whose
    arrays hold different bytes, yield different token sequences. *)
Theorem rescan_differs_on_unwritten_array :
  let lexer1 := Lexer_new "a.vcl" (Some (file "x")) in
  let lexer2 := Lexer_new "a.vcl" (Some (file "x")) in
  scan_all_in [] lexer1
  = ([token_at IDENTITY (Some ""%string) None "a.vcl" 0 0], Finished) /\
  scan_all_in (file "A") lexer2
  = ([token_at IDENTITY (Some "A"%string) None "a.vcl" 0 0], Finished) /\
  scan_all_in [] lexer1 <> scan_all_in (file "A") lexer2 /\
  scan_all lexer1 = ([], Faulted UndefinedBehaviour).
Proof.
  intros lexer1 lexer2.
  assert (H1 : scan_all_in [] lexer1
               = ([token_at IDENTITY (Some ""%string) None "a.vcl" 0 0],
                  Finished)) by (vm_compute; reflexivity).
  assert (H2 : scan_all_in (file "A") lexer2
               = ([token_at IDENTITY (Some "A"%string) None "a.vcl" 0 0],
                  Finished)) by (vm_compute; reflexivity).
  split; [exact H1|]. split; [exact H2|]. split.
  - rewrite H1, H2. discriminate.
  - vm_compute. reflexivity.
Qed.

(** * Single calls and whole scans, branch by branch *)

(** ** Loops of chop_char *)

Lemma row_after_le w : forall r, r <= row_after w r.
Proof.
  induction w as [|c w IH]; intros r; simpl; [lia|].
  destruct (int_of_char c =? NL); [specialize (IH (r + 1))|specialize (IH r)];
    lia.
Qed.

Lemma skipn_cons_nth {A} (l : list A) : forall k a t,
  skipn k l = a :: t -> nth_error l k = Some a /\ skipn (S k) l = t.
Proof.
  induction l as [|x l IH]; intros k a t H.
  - destruct k; discriminate.
  - destruct k as [|k]; simpl in *.
    + inversion H; subst. auto.
    + apply IH in H. exact H.
Qed.

Lemma skipn_length_lt {A} (l : list A) k a t :
  skipn k l = a :: t -> (k + S (List.length t) = List.length l)%nat.
Proof.
  intros H. pose proof (f_equal (@List.length A) H) as HL.
  rewrite length_skipn in HL. simpl in HL.
  lia.
Qed.

Section Run.
Variables (path : string) (bs : list ascii).
Hypothesis Hfit : fits_int bs.

(** One [chop_char] on a good stream, at any byte. *)
Lemma chop_char_byte k lb r c :
  nth_error bs k = Some c ->
  INT_MIN <= r -> (if int_of_char c =? NL then r + 1 else r) <= INT_MAX ->
  chop_char (lexer_at path bs k lb r)
  = Ok (tt, lexer_at path bs (S k)
              (if int_of_char c =? NL then Z.of_nat k + 2 else lb)
              (if int_of_char c =? NL then r + 1 else r)).
Proof.
  intros Hc Hr1 Hr2.
  assert (Hk : (k < List.length bs)%nat)
    by (apply nth_error_Some; congruence).
  destruct (int_of_char c =? NL) eqn:E.
  - unfold fits_int in Hfit.
    assert (Hcast : static_cast_int (Z.of_nat (S k)) = Z.of_nat k + 1)
      by (rewrite static_cast_int_small; lia).
    rewrite (chop_char_at_newline path bs k lb r c Hc E).
    + rewrite Hcast. do 2 f_equal. unfold lexer_at. f_equal. lia.
    + rewrite Hcast. unfold in_int, INT_MIN, INT_MAX.
      apply andb_true_intro. split; apply Z.leb_le; lia.
    + unfold in_int. apply andb_true_intro. split; apply Z.leb_le; lia.
  - apply (chop_char_at path bs k lb r c Hc E).
Qed.

(** A loop of [chop_char] over the bytes [w], which satisfy [P], up to a
    byte [c] that does not. *)
Lemma chop_while_run (P : Z -> bool) : forall w fuel k lb r c rest,
  skipn k bs = w ++ c :: rest ->
  Forall (fun a => P (int_of_char a) = true) w ->
  P (int_of_char c) = false ->
  INT_MIN <= r -> row_after w r <= INT_MAX ->
  (List.length w < fuel)%nat ->
  while_loop fuel (and_then source_good (x <- io peek ;; ret (P x))) chop_char
             (lexer_at path bs k lb r)
  = Ok (tt, lexer_at path bs (k + List.length w)
              (line_begin_after w k lb) (row_after w r)).
Proof.
  induction w as [|a w IH]; intros fuel k lb r c rest Hs Hall Hc Hr1 Hr2 Hf;
    (destruct fuel as [|fuel]; [simpl in Hf; lia|]);
    rewrite while_loop_S; unfold bind at 1.
  - simpl in Hs. apply skipn_cons_nth in Hs. destruct Hs as (Hn & _).
    rewrite (peek_cond_at path bs k lb r c Hn), Hc.
    simpl. rewrite Nat.add_0_r. reflexivity.
  - simpl in Hs. apply skipn_cons_nth in Hs. destruct Hs as (Hn & Hs).
    inversion Hall as [|? ? Ha Hall']; subst.
    rewrite (peek_cond_at path bs k lb r a Hn), Ha.
    simpl in Hr2.
    assert (Hr3 : (if int_of_char a =? NL then r + 1 else r) <= INT_MAX).
    { pose proof (row_after_le w (if int_of_char a =? NL then r + 1 else r)).
      lia. }
    unfold bind at 1.
    rewrite (chop_char_byte k lb r a Hn Hr1 Hr3).
    simpl in Hf.
    rewrite (IH fuel (S k) _ _ c rest Hs Hall' Hc); simpl.
    + do 2 f_equal. unfold lexer_at. do 2 f_equal. lia.
    + destruct (int_of_char a =? NL); lia.
    + exact Hr2.
    + lia.
Qed.

Lemma peek_cond_eof (P : Z -> bool) lb r :
  and_then source_good (x <- io peek ;; ret (P x))
           (lexer_at path bs (List.length bs) lb r)
  = Ok (P EOF, lexer_at_eof path bs lb r).
Proof.
  unfold and_then, bind, source_good, io, peek, sentry, good, sgetc, lexer_at,
    lexer_at_eof.
  simpl.
  replace (nth_error bs (List.length bs)) with (@None ascii)
    by (symmetry; apply nth_error_None; lia).
  reflexivity.
Qed.

Lemma chop_char_not_good lx :
  Lexer_good lx = false -> chop_char lx = Ok (tt, lx).
Proof.
  intros G. unfold chop_char, and_then, bind, source_good.
  unfold Lexer_good in G. rewrite G. reflexivity.
Qed.

(** The same loop when every byte up to the end of the file satisfies
    [P]. *)
Lemma chop_while_run_eof (P : Z -> bool) : forall w fuel k lb r,
  skipn k bs = w -> (k <= List.length bs)%nat ->
  Forall (fun a => P (int_of_char a) = true) w ->
  INT_MIN <= r -> row_after w r <= INT_MAX ->
  (S (List.length w) < fuel)%nat ->
  while_loop fuel (and_then source_good (x <- io peek ;; ret (P x))) chop_char
             (lexer_at path bs k lb r)
  = Ok (tt, lexer_at_eof path bs (line_begin_after w k lb) (row_after w r)).
Proof.
  induction w as [|a w IH]; intros fuel k lb r Hs Hk Hall Hr1 Hr2 Hf;
    (destruct fuel as [|fuel]; [simpl in Hf; lia|]);
    rewrite while_loop_S; unfold bind at 1.
  - assert (k = List.length bs) as ->.
    { pose proof (f_equal (@List.length ascii) Hs) as HL.
      rewrite length_skipn in HL. simpl in HL. lia. }
    rewrite peek_cond_eof. simpl.
    destruct (P EOF); [|reflexivity].
    unfold bind at 1. rewrite chop_char_not_good by reflexivity.
    destruct fuel as [|fuel]; [simpl in Hf; lia|].
    apply while_loop_not_good. reflexivity.
  - pose proof (skipn_length_lt _ _ _ _ Hs) as HL.
    apply skipn_cons_nth in Hs. destruct Hs as (Hn & Hs).
    apply Forall_cons_iff in Hall. destruct Hall as (Ha & Hall').
    rewrite (peek_cond_at path bs k lb r a Hn), Ha.
    simpl in Hr2.
    assert (Hr3 : (if int_of_char a =? NL then r + 1 else r) <= INT_MAX).
    { pose proof (row_after_le w (if int_of_char a =? NL then r + 1 else r)).
      lia. }
    unfold bind at 1.
    rewrite (chop_char_byte k lb r a Hn Hr1 Hr3).
    simpl in Hf.
    rewrite (IH fuel (S k) _ _ Hs); simpl; auto; try lia.
    destruct (int_of_char a =? NL); lia.
Qed.

Lemma span_Forall (P : Z -> bool) l :
  Forall (fun a => P (int_of_char a) = true) (span P l).
Proof.
  induction l as [|c l IH]; simpl; [constructor|].
  destruct (P (int_of_char c)) eqn:E; constructor; assumption.
Qed.

Lemma span_split (P : Z -> bool) l :
  l = span P l \/
  exists c rest, l = span P l ++ c :: rest /\ P (int_of_char c) = false.
Proof.
  induction l as [|c l IH]; simpl; [left; reflexivity|].
  destruct (P (int_of_char c)) eqn:E.
  - destruct IH as [IH | (c' & rest & IH & Hc)].
    + left. congruence.
    + right. exists c', rest. split; [simpl; congruence|exact Hc].
  - right. exists c, l. auto.
Qed.

(** A loop of the lexer, from any offset: it consumes the longest run of
    bytes that satisfy [P]. *)
Lemma chop_while_forward (P : Z -> bool) k lb r :
  (k <= List.length bs)%nat ->
  INT_MIN <= r -> row_after (span P (skipn k bs)) r <= INT_MAX ->
  while_ (and_then source_good (x <- io peek ;; ret (P x))) chop_char
         (lexer_at path bs k lb r)
  = Ok (tt, lexer_after path bs (k + List.length (span P (skipn k bs)))
                        (line_begin_after (span P (skipn k bs)) k lb)
                        (row_after (span P (skipn k bs)) r)).
Proof.
  intros Hk Hr1 Hr2. unfold while_. cbn [source lexer_at bytes].
  set (w := span P (skipn k bs)) in *.
  assert (HL : (List.length (skipn k bs) = List.length bs - k)%nat)
    by apply length_skipn.
  unfold lexer_after.
  destruct (span_split P (skipn k bs)) as [E | (c & rest & E & Hc)];
    fold w in E.
  - rewrite (chop_while_run_eof P w _ k lb r E Hk (span_Forall P _) Hr1 Hr2).
    + rewrite E in HL.
      replace (k + List.length w <? List.length bs)%nat with false
        by (symmetry; apply Nat.ltb_ge; lia).
      reflexivity.
    + rewrite E in HL. lia.
  - rewrite (chop_while_run P w _ k lb r c rest E (span_Forall P _) Hc Hr1 Hr2).
    + rewrite E, length_app in HL. simpl in HL.
      replace (k + List.length w <? List.length bs)%nat with true
        by (symmetry; apply Nat.ltb_lt; lia).
      reflexivity.
    + rewrite E, length_app in HL. simpl in HL. lia.
Qed.

Lemma chop_while_eof (P : Z -> bool) body lb r :
  while_ (and_then source_good (x <- io peek ;; ret (P x))) body
         (lexer_at_eof path bs lb r)
  = Ok (tt, lexer_at_eof path bs lb r).
Proof. apply while_not_good. reflexivity. Qed.

Lemma lexer_after_lt k lb r :
  (k < List.length bs)%nat -> lexer_after path bs k lb r = lexer_at path bs k lb r.
Proof.
  intros H. unfold lexer_after.
  replace (k <? List.length bs)%nat with true
    by (symmetry; apply Nat.ltb_lt; exact H).
  reflexivity.
Qed.

Lemma lexer_after_ge k lb r :
  (List.length bs <= k)%nat ->
  lexer_after path bs k lb r = lexer_at_eof path bs lb r.
Proof.
  intros H. unfold lexer_after.
  replace (k <? List.length bs)%nat with false
    by (symmetry; apply Nat.ltb_ge; exact H).
  reflexivity.
Qed.

(** [trim_left], from any offset. *)
Lemma trim_left_forward k lb r :
  (k <= List.length bs)%nat ->
  INT_MIN <= r -> row_after (span isspace (skipn k bs)) r <= INT_MAX ->
  trim_left (lexer_at path bs k lb r)
  = Ok (tt, lexer_after path bs (k + List.length (span isspace (skipn k bs)))
                        (line_begin_after (span isspace (skipn k bs)) k lb)
                        (row_after (span isspace (skipn k bs)) r)).
Proof. apply (chop_while_forward isspace). Qed.

End Run.

Lemma line_begin_after_app w1 : forall w2 k lb,
  line_begin_after (w1 ++ w2) k lb
  = line_begin_after w2 (k + List.length w1) (line_begin_after w1 k lb).
Proof.
  induction w1 as [|c w1 IH]; intros w2 k lb; simpl.
  - rewrite Nat.add_0_r. reflexivity.
  - rewrite IH. f_equal. lia.
Qed.

Lemma row_after_app w1 : forall w2 r,
  row_after (w1 ++ w2) r = row_after w2 (row_after w1 r).
Proof.
  induction w1 as [|c w1 IH]; intros w2 r; simpl; [reflexivity|apply IH].
Qed.

(** Bytes other than newlines leave the row and the line begin alone. *)
Lemma no_newline_after w :
  Forall (fun a => negb (int_of_char a =? NL) = true) w ->
  forall k lb r, line_begin_after w k lb = lb /\ row_after w r = r.
Proof.
  induction 1 as [|c w Hc _ IH]; intros k lb r; simpl; [auto|].
  apply negb_true_iff in Hc. rewrite Hc. apply IH.
Qed.

Lemma line_of_span l :
  line_of l = span (fun c => negb (c =? NL)) l \/
  exists c rest,
    l = span (fun c => negb (c =? NL)) l ++ c :: rest /\
    (int_of_char c =? NL) = true /\
    line_of l = span (fun c => negb (c =? NL)) l ++ [c].
Proof.
  induction l as [|c l IH]; simpl; [left; reflexivity|].
  destruct (int_of_char c =? NL) eqn:E; simpl.
  - right. exists c, l. auto.
  - destruct IH as [IH | (c' & rest & H1 & H2 & H3)].
    + left. congruence.
    + right. exists c', rest. repeat split; [congruence|exact H2|congruence].
Qed.

Lemma span_stop (P : Z -> bool) w c rest :
  Forall (fun a => P (int_of_char a) = true) w ->
  P (int_of_char c) = false ->
  span P (w ++ c :: rest) = w.
Proof.
  induction 1 as [|a w Ha _ IH]; intros Hc; simpl.
  - rewrite Hc. reflexivity.
  - rewrite Ha, IH by exact Hc. reflexivity.
Qed.

Lemma span_all (P : Z -> bool) w :
  Forall (fun a => P (int_of_char a) = true) w -> span P w = w.
Proof.
  induction 1 as [|a w Ha _ IH]; simpl; [reflexivity|].
  rewrite Ha, IH. reflexivity.
Qed.

Lemma skipn_decomp {A} (l : list A) k w rest :
  skipn k l = w ++ rest -> skipn (k + List.length w) l = rest.
Proof.
  intros H. rewrite Nat.add_comm, <- skipn_skipn, H.
  rewrite skipn_app, skipn_all, Nat.sub_diag. reflexivity.
Qed.

Lemma skipn_le {A} (l : list A) k a t :
  skipn k l = a :: t -> (k < List.length l)%nat.
Proof. intros H. pose proof (skipn_length_lt _ _ _ _ H). lia. Qed.

Lemma blank_len_spaces w : forall rest,
  Forall (fun a => isspace (int_of_char a) = true) w ->
  blank_len false (w ++ rest) = (List.length w + blank_len false rest)%nat.
Proof.
  induction w as [|a w IH]; intros rest H; simpl; [reflexivity|].
  apply Forall_cons_iff in H. destruct H as (Ha & H).
  rewrite Ha, IH by exact H. reflexivity.
Qed.

Lemma blank_len_comment w : forall c rest,
  Forall (fun a => negb (int_of_char a =? NL) = true) w ->
  (int_of_char c =? NL) = true ->
  blank_len true (w ++ c :: rest)
  = (List.length w + 1 + blank_len false rest)%nat.
Proof.
  induction w as [|a w IH]; intros c rest H Hc; simpl.
  - rewrite Hc. reflexivity.
  - apply Forall_cons_iff in H. destruct H as (Ha & H).
    rewrite Ha, (IH c rest H Hc). reflexivity.
Qed.

Lemma blank_len_comment_eof w :
  Forall (fun a => negb (int_of_char a =? NL) = true) w ->
  blank_len true w = List.length w.
Proof.
  induction 1 as [|a w Ha _ IH]; simpl; [reflexivity|].
  rewrite Ha, IH. reflexivity.
Qed.

Lemma span_skipn (P : Z -> bool) l :
  l = span P l ++ skipn (List.length (span P l)) l /\
  span P (skipn (List.length (span P l)) l) = [].
Proof.
  induction l as [|c l IH]; simpl; [auto|].
  destruct (P (int_of_char c)) eqn:E; simpl.
  - destruct IH as (IH1 & IH2). split; [congruence|exact IH2].
  - rewrite E. auto.
Qed.

Lemma hash_not_newline c :
  (int_of_char c =? HASH) = true -> (int_of_char c =? NL) = false.
Proof.
  intros H. apply Z.eqb_eq in H. rewrite H. reflexivity.
Qed.

Lemma hash_not_space c :
  (int_of_char c =? HASH) = true -> isspace (int_of_char c) = false.
Proof.
  intros H. apply Z.eqb_eq in H. rewrite H. reflexivity.
Qed.

Lemma blank_len_done : forall l ic,
  blank_len false (skipn (blank_len ic l) l) = O.
Proof.
  induction l as [|c l IH]; intros ic; [destruct ic; reflexivity|].
  destruct ic; cbn [blank_len].
  - cbn [skipn]. apply IH.
  - destruct (isspace (int_of_char c)) eqn:Es; [cbn [skipn]; apply IH|].
    destruct (int_of_char c =? HASH) eqn:Eh; [cbn [skipn]; apply IH|].
    cbn [skipn blank_len]. rewrite Es, Eh. reflexivity.
Qed.

Lemma blank_len_le : forall l ic, (blank_len ic l <= List.length l)%nat.
Proof.
  induction l as [|c l IH]; intros ic; [destruct ic; simpl; lia|].
  destruct ic; cbn [blank_len List.length].
  - specialize (IH (negb (int_of_char c =? NL))). lia.
  - destruct (isspace (int_of_char c)); [specialize (IH false); lia|].
    destruct (int_of_char c =? HASH); [specialize (IH true); lia|lia].
Qed.

Lemma row_after_bound w : forall r, row_after w r <= r + Z.of_nat (List.length w).
Proof.
  induction w as [|c w IH]; intros r; cbn [row_after List.length]; [lia|].
  destruct (int_of_char c =? NL); [specialize (IH (r + 1))|specialize (IH r)];
    lia.
Qed.

Section Blank.
Variables (path : string) (bs : list ascii).
Hypothesis Hfit : fits_int bs.

(** [drop_line] on a line that ends with a newline: the newline is
    consumed too. *)
Lemma drop_line_newline k lb r w c rest :
  skipn k bs = w ++ c :: rest ->
  Forall (fun a => negb (int_of_char a =? NL) = true) w ->
  (int_of_char c =? NL) = true ->
  INT_MIN <= r -> r + 1 <= INT_MAX ->
  drop_line (lexer_at path bs k lb r)
  = Ok (tt, lexer_at path bs (k + List.length w + 1)
              (Z.of_nat (k + List.length w) + 2) (r + 1)).
Proof.
  intros Hs Hw Hc Hr1 Hr2.
  assert (Hk : (k <= List.length bs)%nat).
  { destruct w; simpl in Hs; apply skipn_le in Hs; lia. }
  assert (Hsp : span (fun x => negb (x =? NL)) (skipn k bs) = w).
  { rewrite Hs. apply span_stop; [exact Hw|]. rewrite Hc. reflexivity. }
  destruct (no_newline_after w Hw k lb r) as (Hlb & Hr).
  pose proof (skipn_decomp _ _ _ _ Hs) as Hs2.
  pose proof (skipn_cons_nth _ _ _ _ Hs2) as (Hn & _).
  pose proof (skipn_le _ _ _ _ Hs2) as Hlt.
  unfold drop_line.
  rewrite (bind_run _ _ _ _ _
             (chop_while_forward path bs Hfit (fun x => negb (x =? NL))
                                 k lb r Hk Hr1 ltac:(rewrite Hsp, Hr; lia))).
  rewrite Hsp, Hlb, Hr, lexer_after_lt by exact Hlt.
  rewrite (bind_run source_good _
                    (lexer_at path bs (k + List.length w) lb r) true
                    (lexer_at path bs (k + List.length w) lb r) eq_refl).
  rewrite (chop_char_byte path bs Hfit _ lb r c Hn Hr1); rewrite Hc.
  - do 2 f_equal. unfold lexer_at. f_equal. f_equal. lia.
  - exact Hr2.
Qed.

(** [drop_line] on a last line that has no newline. *)
Lemma drop_line_eof k lb r :
  (k <= List.length bs)%nat ->
  Forall (fun a => negb (int_of_char a =? NL) = true) (skipn k bs) ->
  INT_MIN <= r -> r <= INT_MAX ->
  drop_line (lexer_at path bs k lb r) = Ok (tt, lexer_at_eof path bs lb r).
Proof.
  intros Hk Hw Hr1 Hr2.
  assert (Hsp : span (fun x => negb (x =? NL)) (skipn k bs) = skipn k bs)
    by (apply span_all; exact Hw).
  destruct (no_newline_after _ Hw k lb r) as (Hlb & Hr).
  unfold drop_line.
  rewrite (bind_run _ _ _ _ _
             (chop_while_forward path bs Hfit (fun x => negb (x =? NL))
                                 k lb r Hk Hr1 ltac:(rewrite Hsp, Hr; lia))).
  rewrite Hsp, Hlb, Hr, lexer_after_ge by (rewrite length_skipn; lia).
  reflexivity.
Qed.

(** The body of the loop of lines 84-87, on a comment whose line ends
    with a newline. *)
Lemma comment_loop : forall n l k lb r fuel,
  (List.length l <= n)%nat ->
  skipn k bs = l -> (k <= List.length bs)%nat ->
  span isspace l = [] ->
  INT_MIN <= r ->
  row_after (firstn (blank_len false l) l) r <= INT_MAX ->
  (n < fuel)%nat ->
  while_loop fuel (and_then source_good (x <- io peek ;; ret (x =? HASH)))
             (drop_line ;; trim_left) (lexer_after path bs k lb r)
  = Ok (tt, lexer_after path bs (k + blank_len false l)
              (line_begin_after (firstn (blank_len false l) l) k lb)
              (row_after (firstn (blank_len false l) l) r)).
Proof.
  induction n as [|n IH]; intros l k lb r fuel Hn Hs Hk Hsp Hr1 Hr2 Hf;
    (destruct fuel as [|fuel]; [lia|]).
  - destruct l; [|simpl in Hn; lia].
    assert (k = List.length bs) as ->.
    { pose proof (f_equal (@List.length ascii) Hs) as HL.
      rewrite length_skipn in HL. simpl in HL. lia. }
    simpl. rewrite Nat.add_0_r, lexer_after_ge by lia.
    apply while_loop_not_good. reflexivity.
  - destruct l as [|c t].
    { assert (k = List.length bs) as ->.
      { pose proof (f_equal (@List.length ascii) Hs) as HL.
        rewrite length_skipn in HL. simpl in HL. lia. }
      simpl. rewrite Nat.add_0_r, lexer_after_ge by lia.
      apply while_loop_not_good. reflexivity. }
    pose proof (skipn_le _ _ _ _ Hs) as Hlt.
    pose proof (skipn_cons_nth _ _ _ _ Hs) as (Hnth & Hst).
    assert (Hc_sp : isspace (int_of_char c) = false).
    { simpl in Hsp. destruct (isspace (int_of_char c)); [discriminate|auto]. }
    rewrite lexer_after_lt by exact Hlt.
    rewrite while_loop_S. unfold bind at 1.
    rewrite (peek_cond_at path bs k lb r c Hnth).
    destruct (int_of_char c =? HASH) eqn:Eh.
    2:{ simpl. rewrite Hc_sp, Eh. simpl.
        rewrite Nat.add_0_r, lexer_after_lt by exact Hlt. reflexivity. }
    pose proof (hash_not_newline _ Eh) as Enl.
    assert (Hbl : blank_len false (c :: t) = S (blank_len true t)).
    { simpl. rewrite Hc_sp, Eh. reflexivity. }
    unfold bind at 1. unfold bind at 1.
    destruct (span_split (fun x => negb (x =? NL)) (c :: t))
      as [E | (d & rest & E & Hd)].
    + (* the comment runs to the end of the file *)
      assert (Hall : Forall (fun a => negb (int_of_char a =? NL) = true)
                            (c :: t))
        by (rewrite E; exact (span_Forall (fun x => negb (x =? NL)) _)).
      assert (Hbt : blank_len true t = List.length t).
      { apply blank_len_comment_eof.
        apply Forall_cons_iff in Hall. tauto. }
      rewrite Hbl, Hbt in *.
      change (S (List.length t)) with (List.length (c :: t)) in *.
      rewrite firstn_all in *.
      destruct (no_newline_after _ Hall k lb r) as (Hlb & Hr).
      rewrite Hlb, Hr in *.
      rewrite drop_line_eof; [|lia|rewrite Hs; exact Hall|exact Hr1|exact Hr2].
      unfold trim_left. rewrite chop_while_eof.
      pose proof (skipn_length_lt _ _ _ _ Hs) as HL.
      rewrite lexer_after_ge by (simpl; lia).
      destruct fuel as [|fuel]; [lia|].
      apply while_loop_not_good. reflexivity.
    + (* the comment ends with a newline *)
      set (w := span (fun x => negb (x =? NL)) (c :: t)) in *.
      assert (Hw : Forall (fun a => negb (int_of_char a =? NL) = true) w)
        by exact (span_Forall (fun x => negb (x =? NL)) _).
      apply negb_false_iff in Hd.
      assert (Hw1 : exists w', w = c :: w').
      { unfold w. simpl. rewrite Enl. simpl. eauto. }
      destruct Hw1 as (w' & Hw1).
      assert (Et : t = w' ++ d :: rest).
      { rewrite Hw1 in E. simpl in E. inversion E. reflexivity. }
      assert (Hw' : Forall (fun a => negb (int_of_char a =? NL) = true) w').
      { rewrite Hw1 in Hw. apply Forall_cons_iff in Hw. tauto. }
      destruct (span_skipn isspace rest) as (Er & Hsp2).
      set (ws := span isspace rest) in *.
      set (l2 := skipn (List.length ws) rest) in *.
      assert (Hws : Forall (fun a => isspace (int_of_char a) = true) ws)
        by apply span_Forall.
      assert (Hb : blank_len false (c :: t)
                   = (List.length w + 1 + List.length ws
                      + blank_len false l2)%nat).
      { rewrite Hbl, Et, (blank_len_comment w' d rest Hw' Hd), Er.
        rewrite (blank_len_spaces ws l2 Hws), Hw1. simpl. lia. }
      assert (Hl : c :: t = (w ++ [d] ++ ws) ++ l2).
      { rewrite E. rewrite <- !app_assoc. simpl. rewrite <- Er. reflexivity. }
      assert (Hseg : firstn (blank_len false (c :: t)) (c :: t)
                     = (w ++ [d] ++ ws) ++ firstn (blank_len false l2) l2).
      { rewrite Hb. rewrite Hl at 1.
        replace (List.length w + 1 + List.length ws + blank_len false l2)%nat
          with (List.length (w ++ [d] ++ ws) + blank_len false l2)%nat
          by (rewrite !length_app; simpl; lia).
        apply firstn_app_2. }
      rewrite Hseg in *.
      rewrite !line_begin_after_app, !row_after_app in *.
      destruct (no_newline_after w Hw k lb r) as (Hlb & Hr).
      rewrite Hlb, Hr in *. cbn [line_begin_after row_after] in *.
      rewrite Hd in *.
      pose proof (row_after_le ws (r + 1)) as Hle1.
      pose proof (row_after_le (firstn (blank_len false l2) l2)
                               (row_after ws (r + 1))) as Hle2.
      rewrite <- Hs in E.
      rewrite (drop_line_newline k lb r w d rest E Hw Hd Hr1 ltac:(lia)).
      pose proof (skipn_decomp _ _ _ _ E) as Hs1.
      assert (Hs1' : skipn (k + List.length w + 1) bs = rest).
      { rewrite Nat.add_1_r, <- Nat.add_succ_r.
        destruct (skipn_cons_nth _ _ _ _ Hs1) as (_ & H1).
        rewrite Nat.add_succ_r. exact H1. }
      assert (Hk1 : (k + List.length w + 1 <= List.length bs)%nat).
      { pose proof (skipn_length_lt _ _ _ _ Hs1). lia. }
      assert (Hr1' : INT_MIN <= r + 1) by lia.
      rewrite (trim_left_forward path bs Hfit (k + List.length w + 1)
                 (Z.of_nat (k + List.length w) + 2) (r + 1) Hk1 Hr1');
        rewrite Hs1'; fold ws; [|lia].
      assert (Hs2 : skipn (k + List.length w + 1 + List.length ws) bs = l2).
      { apply skipn_decomp. rewrite Hs1'. exact Er. }
      assert (Hlen : (List.length (c :: t)
                      = List.length w + 1 + List.length ws
                        + List.length l2)%nat).
      { rewrite Hl at 1. rewrite !length_app. simpl. lia. }
      rewrite (IH l2 _ _ _ fuel); try assumption; try lia.
      * rewrite Hb, !length_app. cbn [List.length].
        do 2 f_equal. f_equal; try lia. f_equal; lia.
      * pose proof (skipn_length_lt _ _ _ _ Hs) as HL2.
        simpl in Hlen. lia.
Qed.

Lemma lexer_after_bytes k lb r :
  bytes (source (lexer_after path bs k lb r)) = bs.
Proof. unfold lexer_after. destruct (k <? List.length bs)%nat; reflexivity. Qed.

(** Lines 82-87, from any offset: the white space and the comments in
    front of a token are consumed, as many bytes as [blank_len] counts,
    and the row and the line begin follow the newlines among them. *)
Lemma skip_blank_forward k lb r :
  (k <= List.length bs)%nat ->
  INT_MIN <= r ->
  row_after (firstn (blank_len false (skipn k bs)) (skipn k bs)) r
    <= INT_MAX ->
  skip_blank (lexer_at path bs k lb r)
  = Ok (tt,
        lexer_after path bs (k + blank_len false (skipn k bs))
          (line_begin_after
             (firstn (blank_len false (skipn k bs)) (skipn k bs)) k lb)
          (row_after
             (firstn (blank_len false (skipn k bs)) (skipn k bs)) r)).
Proof.
  intros Hk Hr1 Hr2.
  destruct (span_skipn isspace (skipn k bs)) as (El & Hsp).
  set (ws := span isspace (skipn k bs)) in *.
  set (l1 := skipn (List.length ws) (skipn k bs)) in *.
  assert (Hws : Forall (fun a => isspace (int_of_char a) = true) ws)
    by exact (span_Forall isspace _).
  assert (Hb : blank_len false (skipn k bs)
               = (List.length ws + blank_len false l1)%nat).
  { rewrite El at 1. apply blank_len_spaces. exact Hws. }
  assert (Hseg : firstn (blank_len false (skipn k bs)) (skipn k bs)
                 = ws ++ firstn (blank_len false l1) l1).
  { rewrite Hb. rewrite El at 1. apply firstn_app_2. }
  rewrite Hseg in *. rewrite line_begin_after_app, row_after_app in *.
  pose proof (row_after_le (firstn (blank_len false l1) l1) (row_after ws r)).
  unfold skip_blank.
  rewrite (bind_run _ _ _ _ _
             (trim_left_forward path bs Hfit k lb r Hk Hr1 ltac:(fold ws; lia))).
  fold ws. unfold while_. rewrite lexer_after_bytes.
  assert (Hs1 : skipn (k + List.length ws) bs = l1)
    by (apply skipn_decomp; exact El).
  pose proof (f_equal (@List.length ascii) El) as HL.
  rewrite length_app, length_skipn in HL.
  rewrite (comment_loop (List.length l1) l1); try assumption; try lia.
  - rewrite Hb. do 2 f_equal. f_equal. lia.
  - pose proof (row_after_le ws r). lia.
Qed.

(** After the white space and the comments, [skip_blank] has nothing
    left to do. *)
Lemma skip_blank_done k lb r :
  (k <= List.length bs)%nat ->
  blank_len false (skipn k bs) = O ->
  INT_MIN <= r -> r <= INT_MAX ->
  skip_blank (lexer_after path bs k lb r)
  = Ok (tt, lexer_after path bs k lb r).
Proof.
  intros Hk Hb Hr1 Hr2.
  destruct (Nat.lt_ge_cases k (List.length bs)) as [Hlt | Hge].
  - rewrite lexer_after_lt by exact Hlt.
    rewrite (skip_blank_forward k lb r Hk Hr1); rewrite Hb; simpl.
    + rewrite Nat.add_0_r, lexer_after_lt by exact Hlt. reflexivity.
    + exact Hr2.
  - rewrite lexer_after_ge by exact Hge.
    unfold skip_blank, trim_left.
    rewrite (bind_run _ _ _ _ _ (chop_while_eof path bs isspace _ lb r)).
    apply while_not_good. reflexivity.
Qed.

End Blank.

(** ** White space and comments *)

(** Lines 82-87 in front of a token. *)
Lemma next_token_past_blanks path bs k lb r :
  fits_int bs ->
  (k <= List.length bs)%nat ->
  INT_MIN <= r ->
  row_after (firstn (blank_len false (skipn k bs)) (skipn k bs)) r
    <= INT_MAX ->
  next_token (lexer_at path bs k lb r)
  = next_token
      (lexer_after path bs (k + blank_len false (skipn k bs))
         (line_begin_after
            (firstn (blank_len false (skipn k bs)) (skipn k bs)) k lb)
         (row_after
            (firstn (blank_len false (skipn k bs)) (skipn k bs)) r)).
Proof.
  intros Hfit Hk Hr1 Hr2.
  set (b := blank_len false (skipn k bs)) in *.
  set (seg := firstn b (skipn k bs)) in *.
  pose proof (row_after_le seg r) as Hle.
  assert (Hb : (b <= List.length (skipn k bs))%nat)
    by apply blank_len_le.
  rewrite length_skipn in Hb.
  assert (Hk2 : (k + b <= List.length bs)%nat) by lia.
  assert (Hd : blank_len false (skipn (k + b) bs) = O).
  { unfold b. rewrite Nat.add_comm, <- skipn_skipn. apply blank_len_done. }
  assert (Hr3 : INT_MIN <= row_after seg r) by lia.
  unfold next_token.
  rewrite (bind_run _ _ _ _ _
             (skip_blank_forward path bs Hfit k lb r Hk Hr1 Hr2)).
  fold b seg.
  rewrite (bind_run _ _ _ _ _
             (skip_blank_done path bs Hfit (k + b) _ _ Hk2 Hd Hr3 Hr2)).
  reflexivity.
Qed.

(** X1.  White space and comments in front of a token change nothing but
    the location: a call of [next_token] at offset [k] returns what a
    call returns at the end of the white space and comments that start
    at [k], with the row and the line begin that the newlines among them
    give. *)
Theorem blanks_are_transparent path bs k lb r :
  fits_int bs ->
  (k <= List.length bs)%nat ->
  INT_MIN <= r ->
  row_after (firstn (blank_len false (skipn k bs)) (skipn k bs)) r
    <= INT_MAX ->
  next_token (lexer_at path bs k lb r)
  = next_token
      (lexer_after path bs (k + blank_len false (skipn k bs))
         (line_begin_after
            (firstn (blank_len false (skipn k bs)) (skipn k bs)) k lb)
         (row_after
            (firstn (blank_len false (skipn k bs)) (skipn k bs)) r)).
Proof. exact (next_token_past_blanks path bs k lb r). Qed.

Lemma blanks_are_transparent_witness :
  let bs := (file "  # c" ++ [LF] ++ file "x;")%list in
  (fits_int bs /\ (0 <= List.length bs)%nat /\ INT_MIN <= 0 /\
   row_after (firstn (blank_len false (skipn 0 bs)) (skipn 0 bs)) 0
     <= INT_MAX) /\
  next_token (lexer_at "a.vcl" bs 0 0 0)
  = next_token (lexer_after "a.vcl" bs 6 7 1).
Proof.
  intros bs.
  assert (H1 : fits_int bs) by reflexivity.
  assert (H2 : (0 <= List.length bs)%nat) by (simpl; lia).
  assert (H3 : INT_MIN <= 0) by (unfold INT_MIN; lia).
  assert (H4 : row_after (firstn (blank_len false (skipn 0 bs)) (skipn 0 bs)) 0
               <= INT_MAX) by (vm_compute; discriminate).
  split; [exact (conj H1 (conj H2 (conj H3 H4)))|].
  exact (blanks_are_transparent "a.vcl" bs 0 0 0 H1 H2 H3 H4).
Defined.

(** ** Reading a run back *)

Lemma nth_error_skipn_cons {A} (l : list A) : forall k a,
  nth_error l k = Some a -> skipn k l = a :: skipn (S k) l.
Proof.
  induction l as [|x l IH]; intros k a H.
  - destruct k; discriminate.
  - destruct k as [|k]; simpl in *.
    + inversion H. reflexivity.
    + apply IH. exact H.
Qed.

Lemma extract_forward (bs : list ascii) (d : Z) (e f : bool) : forall m k,
  extract m d (mkStream bs k e f)
  = (span (not_byte d) (firstn m (skipn k bs)),
     mkStream bs (k + List.length (span (not_byte d) (firstn m (skipn k bs))))
              e f).
Proof.
  induction m as [|m IH]; intros k.
  - simpl. rewrite Nat.add_0_r. reflexivity.
  - cbn [extract bytes gptr].
    destruct (nth_error bs k) as [c|] eqn:En.
    + rewrite (nth_error_skipn_cons _ _ _ En). cbn [firstn span].
      unfold not_byte at 1 3. destruct (int_of_char c =? d); cbn [negb].
      * simpl. rewrite Nat.add_0_r. reflexivity.
      * unfold gbump. cbn [bytes gptr eofbit failbit].
        rewrite IH. cbn [List.length].
        rewrite Nat.add_succ_r. reflexivity.
    + apply nth_error_None in En. rewrite skipn_all2 by exact En.
      rewrite firstn_nil. simpl. rewrite Nat.add_0_r. reflexivity.
Qed.

Lemma span_length_le (P : Z -> bool) l : (List.length (span P l) <= List.length l)%nat.
Proof.
  induction l as [|c l IH]; simpl; [lia|].
  destruct (P (int_of_char c)); simpl; lia.
Qed.

Section ReadBack.
Variables (path : string) (bs : list ascii).
Hypothesis Hfit : fits_int bs.

Lemma io_tellg_at k lb r :
  io tellg (lexer_at path bs k lb r) = Ok (Z.of_nat k, lexer_at path bs k lb r).
Proof. reflexivity. Qed.

Lemma io_seekg_at k j lb r :
  io_ (seekg (Z.of_nat k)) (lexer_at path bs j lb r)
  = Ok (tt, lexer_at path bs k lb r).
Proof.
  unfold io_, io, seekg, sentry, good, lexer_at. simpl.
  replace (Z.of_nat k <? 0) with false by (symmetry; apply Z.ltb_ge; lia).
  rewrite Nat2Z.id. reflexivity.
Qed.

(** Lines 101-108: the bytes [body] that the loop ran over, from offset
    [k] up to a byte that stopped it, are read again up to their first
    NUL; when there is none before it, nothing is stored and the stream
    fails. *)
Lemma read_back_forward k lb r body c rest :
  skipn k bs = body ++ c :: rest ->
  read_back (Z.of_nat (k + List.length body) - Z.of_nat k + 1)
            (lexer_at path bs k lb r)
  = Ok (span (not_byte 0) body,
        match span (not_byte 0) body with
        | [] => lexer_failed path bs k lb r
        | _ => lexer_at path bs (k + List.length (span (not_byte 0) body)) lb r
        end).
Proof.
  intros Hs.
  pose proof (skipn_decomp _ _ _ _ Hs) as Hs2.
  pose proof (skipn_le _ _ _ _ Hs2) as Hlt.
  pose proof (span_length_le (not_byte 0) body) as Hle.
  unfold fits_int in Hfit.
  replace (Z.of_nat (k + List.length body) - Z.of_nat k + 1)
    with (Z.of_nat (List.length body) + 1) by lia.
  unfold read_back.
  assert (Hcast : static_cast_int (Z.of_nat (List.length body) + 1)
                  = Z.of_nat (List.length body) + 1)
    by (apply static_cast_int_small; lia).
  assert (Hin : in_int (Z.of_nat (List.length body) + 1 + 1) = true).
  { unfold in_int, INT_MIN, INT_MAX.
    apply andb_true_intro. split; apply Z.leb_le; lia. }
  unfold int_arith. rewrite Hcast, Hin.
  rewrite (bind_run (ret _) _ _ _ _ eq_refl).
  replace (Z.of_nat (List.length body) + 1 + 1 <? 0) with false
    by (symmetry; apply Z.ltb_ge; lia).
  unfold bind, io, get_buf, sentry, good, lexer_at. cbn [source eofbit failbit].
  cbn [negb andb].
  replace (Z.to_nat (Z.of_nat (List.length body) + 1 - 1))
    with (List.length body) by lia.
  rewrite extract_forward.
  assert (Hfirst : firstn (List.length body) (skipn k bs) = body).
  { rewrite Hs. rewrite <- (Nat.add_0_r (List.length body)).
    rewrite firstn_app_2. simpl. apply app_nil_r. }
  rewrite Hfirst.
  set (tx := span (not_byte 0) body) in *.
  assert (Hnext : exists b, nth_error bs (k + List.length tx) = Some b).
  { destruct (nth_error bs (k + List.length tx)) eqn:E; [eauto|].
    apply nth_error_None in E. lia. }
  destruct Hnext as (b & Hb).
  unfold sgetc. cbn [bytes gptr]. rewrite Hb, int_of_char_not_EOF.
  replace (0 <? Z.of_nat (List.length body) + 1) with true
    by (symmetry; apply Z.ltb_lt; lia).
  unfold c_str.
  replace (Z.of_nat (List.length tx) <? Z.of_nat (List.length body) + 1 + 1)
    with true by (symmetry; apply Z.ltb_lt; lia).
  destruct tx as [|t0 tx'] eqn:Etx.
  - simpl. rewrite Nat.add_0_r. reflexivity.
  - reflexivity.
Qed.

End ReadBack.

(** ** The token at a byte *)

Lemma int_of_char_lt c : int_of_char c < 256.
Proof.
  unfold int_of_char. pose proof (nat_ascii_bounded c). lia.
Qed.

Lemma static_cast_char_byte c :
  static_cast_char (int_of_char c)
  = if int_of_char c <? 128 then int_of_char c else int_of_char c - 256.
Proof.
  pose proof (int_of_char_nonneg c). pose proof (int_of_char_lt c).
  unfold static_cast_char.
  destruct (int_of_char c <? 128) eqn:E.
  - apply Z.ltb_lt in E. rewrite Z.mod_small; lia.
  - apply Z.ltb_ge in E.
    replace (int_of_char c + 128) with (int_of_char c - 128 + 1 * 256) by lia.
    rewrite Z.mod_add by lia. rewrite Z.mod_small; lia.
Qed.

(** What the class of the first byte of a token says about the byte. *)
Lemma class_cases c (P : Z -> bool) (lo hi : Z) :
  0 <= lo -> hi < 128 ->
  (forall x, P x = true -> lo <= x <= hi) ->
  P (static_cast_char (int_of_char c)) = true ->
  static_cast_char (int_of_char c) = int_of_char c /\
  lo <= int_of_char c <= hi.
Proof.
  intros Hlo Hhi HP H. pose proof (int_of_char_nonneg c).
  pose proof (int_of_char_lt c).
  specialize (HP _ H). rewrite static_cast_char_byte in *.
  destruct (int_of_char c <? 128) eqn:E; [auto|].
  apply Z.ltb_ge in E. lia.
Qed.

Lemma in_range_iff lo hi x : in_range lo hi x = true <-> lo <= x <= hi.
Proof.
  unfold in_range. rewrite andb_true_iff, !Z.leb_le. tauto.
Qed.

Lemma isalpha_range x : isalpha x = true -> 65 <= x <= 122.
Proof.
  unfold isalpha. rewrite orb_true_iff, !in_range_iff. lia.
Qed.

Lemma isdigit_range x : isdigit x = true -> 48 <= x <= 57.
Proof. unfold isdigit. rewrite in_range_iff. lia. Qed.

Lemma isalnum_range x : isalnum x = true -> 48 <= x <= 122.
Proof.
  unfold isalnum. rewrite orb_true_iff.
  intros [H | H]; [apply isalpha_range in H|apply isdigit_range in H]; lia.
Qed.

Lemma not_space_range x : 33 <= x -> isspace x = false.
Proof.
  intros H. unfold isspace, in_range.
  apply orb_false_iff. split; [apply Z.eqb_neq; lia|].
  apply andb_false_iff. right. apply Z.leb_gt. lia.
Qed.

Lemma in_int_iff z : in_int z = true <-> INT_MIN <= z <= INT_MAX.
Proof. unfold in_int. rewrite andb_true_iff, !Z.leb_le. tauto. Qed.

Section Tokens.
Variables (path : string) (bs : list ascii).
Hypothesis Hfit : fits_int bs.
Variables (k : nat) (lb r : Z) (c : ascii).
Hypothesis Hbyte : nth_error bs k = Some c.
Hypothesis Hcol : INT_MIN <= Z.of_nat k - lb <= INT_MAX.

Lemma offset_fits : static_cast_int (Z.of_nat k) = Z.of_nat k.
Proof.
  assert (k < List.length bs)%nat by (apply nth_error_Some; congruence).
  unfold fits_int in Hfit. apply static_cast_int_small. lia.
Qed.

(** Lines 82-95 at a byte that is neither white space nor [#]: the
    location is taken and the byte is classified. *)
Lemma next_token_classify :
  isspace (int_of_char c) = false ->
  (int_of_char c =? HASH) = false ->
  next_token (lexer_at path bs k lb r)
  = (let x := static_cast_char (int_of_char c) in
     let loc := mkLocation path r (Z.of_nat k - lb) in
     if isalpha x then t <- lex_identity loc ;; ret (Some t)
     else if is_in_token_map x then t <- lex_punct x loc ;; ret (Some t)
     else if isdigit x then t <- lex_number loc ;; ret (Some t)
     else if x =? QUOTE then t <- lex_string loc ;; ret (Some t)
     else fault AssertNotImplemented) (lexer_at path bs k lb r).
Proof.
  intros Hsp Hh.
  assert (Hin : in_int (static_cast_int (Z.of_nat k) - lb) = true)
    by (rewrite offset_fits; apply in_int_iff; exact Hcol).
  unfold next_token.
  rewrite (bind_run _ _ _ _ _ (skip_blank_at path bs k lb r c Hbyte Hsp Hh)).
  rewrite (bind_run source_good _ (lexer_at path bs k lb r) true
                    (lexer_at path bs k lb r) eq_refl).
  cbn [negb].
  rewrite (bind_run _ _ _ _ _ (current_location_at path bs k lb r Hin)).
  rewrite (bind_run _ _ _ _ _ (io_peek_at path bs k lb r c Hbyte)).
  rewrite offset_fits. reflexivity.
Qed.

(** A byte that starts no token: the assertion of line 155 fails. *)
Lemma unknown_byte_at :
  isspace (int_of_char c) = false ->
  (int_of_char c =? HASH) = false ->
  isalpha (static_cast_char (int_of_char c)) = false ->
  is_in_token_map (static_cast_char (int_of_char c)) = false ->
  isdigit (static_cast_char (int_of_char c)) = false ->
  (static_cast_char (int_of_char c) =? QUOTE) = false ->
  next_token (lexer_at path bs k lb r) = Err AssertNotImplemented.
Proof.
  intros Hsp Hh Ha Hm Hd Hq. rewrite (next_token_classify Hsp Hh).
  cbv zeta. rewrite Ha, Hm, Hd, Hq. reflexivity.
Qed.

End Tokens.

Lemma span_nonempty (P : Z -> bool) c l :
  P (int_of_char c) = true -> exists w', span P (c :: l) = c :: w'.
Proof. intros H. simpl. rewrite H. eauto. Qed.

Lemma Forall_impl_bytes (P Q : Z -> bool) w :
  (forall x, P x = true -> Q x = true) ->
  Forall (fun a => P (int_of_char a) = true) w ->
  Forall (fun a => Q (int_of_char a) = true) w.
Proof. intros H. apply Forall_impl. intros a. apply H. Qed.

Lemma alnum_not_newline x : isalnum x = true -> negb (x =? NL) = true.
Proof.
  intros H. apply isalnum_range in H. apply negb_true_iff, Z.eqb_neq.
  unfold NL. lia.
Qed.

Lemma alnum_not_nul x : isalnum x = true -> not_byte 0 x = true.
Proof.
  intros H. apply isalnum_range in H. apply negb_true_iff, Z.eqb_neq. lia.
Qed.

Lemma digit_alnum x : isdigit x = true -> isalnum x = true.
Proof. intros H. unfold isalnum. rewrite H. apply orb_true_r. Qed.

Section Names.
Variables (path : string) (bs : list ascii).
Hypothesis Hfit : fits_int bs.
Variables (k : nat) (lb r : Z) (c : ascii).
Hypothesis Hbyte : nth_error bs k = Some c.
Hypothesis Hrow : INT_MIN <= r <= INT_MAX.

(** Lines 98-108 and 120-128 for a run of letters and digits: when the
    run [w] that starts at offset [k] stops before the end of the file,
    it is read back whole and the lexer is left behind it. *)
Lemma rescan_run (P : Z -> bool) {A} (cont : list ascii -> M A) (w : list ascii) :
  (forall x, P x = true -> isalnum x = true) ->
  P (int_of_char c) = true ->
  w = span P (skipn k bs) ->
  (k + List.length w < List.length bs)%nat ->
  (start <- io tellg ;;
   while_ (and_then source_good (x <- io peek ;; ret (P x))) chop_char ;;
   e <- io tellg ;;
   let n := e - start + 1 in
   io_ (seekg start) ;;
   buf <- read_back n ;;
   cont buf) (lexer_at path bs k lb r)
  = cont w (lexer_at path bs (k + List.length w) lb r).
Proof.
  intros HP Hc Hw Hlt.
  assert (Hk : (k <= List.length bs)%nat) by lia.
  pose proof (span_Forall P (skipn k bs)) as Hall. rewrite <- Hw in Hall.
  assert (Hnl : Forall (fun a => negb (int_of_char a =? NL) = true) w).
  { revert Hall. apply Forall_impl. intros a Ha.
    apply alnum_not_newline, HP, Ha. }
  assert (Hnul : Forall (fun a => not_byte 0 (int_of_char a) = true) w).
  { revert Hall. apply Forall_impl. intros a Ha.
    apply alnum_not_nul, HP, Ha. }
  destruct (no_newline_after w Hnl k lb r) as (Hlb & Hr).
  assert (Hsplit : exists d rest, skipn k bs = w ++ d :: rest).
  { destruct (span_split P (skipn k bs)) as [E | (d & rest & E & _)];
      rewrite <- Hw in E; [|eauto].
    pose proof (f_equal (@List.length ascii) E) as HL.
    rewrite length_skipn in HL. lia. }
  destruct Hsplit as (d & rest & Hs).
  assert (Hne : exists w', w = c :: w').
  { rewrite Hw, (nth_error_skipn_cons _ _ _ Hbyte).
    apply span_nonempty. exact Hc. }
  destruct Hne as (w' & Hne).
  rewrite (bind_run _ _ _ _ _ (io_tellg_at path bs k lb r)).
  rewrite (bind_run _ _ _ _ _
             (chop_while_forward path bs Hfit P k lb r Hk (proj1 Hrow)
                ltac:(rewrite <- Hw, Hr; exact (proj2 Hrow)))).
  rewrite <- Hw, Hlb, Hr, lexer_after_lt by exact Hlt.
  rewrite (bind_run _ _ _ _ _ (io_tellg_at path bs _ lb r)).
  cbv zeta.
  rewrite (bind_run _ _ _ _ _ (io_seekg_at path bs k _ lb r)).
  rewrite (bind_run _ _ _ _ _
             (read_back_forward path bs Hfit k lb r w d rest Hs)).
  rewrite (span_all _ _ Hnul). rewrite Hne at 2. reflexivity.
Qed.

End Names.

Lemma digits_value_nonneg w : forall acc, 0 <= acc -> 0 <= digits_value acc w.
Proof.
  induction w as [|c w IH]; intros acc H; cbn [digits_value]; [exact H|].
  destruct (isdigit (int_of_char c)) eqn:E; [|exact H].
  apply IH. apply isdigit_range in E. lia.
Qed.

Lemma digit_not_in_map x : 48 <= x <= 57 -> is_in_token_map x = false.
Proof.
  intros H. unfold is_in_token_map, token_type_map, map_find.
  repeat match goal with
         | |- context [?a =? x] =>
             replace (a =? x) with false by (symmetry; apply Z.eqb_neq; lia)
         end.
  reflexivity.
Qed.

Lemma not_alpha_below x : x < 65 -> isalpha x = false.
Proof.
  intros H. unfold isalpha, in_range.
  apply orb_false_iff. split; apply andb_false_iff; left; apply Z.leb_gt; lia.
Qed.

(** [std::atoi] on a run of digits. *)
Lemma atoi_digits c w' :
  isdigit (int_of_char c) = true ->
  atoi (c :: w') = int_arith (digits_value 0 (c :: w')).
Proof.
  intros H. pose proof (isdigit_range _ H) as Hr.
  unfold atoi. cbn [skip_spaces].
  rewrite (not_space_range (int_of_char c)) by lia.
  replace (int_of_char c =? 45) with false by (symmetry; apply Z.eqb_neq; lia).
  replace (int_of_char c =? 43) with false by (symmetry; apply Z.eqb_neq; lia).
  reflexivity.
Qed.

(** ** Names and numbers *)

(** Lines 97-112 on a run that stops inside the file. *)
Lemma identity_at path bs k lb r c w :
  fits_int bs ->
  nth_error bs k = Some c ->
  isalpha (static_cast_char (int_of_char c)) = true ->
  w = span isalnum (skipn k bs) ->
  (k + List.length w < List.length bs)%nat ->
  INT_MIN <= Z.of_nat k - lb <= INT_MAX ->
  INT_MIN <= r <= INT_MAX ->
  next_token (lexer_at path bs k lb r)
  = Ok (Some (mkToken IDENTITY (Some (string_of_list_ascii w)) None
                      (mkLocation path r (Z.of_nat k - lb))),
        lexer_at path bs (k + List.length w) lb r).
Proof.
  intros Hfit Hbyte Ha Hw Hlt Hcol Hrow.
  destruct (class_cases c isalpha 65 122 ltac:(lia) ltac:(lia)
                        isalpha_range Ha) as (Hsc & Hrange).
  rewrite (next_token_classify path bs Hfit k lb r c Hbyte Hcol).
  - cbv zeta. rewrite Ha. unfold lex_identity.
    rewrite Hsc in Ha.
    assert (Hal : isalnum (int_of_char c) = true)
      by (unfold isalnum; rewrite Ha; reflexivity).
    unfold bind at 1.
    rewrite (rescan_run path bs Hfit k lb r c Hbyte Hrow isalnum _ w
               (fun x H => H) Hal Hw Hlt).
    reflexivity.
  - apply not_space_range. lia.
  - apply Z.eqb_neq. unfold HASH. lia.
Qed.

(** X2.  A letter starts a name: the token is IDENTITY, its text is the
    longest run of letters and digits from that byte on, its location is
    the row of the lexer and the offset of the byte minus the line
    begin, and the lexer is left behind the run.  (The run must stop
    before the end of the file.) *)
Theorem identity_token path bs k lb r c w :
  fits_int bs ->
  nth_error bs k = Some c ->
  isalpha (static_cast_char (int_of_char c)) = true ->
  w = span isalnum (skipn k bs) ->
  (k + List.length w < List.length bs)%nat ->
  INT_MIN <= Z.of_nat k - lb <= INT_MAX ->
  INT_MIN <= r <= INT_MAX ->
  next_token (lexer_at path bs k lb r)
  = Ok (Some (mkToken IDENTITY (Some (string_of_list_ascii w)) None
                      (mkLocation path r (Z.of_nat k - lb))),
        lexer_at path bs (k + List.length w) lb r).
Proof. exact (identity_at path bs k lb r c w). Qed.

Lemma identity_token_witness :
  let bs := file "ab1 42;" in
  (fits_int bs /\ nth_error bs 0 = Some "a"%char /\
   isalpha (static_cast_char (int_of_char "a")) = true /\
   file "ab1" = span isalnum (skipn 0 bs) /\
   (0 + List.length (file "ab1") < List.length bs)%nat /\
   INT_MIN <= Z.of_nat 0 - 0 <= INT_MAX /\ INT_MIN <= 0 <= INT_MAX) /\
  next_token (lexer_at "a.vcl" bs 0 0 0)
  = Ok (Some (token_at IDENTITY (Some "ab1"%string) None "a.vcl" 0 0),
        lexer_at "a.vcl" bs 3 0 0).
Proof.
  intros bs.
  assert (H1 : fits_int bs) by reflexivity.
  assert (H2 : nth_error bs 0 = Some "a"%char) by reflexivity.
  assert (H3 : isalpha (static_cast_char (int_of_char "a")) = true)
    by reflexivity.
  assert (H4 : file "ab1" = span isalnum (skipn 0 bs)) by reflexivity.
  assert (H5 : (0 + List.length (file "ab1") < List.length bs)%nat)
    by (simpl; lia).
  assert (H6 : INT_MIN <= Z.of_nat 0 - 0 <= INT_MAX)
    by (unfold INT_MIN, INT_MAX; simpl; lia).
  assert (H7 : INT_MIN <= 0 <= INT_MAX) by (unfold INT_MIN, INT_MAX; lia).
  split; [exact (conj H1 (conj H2 (conj H3 (conj H4 (conj H5 (conj H6 H7))))))|].
  exact (identity_token "a.vcl" bs 0 0 0 "a"%char (file "ab1")
           H1 H2 H3 H4 H5 H6 H7).
Defined.

(** Lines 119-134 on a run that stops inside the file: [atoi] decides. *)
Lemma number_at path bs k lb r c w :
  fits_int bs ->
  nth_error bs k = Some c ->
  isdigit (static_cast_char (int_of_char c)) = true ->
  w = span isdigit (skipn k bs) ->
  (k + List.length w < List.length bs)%nat ->
  INT_MIN <= Z.of_nat k - lb <= INT_MAX ->
  INT_MIN <= r <= INT_MAX ->
  next_token (lexer_at path bs k lb r)
  = if digits_value 0 w <=? INT_MAX
    then Ok (Some (mkToken NUMBER None (Some (digits_value 0 w))
                           (mkLocation path r (Z.of_nat k - lb))),
             lexer_at path bs (k + List.length w) lb r)
    else Err UndefinedBehaviour.
Proof.
  intros Hfit Hbyte Hd Hw Hlt Hcol Hrow.
  destruct (class_cases c isdigit 48 57 ltac:(lia) ltac:(lia)
                        isdigit_range Hd) as (Hsc & Hrange).
  rewrite (next_token_classify path bs Hfit k lb r c Hbyte Hcol).
  - cbv zeta. rewrite Hd. rewrite Hsc in *.
    rewrite (not_alpha_below (int_of_char c)) by lia.
    rewrite (digit_not_in_map (int_of_char c)) by lia.
    unfold lex_number. unfold bind at 1.
    rewrite (rescan_run path bs Hfit k lb r c Hbyte Hrow isdigit _ w
               digit_alnum Hd Hw Hlt).
    assert (Hne : exists w', w = c :: w').
    { rewrite Hw, (nth_error_skipn_cons _ _ _ Hbyte).
      apply span_nonempty. exact Hd. }
    destruct Hne as (w' & Hne).
    pose proof (digits_value_nonneg w 0 ltac:(lia)) as Hnn.
    assert (Hin : in_int (digits_value 0 w) = (digits_value 0 w <=? INT_MAX)).
    { unfold in_int. replace (INT_MIN <=? digits_value 0 w) with true;
        [reflexivity|]. symmetry. apply Z.leb_le. unfold INT_MIN. lia. }
    unfold bind at 1. rewrite Hne at 1. rewrite (atoi_digits c w' Hd).
    rewrite <- Hne. unfold int_arith. rewrite Hin.
    destruct (digits_value 0 w <=? INT_MAX); reflexivity.
  - apply not_space_range. lia.
  - apply Z.eqb_neq. unfold HASH. lia.
Qed.

(** X3.  A digit starts a number: the token is NUMBER, its value is the
    decimal value of the longest run of digits from that byte on, and the
    lexer is left behind the run.  (The run must stop before the end of
    the file, and its value must fit [int].) *)
Theorem number_token path bs k lb r c w :
  fits_int bs ->
  nth_error bs k = Some c ->
  isdigit (static_cast_char (int_of_char c)) = true ->
  w = span isdigit (skipn k bs) ->
  (k + List.length w < List.length bs)%nat ->
  digits_value 0 w <= INT_MAX ->
  INT_MIN <= Z.of_nat k - lb <= INT_MAX ->
  INT_MIN <= r <= INT_MAX ->
  next_token (lexer_at path bs k lb r)
  = Ok (Some (mkToken NUMBER None (Some (digits_value 0 w))
                      (mkLocation path r (Z.of_nat k - lb))),
        lexer_at path bs (k + List.length w) lb r).
Proof.
  intros Hfit Hbyte Hd Hw Hlt Hval Hcol Hrow.
  rewrite (number_at path bs k lb r c w Hfit Hbyte Hd Hw Hlt Hcol Hrow).
  apply Z.leb_le in Hval. rewrite Hval. reflexivity.
Qed.

Lemma number_token_witness :
  let bs := file "ab1 42;" in
  (fits_int bs /\ nth_error bs 4 = Some "4"%char /\
   isdigit (static_cast_char (int_of_char "4")) = true /\
   file "42" = span isdigit (skipn 4 bs) /\
   (4 + List.length (file "42") < List.length bs)%nat /\
   digits_value 0 (file "42") <= INT_MAX /\
   INT_MIN <= Z.of_nat 4 - 0 <= INT_MAX /\ INT_MIN <= 0 <= INT_MAX) /\
  next_token (lexer_at "a.vcl" bs 4 0 0)
  = Ok (Some (token_at NUMBER None (Some 42) "a.vcl" 0 4),
        lexer_at "a.vcl" bs 6 0 0).
Proof.
  intros bs.
  assert (H1 : fits_int bs) by reflexivity.
  assert (H2 : nth_error bs 4 = Some "4"%char) by reflexivity.
  assert (H3 : isdigit (static_cast_char (int_of_char "4")) = true)
    by reflexivity.
  assert (H4 : file "42" = span isdigit (skipn 4 bs)) by reflexivity.
  assert (H5 : (4 + List.length (file "42") < List.length bs)%nat)
    by (simpl; lia).
  assert (H6 : digits_value 0 (file "42") <= INT_MAX)
    by (vm_compute; discriminate).
  assert (H7 : INT_MIN <= Z.of_nat 4 - 0 <= INT_MAX)
    by (unfold INT_MIN, INT_MAX; simpl; lia).
  assert (H8 : INT_MIN <= 0 <= INT_MAX) by (unfold INT_MIN, INT_MAX; lia).
  split; [exact (conj H1 (conj H2 (conj H3 (conj H4 (conj H5
                   (conj H6 (conj H7 H8)))))))|].
  exact (number_token "a.vcl" bs 4 0 0 "4"%char (file "42")
           H1 H2 H3 H4 H5 H6 H7 H8).
Defined.

(** X15.  A run of digits whose decimal value exceeds INT_MAX is handed
    to [std::atoi] as it is: lines 119-134 make no check of the range,
    and the C standard leaves the behaviour of [atoi] undefined for a
    value that [int] cannot represent.  The call ends in the fault
    [UndefinedBehaviour]: the model promises no token and no value there
    (a compiled program returns a NUMBER token with a value that is not
    the decimal value of the run). *)
Theorem number_too_large path bs k lb r c w :
  fits_int bs ->
  nth_error bs k = Some c ->
  isdigit (static_cast_char (int_of_char c)) = true ->
  w = span isdigit (skipn k bs) ->
  (k + List.length w < List.length bs)%nat ->
  INT_MAX < digits_value 0 w ->
  INT_MIN <= Z.of_nat k - lb <= INT_MAX ->
  INT_MIN <= r <= INT_MAX ->
  next_token (lexer_at path bs k lb r) = Err UndefinedBehaviour.
Proof.
  intros Hfit Hbyte Hd Hw Hlt Hval Hcol Hrow.
  rewrite (number_at path bs k lb r c w Hfit Hbyte Hd Hw Hlt Hcol Hrow).
  apply Z.leb_gt in Hval. rewrite Hval. reflexivity.
Qed.

Lemma number_too_large_witness :
  let bs := file "99999999999;" in
  (fits_int bs /\ nth_error bs 0 = Some "9"%char /\
   isdigit (static_cast_char (int_of_char "9")) = true /\
   file "99999999999" = span isdigit (skipn 0 bs) /\
   (0 + List.length (file "99999999999") < List.length bs)%nat /\
   INT_MAX < digits_value 0 (file "99999999999") /\
   INT_MIN <= Z.of_nat 0 - 0 <= INT_MAX /\ INT_MIN <= 0 <= INT_MAX) /\
  next_token (lexer_at "a.vcl" bs 0 0 0) = Err UndefinedBehaviour.
Proof.
  intros bs.
  assert (H1 : fits_int bs) by reflexivity.
  assert (H2 : nth_error bs 0 = Some "9"%char) by reflexivity.
  assert (H3 : isdigit (static_cast_char (int_of_char "9")) = true)
    by reflexivity.
  assert (H4 : file "99999999999" = span isdigit (skipn 0 bs)) by reflexivity.
  assert (H5 : (0 + List.length (file "99999999999") < List.length bs)%nat)
    by (simpl; lia).
  assert (H6 : INT_MAX < digits_value 0 (file "99999999999"))
    by reflexivity.
  assert (H7 : INT_MIN <= Z.of_nat 0 - 0 <= INT_MAX)
    by (unfold INT_MIN, INT_MAX; simpl; lia).
  assert (H8 : INT_MIN <= 0 <= INT_MAX) by (unfold INT_MIN, INT_MAX; lia).
  split; [exact (conj H1 (conj H2 (conj H3 (conj H4 (conj H5
                   (conj H6 (conj H7 H8)))))))|].
  exact (number_too_large "a.vcl" bs 0 0 0 "9"%char (file "99999999999")
           H1 H2 H3 H4 H5 H6 H7 H8).
Defined.

(** ** String literals *)

Lemma quote_class c :
  (static_cast_char (int_of_char c) =? QUOTE) = true ->
  int_of_char c = QUOTE /\ static_cast_char (int_of_char c) = QUOTE.
Proof.
  intros H. apply Z.eqb_eq in H. split; [|exact H].
  rewrite static_cast_char_byte in H. pose proof (int_of_char_lt c).
  unfold QUOTE in *. destruct (int_of_char c <? 128); lia.
Qed.

Lemma quote_not_in_map : is_in_token_map QUOTE = false.
Proof. reflexivity. Qed.

(** The byte behind what was read back of a string: the closing quote,
    or the NUL that cut the text. *)
Lemma after_text_not_newline bs j body d rest :
  skipn j bs = body ++ d :: rest ->
  (int_of_char d =? QUOTE) = true ->
  exists b,
    nth_error bs (j + List.length (span (not_byte 0) body)) = Some b /\
    (int_of_char b =? NL) = false.
Proof.
  intros Hs Hd.
  destruct (span_split (not_byte 0) body) as [E | (z & rest' & E & Hz)].
  - rewrite <- E. apply skipn_decomp in Hs.
    apply skipn_cons_nth in Hs. destruct Hs as (Hn & _).
    exists d. split; [exact Hn|].
    apply Z.eqb_eq in Hd. rewrite Hd. reflexivity.
  - set (tx := span (not_byte 0) body) in *.
    rewrite E, <- app_assoc in Hs. simpl in Hs.
    apply skipn_decomp in Hs. apply skipn_cons_nth in Hs.
    destruct Hs as (Hn & _). exists z. split; [exact Hn|].
    unfold not_byte in Hz. apply negb_false_iff, Z.eqb_eq in Hz.
    rewrite Hz. reflexivity.
Qed.

Section Strings.
Variables (path : string) (bs : list ascii).
Hypothesis Hfit : fits_int bs.
Variables (k : nat) (lb r : Z) (c : ascii).
Hypothesis Hbyte : nth_error bs k = Some c.
Hypothesis Hquote : (static_cast_char (int_of_char c) =? QUOTE) = true.
Hypothesis Hcol : INT_MIN <= Z.of_nat k - lb <= INT_MAX.

(** The bytes between the opening quote at offset [k] and the next
    quote. *)
Let body : list ascii := span (not_byte QUOTE) (skipn (S k) bs).

Hypothesis Hclosed : (S k + List.length body < List.length bs)%nat.
Hypothesis Hrow : INT_MIN <= r /\ row_after body r <= INT_MAX.

Lemma string_body_split :
  exists d rest,
    skipn (S k) bs = body ++ d :: rest /\ (int_of_char d =? QUOTE) = true.
Proof.
  destruct (span_split (not_byte QUOTE) (skipn (S k) bs))
    as [E | (d & rest & E & Hd)]; fold body in E.
  - pose proof (f_equal (@List.length ascii) E) as HL.
    rewrite length_skipn in HL. lia.
  - exists d, rest. split; [exact E|].
    unfold not_byte in Hd. apply negb_false_iff in Hd. exact Hd.
Qed.

(** Lines 137-151 up to the last [chop_char]. *)
Lemma lex_string_read {A} (cont : list ascii -> M A) :
  (chop_char ;;
   start <- io tellg ;;
   while_ (and_then source_good (x <- io peek ;; ret (negb (x =? QUOTE))))
          chop_char ;;
   e <- io tellg ;;
   let n := e - start + 1 in
   io_ (seekg start) ;;
   buf <- read_back n ;;
   cont buf) (lexer_at path bs k lb r)
  = cont (span (not_byte 0) body)
         (match span (not_byte 0) body with
          | [] => lexer_failed path bs (S k)
                    (line_begin_after body (S k) lb) (row_after body r)
          | _ => lexer_at path bs (S k + List.length (span (not_byte 0) body))
                   (line_begin_after body (S k) lb) (row_after body r)
          end).
Proof.
  destruct (quote_class c Hquote) as (Hc & _).
  destruct string_body_split as (d & rest & Hs & Hd).
  assert (Hnl : (int_of_char c =? NL) = false) by (rewrite Hc; reflexivity).
  assert (Hk1 : (S k <= List.length bs)%nat) by lia.
  rewrite (bind_run _ _ _ _ _ (chop_char_at path bs k lb r c Hbyte Hnl)).
  rewrite (bind_run _ _ _ _ _ (io_tellg_at path bs (S k) lb r)).
  rewrite (bind_run _ _ _ _ _
             (chop_while_forward path bs Hfit (not_byte QUOTE) (S k) lb r
                Hk1 (proj1 Hrow) (proj2 Hrow))).
  fold body. rewrite lexer_after_lt by exact Hclosed.
  rewrite (bind_run _ _ _ _ _ (io_tellg_at path bs _ _ _)).
  cbv zeta.
  rewrite (bind_run _ _ _ _ _ (io_seekg_at path bs (S k) _ _ _)).
  rewrite (bind_run _ _ _ _ _
             (read_back_forward path bs Hfit (S k) _ _ body d rest Hs)).
  reflexivity.
Qed.

(** Lines 82-153 at a double quote. *)
Lemma string_token_at :
  next_token (lexer_at path bs k lb r)
  = Ok (Some (mkToken STRING
                (Some (string_of_list_ascii (span (not_byte 0) body))) None
                (mkLocation path r (Z.of_nat k - lb))),
        match span (not_byte 0) body with
        | [] => lexer_failed path bs (S k)
                  (line_begin_after body (S k) lb) (row_after body r)
        | _ => lexer_at path bs
                 (S (S k + List.length (span (not_byte 0) body)))
                 (line_begin_after body (S k) lb) (row_after body r)
        end).
Proof.
  destruct (quote_class c Hquote) as (Hc & Hsc).
  destruct string_body_split as (d & rest & Hs & Hd).
  rewrite (next_token_classify path bs Hfit k lb r c Hbyte Hcol).
  - cbv zeta. rewrite Hquote, Hsc.
    change (isalpha QUOTE) with false. rewrite quote_not_in_map.
    change (isdigit QUOTE) with false. cbv iota.
    unfold lex_string. unfold bind at 1.
    rewrite (lex_string_read _).
    destruct (after_text_not_newline bs (S k) body d rest Hs Hd)
      as (b & Hb & Hbn).
    destruct (span (not_byte 0) body) as [|t0 tx] eqn:Etx.
    + rewrite (bind_run _ _ _ _ _
                 (chop_char_not_good (lexer_failed path bs (S k) _ _)
                                     eq_refl)).
      reflexivity.
    + rewrite (bind_run _ _ _ _ _
                 (chop_char_at path bs _ _ _ b Hb Hbn)).
      reflexivity.
  - rewrite Hc. reflexivity.
  - rewrite Hc. reflexivity.
Qed.

End Strings.

(** X4.  A string literal with a body that has no NUL byte and is not
    empty: the text of the token is the body, byte for byte, the
    location is that of the opening quote, the newlines of the body
    count for the row and the line begin, and the lexer is left behind
    the closing quote. *)
Theorem string_token path bs k lb r c body :
  fits_int bs ->
  nth_error bs k = Some c ->
  (static_cast_char (int_of_char c) =? QUOTE) = true ->
  body = span (not_byte QUOTE) (skipn (S k) bs) ->
  (S k + List.length body < List.length bs)%nat ->
  body <> [] ->
  Forall (fun a => not_byte 0 (int_of_char a) = true) body ->
  INT_MIN <= Z.of_nat k - lb <= INT_MAX ->
  INT_MIN <= r -> row_after body r <= INT_MAX ->
  next_token (lexer_at path bs k lb r)
  = Ok (Some (mkToken STRING (Some (string_of_list_ascii body)) None
                      (mkLocation path r (Z.of_nat k - lb))),
        lexer_at path bs (k + List.length body + 2)
                 (line_begin_after body (S k) lb) (row_after body r)).
Proof.
  intros Hfit Hbyte Hq -> Hclosed Hne Hnul Hcol Hr1 Hr2.
  rewrite (string_token_at path bs Hfit k lb r c Hbyte Hq Hcol Hclosed
             (conj Hr1 Hr2)).
  rewrite (span_all _ _ Hnul).
  destruct (span (not_byte QUOTE) (skipn (S k) bs)) as [|b0 body'] eqn:E;
    [contradiction|].
  do 2 f_equal. unfold lexer_at. do 2 f_equal. lia.
Qed.

Lemma string_token_witness :
  let body := (file "h" ++ [LF] ++ file "i")%list in
  let bs := ([DQ] ++ body ++ [DQ] ++ file ";")%list in
  (fits_int bs /\ nth_error bs 0 = Some DQ /\
   (static_cast_char (int_of_char DQ) =? QUOTE) = true /\
   body = span (not_byte QUOTE) (skipn 1 bs) /\
   (1 + List.length body < List.length bs)%nat /\
   body <> [] /\
   Forall (fun a => not_byte 0 (int_of_char a) = true) body /\
   INT_MIN <= Z.of_nat 0 - 0 <= INT_MAX /\
   INT_MIN <= 0 /\ row_after body 0 <= INT_MAX) /\
  next_token (lexer_at "a.vcl" bs 0 0 0)
  = Ok (Some (token_at STRING (Some (string_of_list_ascii body)) None
                       "a.vcl" 0 0),
        lexer_at "a.vcl" bs 5 4 1).
Proof.
  intros body bs.
  assert (H1 : fits_int bs) by reflexivity.
  assert (H2 : nth_error bs 0 = Some DQ) by reflexivity.
  assert (H3 : (static_cast_char (int_of_char DQ) =? QUOTE) = true)
    by reflexivity.
  assert (H4 : body = span (not_byte QUOTE) (skipn 1 bs)) by reflexivity.
  assert (H5 : (1 + List.length body < List.length bs)%nat) by (simpl; lia).
  assert (H6 : body <> []) by discriminate.
  assert (H7 : Forall (fun a => not_byte 0 (int_of_char a) = true) body)
    by (repeat constructor).
  assert (H8 : INT_MIN <= Z.of_nat 0 - 0 <= INT_MAX)
    by (unfold INT_MIN, INT_MAX; simpl; lia).
  assert (H9 : INT_MIN <= 0) by (unfold INT_MIN; lia).
  assert (H10 : row_after body 0 <= INT_MAX) by (vm_compute; discriminate).
  split; [exact (conj H1 (conj H2 (conj H3 (conj H4 (conj H5 (conj H6
                   (conj H7 (conj H8 (conj H9 H10)))))))))|].
  exact (string_token "a.vcl" bs 0 0 0 DQ body
           H1 H2 H3 H4 H5 H6 H7 H8 H9 H10).
Defined.

(** X5.  A string literal whose body is empty or starts with a NUL byte:
    the token has the empty text, nothing behind the opening quote is
    consumed, [failbit] is set, and every further call returns the empty
    optional. *)
Theorem string_token_without_text path bs k lb r c body :
  fits_int bs ->
  nth_error bs k = Some c ->
  (static_cast_char (int_of_char c) =? QUOTE) = true ->
  body = span (not_byte QUOTE) (skipn (S k) bs) ->
  (S k + List.length body < List.length bs)%nat ->
  span (not_byte 0) body = [] ->
  INT_MIN <= Z.of_nat k - lb <= INT_MAX ->
  INT_MIN <= r -> row_after body r <= INT_MAX ->
  let lx' := lexer_failed path bs (S k)
               (line_begin_after body (S k) lb) (row_after body r) in
  next_token (lexer_at path bs k lb r)
  = Ok (Some (mkToken STRING (Some ""%string) None
                      (mkLocation path r (Z.of_nat k - lb))), lx') /\
  forall n, call_again n lx' = Ok (repeat None n, lx').
Proof.
  intros Hfit Hbyte Hq -> Hclosed Htx Hcol Hr1 Hr2 lx'. split.
  - rewrite (string_token_at path bs Hfit k lb r c Hbyte Hq Hcol Hclosed
               (conj Hr1 Hr2)).
    rewrite Htx. reflexivity.
  - apply call_again_exhausted. reflexivity.
Qed.

Lemma string_token_without_text_witness :
  let bs := ([DQ; DQ] ++ file ";")%list in
  let lx' := lexer_failed "a.vcl" bs 1 0 0 in
  (fits_int bs /\ nth_error bs 0 = Some DQ /\
   (static_cast_char (int_of_char DQ) =? QUOTE) = true /\
   [] = span (not_byte QUOTE) (skipn 1 bs) /\
   (1 + List.length (@nil ascii) < List.length bs)%nat /\
   span (not_byte 0) [] = [] /\
   INT_MIN <= Z.of_nat 0 - 0 <= INT_MAX /\
   INT_MIN <= 0 /\ row_after [] 0 <= INT_MAX) /\
  next_token (lexer_at "a.vcl" bs 0 0 0)
  = Ok (Some (token_at STRING (Some ""%string) None "a.vcl" 0 0), lx') /\
  forall n, call_again n lx' = Ok (repeat None n, lx').
Proof.
  intros bs lx'.
  assert (H1 : fits_int bs) by reflexivity.
  assert (H2 : nth_error bs 0 = Some DQ) by reflexivity.
  assert (H3 : (static_cast_char (int_of_char DQ) =? QUOTE) = true)
    by reflexivity.
  assert (H4 : [] = span (not_byte QUOTE) (skipn 1 bs)) by reflexivity.
  assert (H5 : (1 + List.length (@nil ascii) < List.length bs)%nat)
    by (simpl; lia).
  assert (H6 : span (not_byte 0) [] = []) by reflexivity.
  assert (H7 : INT_MIN <= Z.of_nat 0 - 0 <= INT_MAX)
    by (unfold INT_MIN, INT_MAX; simpl; lia).
  assert (H8 : INT_MIN <= 0) by (unfold INT_MIN; lia).
  assert (H9 : row_after [] 0 <= INT_MAX) by (vm_compute; discriminate).
  split; [exact (conj H1 (conj H2 (conj H3 (conj H4 (conj H5 (conj H6
                   (conj H7 (conj H8 H9))))))))|].
  exact (string_token_without_text "a.vcl" bs 0 0 0 DQ []
           H1 H2 H3 H4 H5 H6 H7 H8 H9).
Defined.

(** X6.  A NUL byte in the body of a string literal cuts the text: the
    token carries the bytes before the NUL, and the lexer is left right
    behind the NUL, inside the literal, with the row and the line begin
    of the whole body. *)
Theorem string_token_cut_at_nul path bs k lb r c body tx z rest :
  fits_int bs ->
  nth_error bs k = Some c ->
  (static_cast_char (int_of_char c) =? QUOTE) = true ->
  body = span (not_byte QUOTE) (skipn (S k) bs) ->
  (S k + List.length body < List.length bs)%nat ->
  body = tx ++ z :: rest ->
  tx <> [] ->
  Forall (fun a => not_byte 0 (int_of_char a) = true) tx ->
  int_of_char z = 0 ->
  INT_MIN <= Z.of_nat k - lb <= INT_MAX ->
  INT_MIN <= r -> row_after body r <= INT_MAX ->
  next_token (lexer_at path bs k lb r)
  = Ok (Some (mkToken STRING (Some (string_of_list_ascii tx)) None
                      (mkLocation path r (Z.of_nat k - lb))),
        lexer_at path bs (k + List.length tx + 2)
                 (line_begin_after body (S k) lb) (row_after body r)).
Proof.
  intros Hfit Hbyte Hq Hbody Hclosed Hsplit Hne Hnul Hz Hcol Hr1 Hr2.
  assert (Htx : span (not_byte 0) body = tx).
  { rewrite Hsplit. apply span_stop; [exact Hnul|].
    unfold not_byte. rewrite Hz. reflexivity. }
  rewrite Hbody in Hclosed, Hr2.
  rewrite (string_token_at path bs Hfit k lb r c Hbyte Hq Hcol Hclosed
             (conj Hr1 Hr2)).
  rewrite <- Hbody, Htx.
  destruct tx as [|t0 tx']; [contradiction|].
  do 2 f_equal. unfold lexer_at. do 2 f_equal. lia.
Qed.

Lemma string_token_cut_at_nul_witness :
  let body := (file "a" ++ ["000"%char] ++ file "b")%list in
  let bs := ([DQ] ++ body ++ [DQ] ++ file ";")%list in
  (fits_int bs /\ nth_error bs 0 = Some DQ /\
   (static_cast_char (int_of_char DQ) =? QUOTE) = true /\
   body = span (not_byte QUOTE) (skipn 1 bs) /\
   (1 + List.length body < List.length bs)%nat /\
   body = (file "a" ++ "000"%char :: file "b")%list /\
   file "a" <> [] /\
   Forall (fun a => not_byte 0 (int_of_char a) = true) (file "a") /\
   int_of_char "000" = 0 /\
   INT_MIN <= Z.of_nat 0 - 0 <= INT_MAX /\
   INT_MIN <= 0 /\ row_after body 0 <= INT_MAX) /\
  next_token (lexer_at "a.vcl" bs 0 0 0)
  = Ok (Some (token_at STRING (Some "a"%string) None "a.vcl" 0 0),
        lexer_at "a.vcl" bs 3 0 0).
Proof.
  intros body bs.
  assert (H1 : fits_int bs) by reflexivity.
  assert (H2 : nth_error bs 0 = Some DQ) by reflexivity.
  assert (H3 : (static_cast_char (int_of_char DQ) =? QUOTE) = true)
    by reflexivity.
  assert (H4 : body = span (not_byte QUOTE) (skipn 1 bs)) by reflexivity.
  assert (H5 : (1 + List.length body < List.length bs)%nat) by (simpl; lia).
  assert (H6 : body = (file "a" ++ "000"%char :: file "b")%list) by reflexivity.
  assert (H7 : file "a" <> []) by discriminate.
  assert (H8 : Forall (fun a => not_byte 0 (int_of_char a) = true) (file "a"))
    by (repeat constructor).
  assert (H9 : int_of_char "000" = 0) by reflexivity.
  assert (H10 : INT_MIN <= Z.of_nat 0 - 0 <= INT_MAX)
    by (unfold INT_MIN, INT_MAX; simpl; lia).
  assert (H11 : INT_MIN <= 0) by (unfold INT_MIN; lia).
  assert (H12 : row_after body 0 <= INT_MAX) by (vm_compute; discriminate).
  split; [exact (conj H1 (conj H2 (conj H3 (conj H4 (conj H5 (conj H6
                   (conj H7 (conj H8 (conj H9 (conj H10
                   (conj H11 H12)))))))))))|].
  exact (string_token_cut_at_nul "a.vcl" bs 0 0 0 DQ body (file "a") "000"%char
           (file "b") H1 H2 H3 H4 H5 H6 H7 H8 H9 H10 H11 H12).
Defined.

(** ** Runs that reach the end of the file *)

Lemma static_cast_int_id z : - 2 ^ 31 <= z < 2 ^ 31 -> static_cast_int z = z.
Proof. intros H. unfold static_cast_int. rewrite Z.mod_small; lia. Qed.

Section AtEnd.
Variables (path : string) (bs : list ascii).
Hypothesis Hfit : fits_int bs.

(** Lines 98-108 and their copies when the loop runs into the end of the
    file: [tellg()] returns -1, [n] is minus the offset of the start,
    and either the length of the array is negative or nothing is stored
    in it. *)
Lemma rescan_at_end (P : Z -> bool) {A} (cont : list ascii -> M A) j lb r :
  (j <= List.length bs)%nat ->
  span P (skipn j bs) = skipn j bs ->
  INT_MIN <= r -> row_after (skipn j bs) r <= INT_MAX ->
  (start <- io tellg ;;
   while_ (and_then source_good (x <- io peek ;; ret (P x))) chop_char ;;
   e <- io tellg ;;
   let n := e - start + 1 in
   io_ (seekg start) ;;
   buf <- read_back n ;;
   cont buf) (lexer_at path bs j lb r)
  = Err (if (2 <=? j)%nat then BadArrayNewLength else UndefinedBehaviour).
Proof.
  intros Hj Hsp Hr1 Hr2.
  rewrite (bind_run _ _ _ _ _ (io_tellg_at path bs j lb r)).
  rewrite (bind_run _ _ _ _ _
             (chop_while_forward path bs Hfit P j lb r Hj Hr1
                ltac:(rewrite Hsp; exact Hr2))).
  rewrite Hsp, lexer_after_ge by (rewrite length_skipn; lia).
  set (lb' := line_begin_after (skipn j bs) j lb).
  set (r' := row_after (skipn j bs) r).
  assert (Htell : io tellg (lexer_at_eof path bs lb' r')
                  = Ok (-1, mkLexer path
                              (mkStream bs (List.length bs) true true) lb' r'))
    by reflexivity.
  rewrite (bind_run _ _ _ _ _ Htell). cbv zeta.
  assert (Hseek : io_ (seekg (Z.of_nat j))
                      (mkLexer path (mkStream bs (List.length bs) true true)
                               lb' r')
                  = Ok (tt, mkLexer path
                              (mkStream bs (List.length bs) false true) lb' r'))
    by reflexivity.
  rewrite (bind_run _ _ _ _ _ Hseek).
  unfold bind at 1. unfold read_back. unfold bind at 1.
  unfold fits_int in Hfit.
  replace (-1 - Z.of_nat j + 1) with (- Z.of_nat j) by lia.
  rewrite static_cast_int_id by lia.
  assert (Hin : in_int (- Z.of_nat j + 1) = true).
  { apply in_int_iff. unfold INT_MIN, INT_MAX. lia. }
  unfold int_arith. rewrite Hin. unfold ret at 1.
  destruct (2 <=? j)%nat eqn:E.
  - apply Nat.leb_le in E.
    replace (- Z.of_nat j + 1 <? 0) with true
      by (symmetry; apply Z.ltb_lt; lia).
    reflexivity.
  - apply Nat.leb_gt in E.
    replace (- Z.of_nat j + 1 <? 0) with false
      by (symmetry; apply Z.ltb_ge; lia).
    unfold bind, io, get_buf, sentry, good. cbn [source eofbit failbit].
    cbn [negb andb].
    replace (0 <? - Z.of_nat j) with false by (symmetry; apply Z.ltb_ge; lia).
    reflexivity.
Qed.

End AtEnd.

(** Lines 97-112 and 119-134 on a run that reaches the end of the file. *)
Lemma name_at_end path bs k lb r c :
  fits_int bs ->
  nth_error bs k = Some c ->
  isalnum (static_cast_char (int_of_char c)) = true ->
  Forall (fun a => isalnum (int_of_char a) = true) (skipn k bs) ->
  (isdigit (int_of_char c) = true ->
   Forall (fun a => isdigit (int_of_char a) = true) (skipn k bs)) ->
  INT_MIN <= Z.of_nat k - lb <= INT_MAX ->
  INT_MIN <= r <= INT_MAX ->
  next_token (lexer_at path bs k lb r)
  = Err (if (2 <=? k)%nat then BadArrayNewLength else UndefinedBehaviour).
Proof.
  intros Hfit Hbyte Hc Hall Hdig Hcol Hrow.
  destruct (class_cases c isalnum 48 122 ltac:(lia) ltac:(lia)
                        isalnum_range Hc) as (Hsc & Hrange).
  assert (Hk : (k <= List.length bs)%nat).
  { assert (k < List.length bs)%nat by (apply nth_error_Some; congruence).
    lia. }
  assert (Hnl : Forall (fun a => negb (int_of_char a =? NL) = true)
                       (skipn k bs)).
  { revert Hall. apply Forall_impl. intros a. apply alnum_not_newline. }
  destruct (no_newline_after _ Hnl k lb r) as (_ & Hr).
  rewrite (next_token_classify path bs Hfit k lb r c Hbyte Hcol).
  - cbv zeta. rewrite Hsc in *.
    destruct (isalpha (int_of_char c)) eqn:Ea.
    + unfold lex_identity. unfold bind at 1.
      rewrite (rescan_at_end path bs Hfit isalnum _ k lb r Hk
                 (span_all _ _ Hall) (proj1 Hrow)
                 ltac:(rewrite Hr; exact (proj2 Hrow))).
      reflexivity.
    + assert (Hd : isdigit (int_of_char c) = true).
      { unfold isalnum in Hc. rewrite Ea in Hc. exact Hc. }
      pose proof (isdigit_range _ Hd) as Hdr.
      rewrite (digit_not_in_map (int_of_char c)) by lia.
      rewrite Hd. unfold lex_number. unfold bind at 1.
      rewrite (rescan_at_end path bs Hfit isdigit _ k lb r Hk
                 (span_all _ _ (Hdig Hd)) (proj1 Hrow)
                 ltac:(rewrite Hr; exact (proj2 Hrow))).
      reflexivity.
  - apply not_space_range. lia.
  - apply Z.eqb_neq. unfold HASH.
    intros E. rewrite E in Hc. discriminate.
Qed.

(** X7.  A name or a number that starts at offset 2 or later and runs to
    the end of the file yields no token: [tellg()] returns -1 at the end
    of the file, [n] is minus the offset of the start, the length
    [static_cast<int>(n) + 1] of the array is negative, and the
    allocation throws (std::bad_array_new_length by the standard, its
    base std::bad_alloc from an allocator that is handed the length
    converted to an unsigned size); nothing catches it.  (For a run that
    starts at offset 0 or 1 the array is allocated and never written:
    see C10.) *)
Theorem name_at_end_faults path bs k lb r c :
  fits_int bs ->
  (2 <= k)%nat ->
  nth_error bs k = Some c ->
  isalnum (static_cast_char (int_of_char c)) = true ->
  Forall (fun a => isalnum (int_of_char a) = true) (skipn k bs) ->
  (isdigit (int_of_char c) = true ->
   Forall (fun a => isdigit (int_of_char a) = true) (skipn k bs)) ->
  INT_MIN <= Z.of_nat k - lb <= INT_MAX ->
  INT_MIN <= r <= INT_MAX ->
  next_token (lexer_at path bs k lb r) = Err BadArrayNewLength.
Proof.
  intros Hfit Hk Hbyte Hc Hall Hdig Hcol Hrow.
  rewrite (name_at_end path bs k lb r c Hfit Hbyte Hc Hall Hdig Hcol Hrow).
  apply Nat.leb_le in Hk. rewrite Hk. reflexivity.
Qed.

Lemma name_at_end_faults_witness :
  let bs := file "f(ab" in
  (fits_int bs /\ (2 <= 2)%nat /\ nth_error bs 2 = Some "a"%char /\
   isalnum (static_cast_char (int_of_char "a")) = true /\
   Forall (fun a => isalnum (int_of_char a) = true) (skipn 2 bs) /\
   (isdigit (int_of_char "a") = true ->
    Forall (fun a => isdigit (int_of_char a) = true) (skipn 2 bs)) /\
   INT_MIN <= Z.of_nat 2 - 0 <= INT_MAX /\ INT_MIN <= 0 <= INT_MAX) /\
  next_token (lexer_at "a.vcl" bs 2 0 0) = Err BadArrayNewLength.
Proof.
  intros bs.
  assert (H1 : fits_int bs) by reflexivity.
  assert (Hk : (2 <= 2)%nat) by lia.
  assert (H2 : nth_error bs 2 = Some "a"%char) by reflexivity.
  assert (H3 : isalnum (static_cast_char (int_of_char "a")) = true)
    by reflexivity.
  assert (H4 : Forall (fun a => isalnum (int_of_char a) = true) (skipn 2 bs))
    by (repeat constructor).
  assert (H5 : isdigit (int_of_char "a") = true ->
               Forall (fun a => isdigit (int_of_char a) = true) (skipn 2 bs))
    by (intros E; discriminate E).
  assert (H6 : INT_MIN <= Z.of_nat 2 - 0 <= INT_MAX)
    by (unfold INT_MIN, INT_MAX; simpl; lia).
  assert (H7 : INT_MIN <= 0 <= INT_MAX) by (unfold INT_MIN, INT_MAX; lia).
  split; [exact (conj H1 (conj Hk (conj H2 (conj H3 (conj H4 (conj H5
                   (conj H6 H7)))))))|].
  exact (name_at_end_faults "a.vcl" bs 2 0 0 "a"%char
           H1 Hk H2 H3 H4 H5 H6 H7).
Defined.

(** Lines 136-153 without a closing quote. *)
Lemma unterminated_at path bs k lb r c :
  fits_int bs ->
  nth_error bs k = Some c ->
  (static_cast_char (int_of_char c) =? QUOTE) = true ->
  Forall (fun a => not_byte QUOTE (int_of_char a) = true) (skipn (S k) bs) ->
  INT_MIN <= Z.of_nat k - lb <= INT_MAX ->
  INT_MIN <= r -> row_after (skipn (S k) bs) r <= INT_MAX ->
  next_token (lexer_at path bs k lb r)
  = Err (if (1 <=? k)%nat then BadArrayNewLength else UndefinedBehaviour).
Proof.
  intros Hfit Hbyte Hq Hall Hcol Hr1 Hr2.
  destruct (quote_class c Hq) as (Hc & Hsc).
  assert (Hk : (S k <= List.length bs)%nat).
  { assert (k < List.length bs)%nat by (apply nth_error_Some; congruence).
    lia. }
  assert (Hnl : (int_of_char c =? NL) = false) by (rewrite Hc; reflexivity).
  rewrite (next_token_classify path bs Hfit k lb r c Hbyte Hcol).
  - cbv zeta. rewrite Hq, Hsc.
    change (isalpha QUOTE) with false. rewrite quote_not_in_map.
    change (isdigit QUOTE) with false. cbv iota.
    unfold lex_string. unfold bind at 1.
    rewrite (bind_run _ _ _ _ _ (chop_char_at path bs k lb r c Hbyte Hnl)).
    rewrite (rescan_at_end path bs Hfit (not_byte QUOTE) _ (S k) lb r Hk
               (span_all _ _ Hall) Hr1 Hr2).
    reflexivity.
  - rewrite Hc. reflexivity.
  - rewrite Hc. reflexivity.
Qed.

(** X8.  A string literal whose opening quote is at offset 1 or later
    and that is not closed yields no token and reports no error of its
    own: the loop of line 139 runs to the end of the file, [tellg()]
    returns -1, the length [static_cast<int>(n) + 1] of the array is
    negative, and the allocation throws (std::bad_array_new_length by
    the standard, its base std::bad_alloc from an allocator that is
    handed the length converted to an unsigned size); nothing catches
    it.  (For an opening quote at offset 0 the array is allocated and
    never written: see C3.) *)
Theorem unterminated_string_faults path bs k lb r c :
  fits_int bs ->
  (1 <= k)%nat ->
  nth_error bs k = Some c ->
  (static_cast_char (int_of_char c) =? QUOTE) = true ->
  Forall (fun a => not_byte QUOTE (int_of_char a) = true) (skipn (S k) bs) ->
  INT_MIN <= Z.of_nat k - lb <= INT_MAX ->
  INT_MIN <= r -> row_after (skipn (S k) bs) r <= INT_MAX ->
  next_token (lexer_at path bs k lb r) = Err BadArrayNewLength.
Proof.
  intros Hfit Hk Hbyte Hq Hall Hcol Hr1 Hr2.
  rewrite (unterminated_at path bs k lb r c Hfit Hbyte Hq Hall Hcol Hr1 Hr2).
  apply Nat.leb_le in Hk. rewrite Hk. reflexivity.
Qed.

Lemma unterminated_string_faults_witness :
  let bs := (file "x " ++ [DQ] ++ file "abc")%list in
  (fits_int bs /\ (1 <= 2)%nat /\ nth_error bs 2 = Some DQ /\
   (static_cast_char (int_of_char DQ) =? QUOTE) = true /\
   Forall (fun a => not_byte QUOTE (int_of_char a) = true) (skipn 3 bs) /\
   INT_MIN <= Z.of_nat 2 - 0 <= INT_MAX /\
   INT_MIN <= 0 /\ row_after (skipn 3 bs) 0 <= INT_MAX) /\
  next_token (lexer_at "a.vcl" bs 2 0 0) = Err BadArrayNewLength.
Proof.
  intros bs.
  assert (H1 : fits_int bs) by reflexivity.
  assert (Hk : (1 <= 2)%nat) by lia.
  assert (H2 : nth_error bs 2 = Some DQ) by reflexivity.
  assert (H3 : (static_cast_char (int_of_char DQ) =? QUOTE) = true)
    by reflexivity.
  assert (H4 : Forall (fun a => not_byte QUOTE (int_of_char a) = true)
                      (skipn 3 bs)) by (repeat constructor).
  assert (H5 : INT_MIN <= Z.of_nat 2 - 0 <= INT_MAX)
    by (unfold INT_MIN, INT_MAX; simpl; lia).
  assert (H6 : INT_MIN <= 0) by (unfold INT_MIN; lia).
  assert (H7 : row_after (skipn 3 bs) 0 <= INT_MAX)
    by (vm_compute; discriminate).
  split; [exact (conj H1 (conj Hk (conj H2 (conj H3 (conj H4 (conj H5
                   (conj H6 H7)))))))|].
  exact (unterminated_string_faults "a.vcl" bs 2 0 0 DQ
           H1 Hk H2 H3 H4 H5 H6 H7).
Defined.

(** ** Punctuation, unknown bytes, blank files *)

Lemma map_find_keys x ty :
  map_find x token_type_map = Some ty ->
  x = 40 \/ x = 41 \/ x = 123 \/ x = 125 \/ x = 59.
Proof.
  unfold token_type_map, map_find.
  destruct (40 =? x) eqn:E1; [apply Z.eqb_eq in E1; auto|].
  destruct (41 =? x) eqn:E2; [apply Z.eqb_eq in E2; auto|].
  destruct (123 =? x) eqn:E3; [apply Z.eqb_eq in E3; auto|].
  destruct (125 =? x) eqn:E4; [apply Z.eqb_eq in E4; auto 6|].
  destruct (59 =? x) eqn:E5; [apply Z.eqb_eq in E5; auto 6|].
  discriminate.
Qed.

(** Lines 114-117 at a key of the map. *)
Lemma punct_at path bs k lb r c ty :
  fits_int bs ->
  nth_error bs k = Some c ->
  map_find (static_cast_char (int_of_char c)) token_type_map = Some ty ->
  INT_MIN <= Z.of_nat k - lb <= INT_MAX ->
  next_token (lexer_at path bs k lb r)
  = Ok (Some (mkToken ty None None (mkLocation path r (Z.of_nat k - lb))),
        lexer_at path bs (S k) lb r).
Proof.
  intros Hfit Hbyte Hmap Hcol.
  pose proof (map_find_keys _ _ Hmap) as Hkeys.
  assert (Hsc : static_cast_char (int_of_char c) = int_of_char c).
  { rewrite static_cast_char_byte in *. pose proof (int_of_char_lt c).
    destruct (int_of_char c <? 128); [reflexivity|lia]. }
  rewrite Hsc in *.
  assert (Hoff : static_cast_int (Z.of_nat k) = Z.of_nat k)
    by (apply (offset_fits bs Hfit k c Hbyte)).
  rewrite (next_token_punct_at path bs k lb r c Hbyte ty);
    rewrite ?Hsc, ?Hoff; try exact Hmap; try reflexivity;
    try (apply in_int_iff; exact Hcol);
    destruct Hkeys as [E | [E | [E | [E | E]]]]; rewrite E; reflexivity.
Qed.

(** X9.  A byte that is a key of [token_type_map] is a token by itself:
    its type is the one the map gives, it has no payload, and exactly
    that byte is consumed. *)
Theorem punct_token path bs k lb r c ty :
  fits_int bs ->
  nth_error bs k = Some c ->
  map_find (static_cast_char (int_of_char c)) token_type_map = Some ty ->
  INT_MIN <= Z.of_nat k - lb <= INT_MAX ->
  next_token (lexer_at path bs k lb r)
  = Ok (Some (mkToken ty None None (mkLocation path r (Z.of_nat k - lb))),
        lexer_at path bs (S k) lb r).
Proof. exact (punct_at path bs k lb r c ty). Qed.

Lemma punct_token_witness :
  let bs := file "f(1);" in
  (fits_int bs /\ nth_error bs 1 = Some "("%char /\
   map_find (static_cast_char (int_of_char "(")) token_type_map
   = Some OPEN_PAREN /\
   INT_MIN <= Z.of_nat 1 - 0 <= INT_MAX) /\
  next_token (lexer_at "a.vcl" bs 1 0 0)
  = Ok (Some (token_at OPEN_PAREN None None "a.vcl" 0 1),
        lexer_at "a.vcl" bs 2 0 0).
Proof.
  intros bs.
  assert (H1 : fits_int bs) by reflexivity.
  assert (H2 : nth_error bs 1 = Some "("%char) by reflexivity.
  assert (H3 : map_find (static_cast_char (int_of_char "(")) token_type_map
               = Some OPEN_PAREN) by reflexivity.
  assert (H4 : INT_MIN <= Z.of_nat 1 - 0 <= INT_MAX)
    by (unfold INT_MIN, INT_MAX; simpl; lia).
  split; [exact (conj H1 (conj H2 (conj H3 H4)))|].
  exact (punct_token "a.vcl" bs 1 0 0 "("%char OPEN_PAREN H1 H2 H3 H4).
Defined.

(** X10.  A byte that is not white space, does not start a comment and
    starts no token ends the run on the assertion of line 155. *)
Theorem unknown_byte_asserts path bs k lb r c :
  fits_int bs ->
  nth_error bs k = Some c ->
  isspace (int_of_char c) = false ->
  (int_of_char c =? HASH) = false ->
  isalpha (static_cast_char (int_of_char c)) = false ->
  is_in_token_map (static_cast_char (int_of_char c)) = false ->
  isdigit (static_cast_char (int_of_char c)) = false ->
  (static_cast_char (int_of_char c) =? QUOTE) = false ->
  INT_MIN <= Z.of_nat k - lb <= INT_MAX ->
  next_token (lexer_at path bs k lb r) = Err AssertNotImplemented.
Proof.
  intros Hfit Hbyte Hsp Hh Ha Hm Hd Hq Hcol.
  apply (unknown_byte_at path bs Hfit k lb r c Hbyte Hcol Hsp Hh Ha Hm Hd Hq).
Qed.

Lemma unknown_byte_asserts_witness :
  let bs := file "a = 1;" in
  (fits_int bs /\ nth_error bs 2 = Some "="%char /\
   isspace (int_of_char "=") = false /\
   (int_of_char "=" =? HASH) = false /\
   isalpha (static_cast_char (int_of_char "=")) = false /\
   is_in_token_map (static_cast_char (int_of_char "=")) = false /\
   isdigit (static_cast_char (int_of_char "=")) = false /\
   (static_cast_char (int_of_char "=") =? QUOTE) = false /\
   INT_MIN <= Z.of_nat 2 - 0 <= INT_MAX) /\
  next_token (lexer_at "a.vcl" bs 2 0 0) = Err AssertNotImplemented.
Proof.
  intros bs.
  assert (H1 : fits_int bs) by reflexivity.
  assert (H2 : nth_error bs 2 = Some "="%char) by reflexivity.
  assert (H3 : isspace (int_of_char "=") = false) by reflexivity.
  assert (H4 : (int_of_char "=" =? HASH) = false) by reflexivity.
  assert (H5 : isalpha (static_cast_char (int_of_char "=")) = false)
    by reflexivity.
  assert (H6 : is_in_token_map (static_cast_char (int_of_char "=")) = false)
    by reflexivity.
  assert (H7 : isdigit (static_cast_char (int_of_char "=")) = false)
    by reflexivity.
  assert (H8 : (static_cast_char (int_of_char "=") =? QUOTE) = false)
    by reflexivity.
  assert (H9 : INT_MIN <= Z.of_nat 2 - 0 <= INT_MAX)
    by (unfold INT_MIN, INT_MAX; simpl; lia).
  split; [exact (conj H1 (conj H2 (conj H3 (conj H4 (conj H5 (conj H6
                   (conj H7 (conj H8 H9))))))))|].
  exact (unknown_byte_asserts "a.vcl" bs 2 0 0 "="%char
           H1 H2 H3 H4 H5 H6 H7 H8 H9).
Defined.

(** The end of the file behind white space and comments. *)
Lemma next_token_blank_to_end path bs k lb r :
  fits_int bs ->
  (k <= List.length bs)%nat ->
  blank_len false (skipn k bs) = List.length (skipn k bs) ->
  INT_MIN <= r -> row_after (skipn k bs) r <= INT_MAX ->
  next_token (lexer_at path bs k lb r)
  = Ok (None, lexer_at_eof path bs (line_begin_after (skipn k bs) k lb)
                           (row_after (skipn k bs) r)).
Proof.
  intros Hfit Hk Hb Hr1 Hr2.
  assert (Hseg : firstn (blank_len false (skipn k bs)) (skipn k bs)
                 = skipn k bs) by (rewrite Hb; apply firstn_all).
  unfold next_token.
  rewrite (bind_run _ _ _ _ _
             (skip_blank_forward path bs Hfit k lb r Hk Hr1
                ltac:(rewrite Hseg; exact Hr2))).
  rewrite Hseg, Hb, lexer_after_ge by (rewrite length_skipn; lia).
  reflexivity.
Qed.

(** X11.  A file that holds nothing but white space and comments (the
    empty file too) yields no token, and the scan finishes. *)
Theorem blank_file_has_no_token path bs :
  fits_int bs ->
  blank_len false bs = List.length bs ->
  run path (Some bs) = Some ([], Finished).
Proof.
  intros Hfit Hb. unfold run, Lexer_good, scan_all. cbn [Lexer_new source good
    eofbit failbit negb andb bytes].
  rewrite Nat.add_comm. cbn [Nat.add]. rewrite scan_S.
  change (mkLexer path (mkStream bs 0 false false) 0 0)
    with (lexer_at path bs 0 0 0).
  rewrite (next_token_blank_to_end path bs 0 0 0 Hfit); try exact Hb.
  - reflexivity.
  - lia.
  - unfold INT_MIN. lia.
  - cbn [skipn]. pose proof (row_after_bound bs 0).
    unfold fits_int in Hfit. unfold INT_MAX. lia.
Qed.

Lemma blank_file_has_no_token_witness :
  let bs := (file "  # only a comment" ++ [LF] ++ file " ")%list in
  (fits_int bs /\ blank_len false bs = List.length bs) /\
  run "a.vcl" (Some bs) = Some ([], Finished).
Proof.
  intros bs.
  assert (H1 : fits_int bs) by reflexivity.
  assert (H2 : blank_len false bs = List.length bs) by reflexivity.
  split; [exact (conj H1 H2)|].
  exact (blank_file_has_no_token "a.vcl" bs H1 H2).
Defined.

(** ** The locations of a whole scan *)

Lemma firstn_plus {A} (l : list A) : forall k n,
  firstn (k + n) l = firstn k l ++ firstn n (skipn k l).
Proof.
  induction l as [|x l IH]; intros k n.
  - destruct k; destruct n; reflexivity.
  - destruct k as [|k]; [reflexivity|]. simpl. rewrite IH. reflexivity.
Qed.

Lemma row_at_plus bs k n :
  row_at bs (k + n) = row_after (firstn n (skipn k bs)) (row_at bs k).
Proof. unfold row_at. rewrite firstn_plus. apply row_after_app. Qed.

Lemma line_begin_at_plus bs k n :
  (k <= List.length bs)%nat ->
  line_begin_at bs (k + n)
  = line_begin_after (firstn n (skipn k bs)) k (line_begin_at bs k).
Proof.
  intros Hk. unfold line_begin_at.
  rewrite firstn_plus, line_begin_after_app, length_firstn.
  f_equal. lia.
Qed.

Lemma line_begin_after_bound w : forall k lb,
  0 <= lb <= Z.of_nat k + 1 ->
  0 <= line_begin_after w k lb <= Z.of_nat (k + List.length w) + 1.
Proof.
  induction w as [|c w IH]; intros k lb H; cbn [line_begin_after List.length].
  - lia.
  - replace (k + S (List.length w))%nat with (S k + List.length w)%nat by lia.
    apply IH. destruct (int_of_char c =? NL); lia.
Qed.

Lemma row_at_range bs j : 0 <= row_at bs j <= Z.of_nat j.
Proof.
  unfold row_at. pose proof (row_after_le (firstn j bs) 0).
  pose proof (row_after_bound (firstn j bs) 0).
  pose proof (firstn_le_length j bs). lia.
Qed.

Lemma line_begin_at_range bs j : 0 <= line_begin_at bs j <= Z.of_nat j + 1.
Proof.
  unfold line_begin_at.
  pose proof (line_begin_after_bound (firstn j bs) 0 0 ltac:(lia)).
  pose proof (firstn_le_length j bs). lia.
Qed.

Lemma span_prefix (P : Z -> bool) : forall l,
  firstn (List.length (span P l)) l = span P l.
Proof.
  induction l as [|c l IH]; [reflexivity|]. simpl.
  destruct (P (int_of_char c)); simpl; [rewrite IH|]; reflexivity.
Qed.

Lemma span_whole (P : Z -> bool) l :
  (List.length l <= List.length (span P l))%nat -> span P l = l.
Proof.
  intros H. destruct (span_split P l) as [E | (z & rest & E & _)];
    [symmetry; exact E|].
  pose proof (f_equal (@List.length ascii) E) as HL.
  rewrite length_app in HL. simpl in HL. lia.
Qed.

(** The lexer stays [tracked] over bytes without a newline. *)
Lemma tracked_plus path bs j n lb' r' :
  (j <= List.length bs)%nat ->
  line_begin_after (firstn n (skipn j bs)) j (line_begin_at bs j) = lb' ->
  row_after (firstn n (skipn j bs)) (row_at bs j) = r' ->
  lexer_at path bs (j + n) lb' r' = tracked path bs (j + n).
Proof.
  intros Hj H1 H2. unfold tracked.
  rewrite line_begin_at_plus, row_at_plus, H1, H2 by exact Hj. reflexivity.
Qed.

Lemma blank_len_zero c l :
  blank_len false (c :: l) = O ->
  isspace (int_of_char c) = false /\ (int_of_char c =? HASH) = false.
Proof.
  cbn [blank_len]. destruct (isspace (int_of_char c)); [discriminate|].
  destruct (int_of_char c =? HASH); [discriminate|]. auto.
Qed.

Lemma scan_not_good calls lx :
  Lexer_good lx = false -> fst (scan calls lx) = [].
Proof.
  intros G. destruct calls as [|calls]; [reflexivity|].
  rewrite scan_S, (next_token_not_good _ G). reflexivity.
Qed.

Lemma span_keeps (P : Z -> bool) (Q : ascii -> Prop) : forall l,
  Forall Q l -> Forall Q (span P l).
Proof.
  induction 1 as [|c l Hc _ IH]; simpl; [constructor|].
  destruct (P (int_of_char c)); constructor; assumption.
Qed.

Lemma skipn_keeps {A} (Q : A -> Prop) (l : list A) k :
  Forall Q l -> Forall Q (skipn k l).
Proof.
  intros H. rewrite <- (firstn_skipn k l) in H.
  apply Forall_app in H. apply H.
Qed.

Lemma firstn_through {A} (w : list A) d rest :
  firstn (List.length w + 1) (w ++ d :: rest) = w ++ [d].
Proof.
  induction w as [|a w IH]; [reflexivity|]. simpl. rewrite IH. reflexivity.
Qed.

Lemma key_not_newline c ty :
  map_find (static_cast_char (int_of_char c)) token_type_map = Some ty ->
  (int_of_char c =? NL) = false.
Proof.
  intros H. apply map_find_keys in H.
  rewrite static_cast_char_byte in H. pose proof (int_of_char_lt c).
  apply Z.eqb_neq. unfold NL.
  destruct (int_of_char c <? 128); lia.
Qed.

Section Tracked.
Variables (path : string) (bs : list ascii).
Hypothesis Hfit : fits_int bs.
Hypothesis Hnul : nul_free bs.

Lemma tracked_col j :
  (j <= List.length bs)%nat ->
  INT_MIN <= Z.of_nat j - line_begin_at bs j <= INT_MAX.
Proof.
  intros Hj. pose proof (line_begin_at_range bs j).
  unfold fits_int in Hfit. unfold INT_MIN, INT_MAX. lia.
Qed.

Lemma tracked_row j :
  (j <= List.length bs)%nat -> INT_MIN <= row_at bs j <= INT_MAX.
Proof.
  intros Hj. pose proof (row_at_range bs j).
  unfold fits_int in Hfit. unfold INT_MIN, INT_MAX. lia.
Qed.

(** A run of bytes without a newline, from offset [j] on. *)
Lemma tracked_run (P : Z -> bool) j :
  (j <= List.length bs)%nat ->
  (forall x, P x = true -> negb (x =? NL) = true) ->
  lexer_at path bs (j + List.length (span P (skipn j bs)))
           (line_begin_at bs j) (row_at bs j)
  = tracked path bs (j + List.length (span P (skipn j bs))).
Proof.
  intros Hj HP.
  assert (Hnl : Forall (fun a => negb (int_of_char a =? NL) = true)
                       (span P (skipn j bs))).
  { apply (Forall_impl_bytes P (fun x => negb (x =? NL))); [exact HP|].
    apply span_Forall. }
  apply tracked_plus; [exact Hj| |]; rewrite span_prefix.
  - exact (proj1 (no_newline_after _ Hnl j (line_begin_at bs j) 0)).
  - exact (proj2 (no_newline_after _ Hnl j 0 (row_at bs j))).
Qed.

(** A call at a byte that is neither white space nor [#], by a lexer
    that is [tracked]. *)
Lemma token_tracked j c t lx' :
  nth_error bs j = Some c ->
  isspace (int_of_char c) = false ->
  (int_of_char c =? HASH) = false ->
  next_token (tracked path bs j) = Ok (Some t, lx') ->
  token_of path bs j c = Some t /\
  (Lexer_good lx' = false \/
   exists k', (j < k' <= List.length bs)%nat /\ lx' = tracked path bs k').
Proof.
  intros Hbyte Hsp Hh H.
  assert (Hj : (j < List.length bs)%nat)
    by (apply nth_error_Some; congruence).
  assert (Hcol := tracked_col j ltac:(lia)).
  assert (Hrow := tracked_row j ltac:(lia)).
  pose proof (row_at_range bs j) as Hrr.
  assert (Hsk := nth_error_skipn_cons _ _ _ Hbyte).
  unfold tracked in H. unfold token_of. cbv zeta.
  destruct (isalpha (static_cast_char (int_of_char c))) eqn:Ea.
  - (* a name *)
    destruct (class_cases c isalpha 65 122 ltac:(lia) ltac:(lia)
                          isalpha_range Ea) as (Hsc & Hrange).
    assert (Hal : isalnum (int_of_char c) = true).
    { unfold isalnum. rewrite <- Hsc, Ea. reflexivity. }
    destruct (Nat.lt_ge_cases
                (j + List.length (span isalnum (skipn j bs)))
                (List.length bs)) as [Hlt | Hge].
    + rewrite (identity_at path bs j _ _ c _ Hfit Hbyte Ea eq_refl Hlt
                 Hcol Hrow) in H.
      injection H as <- <-. split; [reflexivity|]. right.
      exists (j + List.length (span isalnum (skipn j bs)))%nat. split.
      * destruct (span_nonempty isalnum c (skipn (S j) bs) Hal) as (w' & E).
        rewrite <- Hsk in E. rewrite E in *. simpl in *. lia.
      * apply tracked_run; [lia|exact alnum_not_newline].
    + assert (Hall : Forall (fun a => isalnum (int_of_char a) = true)
                            (skipn j bs)).
      { rewrite <- (span_whole isalnum (skipn j bs))
          by (rewrite length_skipn; lia).
        apply span_Forall. }
      rewrite (name_at_end path bs j _ _ c Hfit Hbyte) in H;
        try assumption; try discriminate.
      * rewrite Hsc. exact Hal.
      * intros Hd. apply isdigit_range in Hd. lia.
  - destruct (map_find (static_cast_char (int_of_char c)) token_type_map)
      as [ty|] eqn:Em.
    + (* punctuation *)
      rewrite (punct_at path bs j _ _ c ty Hfit Hbyte Em Hcol) in H.
      injection H as <- <-. split; [reflexivity|]. right.
      exists (S j). split; [lia|].
      rewrite <- Nat.add_1_r.
      apply tracked_plus; [lia| |]; rewrite Hsk; cbn [firstn];
        cbn [line_begin_after row_after];
        rewrite (key_not_newline c ty Em); reflexivity.
    + assert (Hm : is_in_token_map (static_cast_char (int_of_char c)) = false).
      { unfold is_in_token_map. rewrite Em. reflexivity. }
      destruct (isdigit (static_cast_char (int_of_char c))) eqn:Ed.
      * (* a number *)
        destruct (class_cases c isdigit 48 57 ltac:(lia) ltac:(lia)
                              isdigit_range Ed) as (Hsc & Hrange).
        assert (Hdg : isdigit (int_of_char c) = true)
          by (rewrite <- Hsc; exact Ed).
        destruct (Nat.lt_ge_cases
                    (j + List.length (span isdigit (skipn j bs)))
                    (List.length bs)) as [Hlt | Hge].
        -- rewrite (number_at path bs j _ _ c _ Hfit Hbyte Ed eq_refl Hlt
                      Hcol Hrow) in H.
           destruct (digits_value 0 (span isdigit (skipn j bs)) <=? INT_MAX);
             [|discriminate].
           injection H as <- <-. split; [reflexivity|]. right.
           exists (j + List.length (span isdigit (skipn j bs)))%nat. split.
           ++ destruct (span_nonempty isdigit c (skipn (S j) bs) Hdg)
                as (w' & E).
              rewrite <- Hsk in E. rewrite E in *. simpl in *. lia.
           ++ apply tracked_run; [lia|].
              intros x Hx. apply alnum_not_newline, digit_alnum, Hx.
        -- assert (Hall : Forall (fun a => isdigit (int_of_char a) = true)
                                 (skipn j bs)).
           { rewrite <- (span_whole isdigit (skipn j bs))
               by (rewrite length_skipn; lia).
             apply span_Forall. }
           rewrite (name_at_end path bs j _ _ c Hfit Hbyte) in H;
             try assumption; try discriminate.
           ++ rewrite Hsc. apply digit_alnum, Hdg.
           ++ revert Hall. apply Forall_impl_bytes. exact digit_alnum.
           ++ intros _. exact Hall.
      * destruct (static_cast_char (int_of_char c) =? QUOTE) eqn:Eq.
        -- (* a string literal *)
           destruct (quote_class c Eq) as (Hc & _).
           assert (Hcn : (int_of_char c =? NL) = false)
             by (rewrite Hc; reflexivity).
           remember (span (not_byte QUOTE) (skipn (S j) bs)) as body
             eqn:Ebody.
           pose proof (span_length_le (not_byte QUOTE) (skipn (S j) bs))
             as Hbl.
           rewrite <- Ebody, length_skipn in Hbl.
           pose proof (row_after_bound body (row_at bs j)) as Hrb.
           assert (Hr2 : row_after body (row_at bs j) <= INT_MAX).
           { unfold fits_int in Hfit. unfold INT_MAX. lia. }
           destruct (Nat.lt_ge_cases (S j + List.length body)
                                     (List.length bs)) as [Hlt | Hge].
           ++ pose proof Hlt as Hlt'. pose proof Hr2 as Hr2'.
              rewrite Ebody in Hlt', Hr2'.
              rewrite (string_token_at path bs Hfit j _ _ c Hbyte Eq Hcol
                         Hlt' (conj (proj1 Hrow) Hr2')) in H.
              destruct (string_body_split bs j Hlt') as (d & rest & Hs & Hd).
              rewrite <- Ebody in H, Hs.
              assert (Hnb : span (not_byte 0) body = body).
              { apply span_all. rewrite Ebody. apply span_keeps.
                apply skipn_keeps. exact Hnul. }
              rewrite Hnb in H.
              destruct (Nat.eq_dec (List.length body) 0) as [Hz | Hnz].
              ** apply length_zero_iff_nil in Hz. rewrite Hz in *.
                 injection H as <- <-. split; [reflexivity|]. left.
                 reflexivity.
              ** assert (Hmt : forall (A : Type) (x y : A),
                           match body with [] => x | _ :: _ => y end = y).
                 { intros A x y. destruct body; [contradiction|reflexivity]. }
                 rewrite Hmt in H.
                 injection H as <- <-. split; [reflexivity|]. right.
                 exists (j + S (List.length body + 1))%nat. split; [lia|].
                 match goal with
                 | |- lexer_at _ _ ?n _ _ = _ =>
                     replace n with (j + S (List.length body + 1))%nat by lia
                 end.
                 assert (Hdn : (int_of_char d =? NL) = false).
                 { apply Z.eqb_eq in Hd. rewrite Hd. reflexivity. }
                 apply tracked_plus; [lia| |]; rewrite Hsk, Hs;
                   cbn [firstn]; rewrite firstn_through;
                   cbn [line_begin_after row_after]; rewrite Hcn.
                 --- rewrite line_begin_after_app. cbn [line_begin_after].
                     rewrite Hdn. reflexivity.
                 --- rewrite row_after_app. cbn [row_after].
                     rewrite Hdn. reflexivity.
           ++ assert (Hall : Forall
                               (fun a => not_byte QUOTE (int_of_char a) = true)
                               (skipn (S j) bs)).
              { rewrite <- (span_whole (not_byte QUOTE) (skipn (S j) bs))
                  by (rewrite length_skipn, <- Ebody; lia).
                apply span_Forall. }
              assert (Hr3 : row_after (skipn (S j) bs) (row_at bs j)
                            <= INT_MAX).
              { pose proof (row_after_bound (skipn (S j) bs) (row_at bs j))
                  as Hb3.
                rewrite length_skipn in Hb3.
                unfold fits_int in Hfit. unfold INT_MAX. lia. }
              rewrite (unterminated_at path bs j _ _ c Hfit Hbyte Eq Hall
                         Hcol (proj1 Hrow) Hr3) in H.
              discriminate.
        -- rewrite (unknown_byte_at path bs Hfit j _ _ c Hbyte Hcol Hsp Hh
                      Ea Hm Ed Eq) in H.
           discriminate.
Qed.

End Tracked.

Lemma ascending_from lo lo' js :
  (lo <= lo')%nat -> ascending lo' js -> ascending lo js.
Proof.
  intros H. destruct js as [|j js]; simpl; [auto|].
  intros (H1 & H2). split; [lia|exact H2].
Qed.

Section Located.
Variables (path : string) (bs : list ascii).
Hypothesis Hfit : fits_int bs.
Hypothesis Hnul : nul_free bs.

(** One call of a [tracked] lexer: the token starts behind the white
    space and comments, and the lexer is [tracked] behind the token, or
    its stream is not good. *)
Lemma next_token_tracked k t lx' :
  (k <= List.length bs)%nat ->
  next_token (tracked path bs k) = Ok (Some t, lx') ->
  exists j,
    (k <= j)%nat /\ starts_at path bs j t /\
    (Lexer_good lx' = false \/
     exists k', (j < k' <= List.length bs)%nat /\ lx' = tracked path bs k').
Proof.
  intros Hk H.
  set (b := blank_len false (skipn k bs)) in *.
  pose proof (blank_len_le (skipn k bs) false) as Hb. fold b in Hb.
  rewrite length_skipn in Hb.
  pose proof (tracked_row bs Hfit k Hk) as Hrow.
  pose proof (tracked_row bs Hfit (k + b) ltac:(lia)) as Hrow'.
  unfold tracked in H.
  rewrite (next_token_past_blanks path bs k _ _ Hfit Hk (proj1 Hrow)) in H
    by (fold b; rewrite <- row_at_plus; exact (proj2 Hrow')).
  fold b in H.
  rewrite <- line_begin_at_plus, <- row_at_plus in H by exact Hk.
  destruct (Nat.lt_ge_cases (k + b) (List.length bs)) as [Hlt | Hge].
  - rewrite lexer_after_lt in H by exact Hlt.
    destruct (nth_error bs (k + b)) as [c|] eqn:Hbyte;
      [|apply nth_error_None in Hbyte; lia].
    assert (Hd : blank_len false (skipn (k + b) bs) = O).
    { unfold b. rewrite Nat.add_comm, <- skipn_skipn. apply blank_len_done. }
    rewrite (nth_error_skipn_cons _ _ _ Hbyte) in Hd.
    apply blank_len_zero in Hd. destruct Hd as (Hsp & Hh).
    destruct (token_tracked path bs Hfit Hnul (k + b) c t lx' Hbyte Hsp Hh H)
      as (Htok & Hnext).
    exists (k + b)%nat. split; [lia|]. split; [|exact Hnext].
    exists c. auto.
  - rewrite lexer_after_ge in H by exact Hge.
    rewrite next_token_not_good in H by reflexivity. discriminate.
Qed.

Lemma scan_tracked : forall calls k ts e,
  (k <= List.length bs)%nat ->
  scan calls (tracked path bs k) = (ts, e) ->
  exists js, ascending k js /\ Forall2 (starts_at path bs) js ts.
Proof.
  induction calls as [|calls IH]; intros k ts e Hk H.
  - injection H as <- <-. exists []. split; [exact I|constructor].
  - rewrite scan_S in H.
    destruct (next_token (tracked path bs k)) as [[[t|] lx']|f] eqn:En.
    + destruct (next_token_tracked k t lx' Hk En) as (j & Hj & Hst & Hnext).
      destruct (scan calls lx') as [ts' e'] eqn:Es.
      injection H as <- <-.
      destruct Hnext as [Hbad | (k' & Hk' & ->)].
      * pose proof (scan_not_good calls lx' Hbad) as Hnil.
        rewrite Es in Hnil. simpl in Hnil. subst ts'.
        exists [j]. split; [simpl; auto|]. constructor; [exact Hst|constructor].
      * destruct (IH k' ts' e' ltac:(lia) Es) as (js & Hasc & Hall).
        exists (j :: js). split.
        -- simpl. split; [exact Hj|].
           apply (ascending_from (S j) k'); [lia|exact Hasc].
        -- constructor; assumption.
    + injection H as <- <-. exists []. split; [exact I|constructor].
    + injection H as <- <-. exists []. split; [exact I|constructor].
Qed.

End Located.



(** ** Printing the tokens, and main *)

Lemma token_type_name_defined ty :
  exists s, token_type_name (TokenType_to_int ty) = Some s.
Proof. destruct ty; eexists; reflexivity. Qed.

(** X14.  Every token type has a name in [token_type_names], so the
    array is never read outside its nine elements, and no two types
    share a name. *)
Theorem token_type_names_distinct :
  (forall ty, token_type_name (TokenType_to_int ty) <> None) /\
  (forall a b,
     token_type_name (TokenType_to_int a) = token_type_name (TokenType_to_int b) ->
     a = b).
Proof.
  split.
  - intros ty. destruct ty; discriminate.
  - intros a b. destruct a; destruct b; intros H;
      try reflexivity; discriminate H.
Qed.

(** The loop of main prints the tokens of [scan], one line for each. *)
Lemma main_loop_scan : forall calls lx out ts e lines,
  scan (S calls) lx = (ts, e) ->
  Forall2 (fun t l => output_token t = Ok l) ts lines ->
  match next_token lx with
  | Ok (token, lx') => main_loop calls token lx' out
  | Err f => (out, Terminated f)
  end = (out ++ lines, exit_of e).
Proof.
  induction calls as [|calls IH]; intros lx out ts e lines H Hall;
    rewrite scan_S in H;
    destruct (next_token lx) as [[[t|] lx']|f] eqn:En.
  - simpl in H. injection H as <- <-.
    inversion Hall as [|t0 l0 ts0 ls0 Hl Hrest]; subst.
    inversion Hrest; subst. simpl. rewrite Hl. reflexivity.
  - injection H as <- <-. inversion Hall; subst.
    simpl. rewrite app_nil_r. reflexivity.
  - injection H as <- <-. inversion Hall; subst.
    simpl. rewrite app_nil_r. reflexivity.
  - destruct (scan (S calls) lx') as [ts' e'] eqn:Es.
    injection H as <- <-.
    inversion Hall as [|t0 l0 ts0 ls0 Hl Hrest]; subst.
    cbn [main_loop]. rewrite Hl.
    specialize (IH lx' (out ++ [l0]) ts' e' ls0 Es Hrest).
    rewrite <- app_assoc in IH. exact IH.
  - injection H as <- <-. inversion Hall; subst.
    simpl. rewrite app_nil_r. reflexivity.
  - injection H as <- <-. inversion Hall; subst.
    simpl. rewrite app_nil_r. reflexivity.
Qed.

Lemma token_of_location path bs j c t :
  token_of path bs j c = Some t ->
  location t
  = mkLocation path (row_at bs j) (Z.of_nat j - line_begin_at bs j).
Proof.
  unfold token_of. cbv zeta.
  destruct (isalpha _); [intros H; injection H as <-; reflexivity|].
  destruct (map_find _ _); [intros H; injection H as <-; reflexivity|].
  destruct (isdigit _); [intros H; injection H as <-; reflexivity|].
  destruct (_ =? QUOTE); [intros H; injection H as <-; reflexivity|].
  discriminate.
Qed.

(** A token that starts at an offset of a file can be printed. *)
Lemma output_token_located path bs j t :
  fits_int bs ->
  starts_at path bs j t ->
  exists line, output_token t = Ok line.
Proof.
  intros Hfit (c & Hbyte & Htok).
  assert (Hj : (j < List.length bs)%nat)
    by (apply nth_error_Some; congruence).
  apply token_of_location in Htok.
  pose proof (row_at_range bs j) as Hr.
  pose proof (line_begin_at_range bs j) as Hl.
  unfold fits_int in Hfit.
  unfold output_token. rewrite Htok. cbn [row col file_path].
  replace (in_int (row_at bs j + 1)) with true
    by (symmetry; apply in_int_iff; unfold INT_MIN, INT_MAX; lia).
  replace (in_int (Z.of_nat j - line_begin_at bs j + 1)) with true
    by (symmetry; apply in_int_iff; unfold INT_MIN, INT_MAX; lia).
  destruct (token_type_name_defined (type t)) as (s & ->).
  eexists. reflexivity.
Qed.

Lemma printable_all path bs ts js :
  fits_int bs ->
  Forall2 (starts_at path bs) js ts ->
  exists lines, Forall2 (fun t l => output_token t = Ok l) ts lines.
Proof.
  intros Hfit H. induction H as [|j t js ts Hst _ (lines & IH)].
  - exists []. constructor.
  - destruct (output_token_located path bs j t Hfit Hst) as (l & Hl).
    exists (l :: lines). constructor; assumption.
Qed.

(** X13.  main on a file without NUL bytes that could be opened, when
    the scan does not end in undefined behaviour: for every token of the
    scan one line is written, in the order of the scan, without an
    overflow of [row + 1] or [col + 1]; main returns 0 when the scan
    finishes, and the process is terminated, after the lines of the
    tokens before, when a call of [next_token] ends on the assertion or
    on the exception of the allocation.  (Of a scan that ends in
    undefined behaviour nothing is said: a compiled program goes on
    there.) *)
Theorem main_prints_the_scan argv0 path rest bs ts e :
  fits_int bs ->
  nul_free bs ->
  scan_all (Lexer_new path (Some bs)) = (ts, e) ->
  e <> Faulted UndefinedBehaviour ->
  exists lines,
    Forall2 (fun t l => output_token t = Ok l) ts lines /\
    main argv0 (path :: rest) (Some bs) = (lines, exit_of e).
Proof.
  intros Hfit Hnul H _.
  destruct (scan_tracked path bs Hfit Hnul _ 0 ts e ltac:(lia) H)
    as (js & _ & Hst).
  destruct (printable_all path bs ts js Hfit Hst) as (lines & Hl).
  exists lines. split; [exact Hl|].
  unfold main. cbn [Lexer_new Lexer_good source good eofbit failbit negb andb
                    bytes].
  unfold scan_all in H. cbn [Lexer_new source bytes] in H.
  replace (List.length bs + 2)%nat with (S (List.length bs + 1)) in H by lia.
  exact (main_loop_scan _ _ [] ts e lines H Hl).
Qed.

Lemma main_prints_the_scan_witness :
  let bs := file "f(1);" in
  let ts := [token_at IDENTITY (Some "f"%string) None "a.vcl" 0 0;
             token_at OPEN_PAREN None None "a.vcl" 0 1;
             token_at NUMBER None (Some 1) "a.vcl" 0 2;
             token_at CLOSE_PAREN None None "a.vcl" 0 3;
             token_at SEMICOLON None None "a.vcl" 0 4] in
  (fits_int bs /\ nul_free bs /\
   scan_all (Lexer_new "a.vcl" (Some bs)) = (ts, Finished) /\
   Finished <> Faulted UndefinedBehaviour) /\
  exists lines,
    Forall2 (fun t l => output_token t = Ok l) ts lines /\
    main "vcl" ["a.vcl"%string] (Some bs) = (lines, Returned 0).
Proof.
  intros bs ts.
  assert (H1 : fits_int bs) by reflexivity.
  assert (H2 : nul_free bs) by (repeat constructor).
  assert (H3 : scan_all (Lexer_new "a.vcl" (Some bs)) = (ts, Finished))
    by (vm_compute; reflexivity).
  assert (H4 : Finished <> Faulted UndefinedBehaviour) by discriminate.
  split; [exact (conj H1 (conj H2 (conj H3 H4)))|].
  exact (main_prints_the_scan "vcl" "a.vcl" [] bs ts Finished H1 H2 H3 H4).
Defined.

(** The loop of main needs no more calls than [left] tells. *)
Lemma main_loop_bounded : forall calls token lx out,
  wf lx -> (left lx <= calls)%nat ->
  snd (main_loop calls token lx out) <> Terminated LoopFuel.
Proof.
  induction calls as [|calls IH]; intros token lx out W Hle.
  - pose proof (stream_left_pos (source lx)). unfold left in Hle. lia.
  - destruct token as [t|]; cbn [main_loop]; [|discriminate].
    destruct (output_token t) as [line|f] eqn:Eo.
    + pose proof (next_token_fuel lx) as Hn.
      destruct (next_token lx) as [[[t'|] lx']|f] eqn:En.
      * destruct (next_token_left _ _ _ W En) as (W' & Hlt).
        apply IH; [exact W'|lia].
      * destruct calls; discriminate.
      * simpl. intros E. apply Hn. inversion E. reflexivity.
    + unfold output_token in Eo.
      destruct (in_int _); [|inversion Eo; discriminate].
      destruct (in_int _); [|inversion Eo; discriminate].
      destruct (token_type_name _); [discriminate|].
      inversion Eo. discriminate.
Qed.

(** X17.  main always comes to an end, whatever the arguments and the
    file: the loop of lines 192-195 makes at most one call of
    [next_token] for each byte of the file and two more, so main returns
    or the process is terminated by a fault of the program, never by a
    bound of the model. *)
Theorem main_always_ends argv0 args file :
  snd (main argv0 args file) <> Terminated LoopFuel.
Proof.
  unfold main. destruct args as [|argv1 rest]; [discriminate|].
  cbv zeta. destruct (negb (Lexer_good (Lexer_new argv1 file))) eqn:G;
    [discriminate|].
  apply negb_false_iff in G.
  destruct file as [bs|]; [|discriminate].
  set (lx := Lexer_new argv1 (Some bs)).
  assert (W : wf lx) by (unfold wf; simpl; lia).
  pose proof (next_token_fuel lx) as Hn.
  destruct (next_token lx) as [[[t|] lx']|f] eqn:En.
  - destruct (next_token_left _ _ _ W En) as (W' & Hlt).
    apply main_loop_bounded; [exact W'|].
    assert (Hl : left lx = (List.length bs + 2)%nat)
      by (unfold left, stream_left; simpl; lia).
    rewrite Hl in Hlt. simpl. lia.
  - destruct (List.length (bytes (source lx)) + 1)%nat; discriminate.
  - simpl. intros E. apply Hn. inversion E. reflexivity.
Qed.
